(** * Grouped media composition (history_view_media_grouped.cpp)

    A shallow embedding of [HistoryView::GroupedMedia]: the column layout
    ([LayoutPlaylist]), group construction ([applyGroup],
    [validateGroupParts], [DetectMode]), the sizing engine
    ([countOptimalSize], [countCurrentSize]), the selection interval merger
    ([getBubbleSelectionIntervals]) and the hit test ([pointState]).

    C++ [int] values are modelled as [Z]; signed overflow is undefined in
    C++, so the model describes the executions that stay inside [int].
    [float64] is IEEE binary64, modelled with the standard library's
    [SpecFloat] operations at precision 53 and maximal exponent 1024; the
    proofs about it measure the numbers with rationals. *)

From Stdlib Require Import ZArith List Bool Lia QArith Qpower Lqa.
From Stdlib Require Import Floats.SpecFloat.
Import ListNotations.
Local Open Scope Z_scope.

(** ** Qt value types *)

Record QSize := mkSize { sz_width : Z; sz_height : Z }.

(** [QRect(x, y, w, h)]; [x()], [y()], [width()], [height()] read the
    four constructor arguments back. *)
Record QRect := mkRect { rx : Z; ry : Z; rwidth : Z; rheight : Z }.

Record QPoint := mkPoint { px : Z; py : Z }.

(** [QRect::top()] is [y()]. *)
Definition rtop (r : QRect) : Z := ry r.

(** [QRect::contains(QPoint)] (Qt, not proper): the rectangle stores the
    corners [x1 = x], [x2 = x + w - 1] (and likewise vertically), swaps them
    when the extent is negative, and tests the point against the closed
    ranges. *)
Definition rect_contains (r : QRect) (p : QPoint) : bool :=
  let x1 := rx r in
  let x2 := rx r + rwidth r - 1 in
  let y1 := ry r in
  let y2 := ry r + rheight r - 1 in
  let '(l, rt) := if x2 <? x1 - 1 then (x2, x1) else (x1, x2) in
  let '(t, b) := if y2 <? y1 - 1 then (y2, y1) else (y1, y2) in
  negb ((px p <? l) || (px p >? rt)) && negb ((py p <? t) || (py p >? b)).

(** ** RectPart flags (lib_ui's [RectPart] enum, one bit per part) *)

Module RectPart.
Definition None : Z := 0.
Definition TopLeft : Z := Z.shiftl 1 0.
Definition Top : Z := Z.shiftl 1 1.
Definition TopRight : Z := Z.shiftl 1 2.
Definition Left : Z := Z.shiftl 1 3.
Definition Center : Z := Z.shiftl 1 4.
Definition Right : Z := Z.shiftl 1 5.
Definition BottomLeft : Z := Z.shiftl 1 6.
Definition Bottom : Z := Z.shiftl 1 7.
Definition BottomRight : Z := Z.shiftl 1 8.
End RectPart.

Definition RectParts := Z.

(** [sides & part] as a truth value. *)
Definition has_part (sides : RectParts) (part : Z) : bool :=
  negb (Z.land sides part =? 0).

(** [Ui::GroupMediaLayout]. *)
Module Ui.
Record GroupMediaLayout := mkLayout { geometry : QRect; sides : RectParts }.
End Ui.

(** ** Small helpers for [std::vector] *)

(** [v.front() = f(v.front())]. *)
Definition modify_front {A} (f : A -> A) (v : list A) : list A :=
  match v with
  | [] => []
  | x :: rest => f x :: rest
  end.

(** [v.back() = f(v.back())]. *)
Fixpoint modify_back {A} (f : A -> A) (v : list A) : list A :=
  match v with
  | [] => []
  | [x] => [f x]
  | x :: rest => x :: modify_back f rest
  end.

(** [v.back()], when there is one. *)
Fixpoint back {A} (v : list A) : option A :=
  match v with
  | [] => None
  | [x] => Some x
  | _ :: rest => back rest
  end.

(** ** Column layout: [LayoutPlaylist] *)

(** [ranges::max_element(sizes, less, &QSize::width)->width()] on a
    non-empty range whose first element is [first]. *)
Definition max_element_width (first : QSize) (rest : list QSize) : Z :=
  fold_left (fun acc size => Z.max acc (sz_width size)) rest (sz_width first).

(** The [for (const auto &size : sizes)] loop, [top] being the running
    local. *)
Fixpoint playlist_loop (width top : Z) (sizes : list QSize)
  : list Ui.GroupMediaLayout :=
  match sizes with
  | [] => []
  | size :: rest =>
      Ui.mkLayout (mkRect 0 top width (sz_height size))
               (Z.lor RectPart.Left RectPart.Right)
      :: playlist_loop width (top + sz_height size) rest
  end.

Definition add_side (part : Z) (item : Ui.GroupMediaLayout)
  : Ui.GroupMediaLayout :=
  Ui.mkLayout (Ui.geometry item) (Z.lor (Ui.sides item) part).

(** [None] is the failed [Expects(!sizes.empty())]. *)
Definition LayoutPlaylist (sizes : list QSize)
  : option (list Ui.GroupMediaLayout) :=
  match sizes with
  | [] => None
  | first :: rest =>
      let width := max_element_width first rest in
      let result := playlist_loop width 0 sizes in
      let result := modify_front (add_side RectPart.Top) result in
      let result := modify_back (add_side RectPart.Bottom) result in
      Some result
  end.

(** Sum of the heights of the first [i] sizes. *)
Definition heights_before (i : nat) (sizes : list QSize) : Z :=
  fold_right Z.add 0 (map sz_height (firstn i sizes)).

(** Maximum of the widths of a list of sizes (0 for the empty list). *)
Definition widths_max (sizes : list QSize) : Z :=
  match sizes with
  | [] => 0
  | first :: rest => max_element_width first rest
  end.

(** ** IEEE binary64 ([float64]) *)

Module Float64.
Definition prec : Z := 53.
Definition emax : Z := 1024.
Definition float64 := spec_float.

(** [float64(v)] for an [int] (exact: every [int] is representable). *)
Definition of_int (v : Z) : float64 := binary_normalize prec emax v 0 false.

Definition div (x y : float64) : float64 := SFdiv prec emax x y.
Definition mul (x y : float64) : float64 := SFmul prec emax x y.

(** Magnitude of a finite value rounded to the nearest integer, halves
    away from zero. *)
Definition round_magnitude (m : positive) (e : Z) : Z :=
  if 0 <=? e then Zpos m * 2 ^ e
  else (Zpos m + 2 ^ (- e - 1)) / 2 ^ (- e).

(** [std::round]: nearest integral value, halves away from zero. *)
Definition round (x : float64) : float64 :=
  match x with
  | S754_finite s m e =>
      if 0 <=? e then x
      else
        let k := round_magnitude m e in
        if k =? 0 then S754_zero s
        else binary_normalize prec emax (cond_Zopp s k) 0 s
  | _ => x
  end.

(** [int(x)]: truncation toward zero.  The conversion of a NaN or an
    infinity is undefined in C++; the model returns 0 there. *)
Definition to_int (x : float64) : Z :=
  match x with
  | S754_finite s m e =>
      cond_Zopp s (if 0 <=? e then Zpos m * 2 ^ e else Zpos m / 2 ^ (- e))
  | _ => 0
  end.
End Float64.

(** ** Data model *)

Inductive Mode := Grid | Column.

Definition Mode_eqb (a b : Mode) : bool :=
  match a, b with
  | Grid, Grid | Column, Column => true
  | _, _ => false
  end.

(** Identity of a [HistoryItem] (the owning record of a part). *)
Definition Item := Z.

Record DocumentData := mkDocument { isVideoFile : bool }.

(** [Data::Media], with what the view it creates will answer:
    [maxWidth()] after [initDimensions()], [sizeForGroupingOptimal] and
    [sizeForGrouping]. *)
Record Media := mkMedia {
  parent : Item;
  document : option DocumentData;
  canBeGrouped : bool;
  view_maxWidth : Z;
  view_sizeForGroupingOptimal : Z -> bool -> QSize;
  view_sizeForGrouping : Z -> bool -> QSize
}.

(** The content delegate ([HistoryView::Media]) built by
    [media->createView(parent, item)]. *)
Record Content := mkContent { content_media : Media }.

Definition createView (media : Media) : Content := mkContent media.

Definition content_maxWidth (c : Content) : Z :=
  view_maxWidth (content_media c).
Definition sizeForGroupingOptimal (c : Content) (maxWidth : Z) (last : bool)
  : QSize := view_sizeForGroupingOptimal (content_media c) maxWidth last.
Definition sizeForGrouping (c : Content) (width : Z) (last : bool) : QSize :=
  view_sizeForGrouping (content_media c) width last.

(** [GroupedMedia::Part] (the paint cache is threaded through untouched
    and left out). *)
Record Part := mkPart {
  item : Item;
  content : Content;
  sides : RectParts;
  initialGeometry : QRect;
  geometry : QRect
}.

(** [Part::Part(parent, media)]; [None] is the failed
    [Assert(media->canBeGrouped())]. *)
Definition new_Part (media : Media) : option Part :=
  if canBeGrouped media
  then Some (mkPart (parent media) (createView media) RectPart.None
                    (mkRect 0 0 0 0) (mkRect 0 0 0 0))
  else None.

(** [Ui::Text::String] as far as the group uses it. *)
Record Caption := mkCaption {
  isEmpty : bool;
  hasSkipBlock : bool;
  skipBlock : Z * Z;
  countHeightWith : Z * Z -> Z -> Z
}.

Definition updateSkipBlock (c : Caption) (w h : Z) : Caption :=
  mkCaption (isEmpty c) (hasSkipBlock c) (w, h) (countHeightWith c).

Definition countHeight (c : Caption) (width : Z) : Z :=
  countHeightWith c (skipBlock c) width.

(** The group with the state of its [Media] base class that the code
    reads: [maxWidth()], [width()], [height()], [isBubbleBottom()] and the
    parent element's skip block. *)
Record GroupedMedia := mkGroup {
  _mode : Mode;
  _parts : list Part;
  _caption : Caption;
  maxWidth : Z;
  width : Z;
  height : Z;
  isBubbleBottom : bool;
  parent_skipBlockWidth : Z;
  parent_skipBlockHeight : Z
}.

Definition set_parts (g : GroupedMedia) (parts : list Part) : GroupedMedia :=
  mkGroup (_mode g) parts (_caption g) (maxWidth g) (width g) (height g)
          (isBubbleBottom g) (parent_skipBlockWidth g)
          (parent_skipBlockHeight g).

Definition set_mode_parts (g : GroupedMedia) (mode : Mode)
  (parts : list Part) : GroupedMedia :=
  mkGroup mode parts (_caption g) (maxWidth g) (width g) (height g)
          (isBubbleBottom g) (parent_skipBlockWidth g)
          (parent_skipBlockHeight g).

Definition set_caption (g : GroupedMedia) (c : Caption) : GroupedMedia :=
  mkGroup (_mode g) (_parts g) c (maxWidth g) (width g) (height g)
          (isBubbleBottom g) (parent_skipBlockWidth g)
          (parent_skipBlockHeight g).

(** Modelled from the spec: [kMaxSize], declared in the header, is the
    member cap of 10. *)
Definition kMaxSize : nat := 10.

(** Style constants ([st::...]) the code reads. *)
Record Style := mkStyle {
  msgPadding_left : Z;
  msgPadding_right : Z;
  msgPadding_bottom : Z;
  mediaCaptionSkip : Z;
  historyGroupWidthMax : Z;
  historyGroupWidthMin : Z;
  historyGroupSkip : Z
}.

(** ** Mode detection and group construction *)

Definition DetectMode (media : Media) : Mode :=
  match document media with
  | Some doc => if negb (isVideoFile doc) then Column else Grid
  | None => Grid
  end.

(** The loop of [validateGroupParts], [i] being the running index. *)
Fixpoint validateGroupParts_from (parts : list Part) (i : nat)
  (medias : list Media) : bool :=
  match medias with
  | [] => Nat.eqb i (length parts)
  | media :: rest =>
      match nth_error parts i with
      | None => false
      | Some part =>
          if item part =? parent media
          then validateGroupParts_from parts (S i) rest
          else false
      end
  end.

Definition validateGroupParts (g : GroupedMedia) (medias : list Media)
  : bool :=
  validateGroupParts_from (_parts g) 0 medias.

(** The rebuild loop of [applyGroup]: the running [modeChosen], [_mode]
    and [_parts], and the content delegates constructed so far.  [None] is
    a failed assertion of [Part]'s constructor. *)
Fixpoint applyGroup_loop (medias : list Media) (modeChosen : bool)
  (mode : Mode) (parts : list Part) (created : list Content)
  : option (Mode * list Part * list Content) :=
  match medias with
  | [] => Some (mode, parts, created)
  | media :: rest =>
      let mediaMode := DetectMode media in
      if negb modeChosen || Mode_eqb mediaMode mode then
        match new_Part media with
        | None => None
        | Some part =>
            applyGroup_loop rest true mediaMode (parts ++ [part])
                            (created ++ [content part])
        end
      else applyGroup_loop rest modeChosen mode parts created
  end.

(** [applyGroup]: the returned [bool], the group afterwards and the
    content delegates this call constructed.  [None] is a failed
    [Assert] or [Ensures]. *)
Definition applyGroup (g : GroupedMedia) (medias : list Media)
  : option (bool * GroupedMedia * list Content) :=
  if validateGroupParts g medias then Some (true, g, [])
  else
    match applyGroup_loop medias false (_mode g) (_parts g) [] with
    | None => None
    | Some (mode, parts, created) =>
        let g' := set_mode_parts g mode parts in
        match parts with
        | [] => Some (false, g', created)
        | _ =>
            if (length parts <=? kMaxSize)%nat
            then Some (true, g', created)
            else None
        end
    end.

(** The two constructors, on the object [initial] as its member
    initialisers leave it: the candidates are cut to [kMaxSize],
    [applyGroup] runs and [Ensures(result)] is checked. *)
Definition construct (initial : GroupedMedia) (medias : list Media)
  : option GroupedMedia :=
  match applyGroup initial (firstn kMaxSize medias) with
  | Some (true, g, _) => Some g
  | _ => None
  end.

(** ** Sizing engine *)

Section Sizing.

(** The style table and the external grid packing
    [Ui::LayoutMediaGroup(sizes, maxWidth, minWidth, spacing)]. *)
Variable st : Style.
Variable LayoutMediaGroup :
  list QSize -> Z -> Z -> Z -> list Ui.GroupMediaLayout.

(** First loop of [countOptimalSize] (Column mode only):
    [accumulate_max(maxWidth, media->maxWidth())]. *)
Definition accumulate_maxWidth (parts : list Part) (maxWidth : Z) : Z :=
  fold_left (fun acc part => Z.max acc (content_maxWidth (content part)))
            parts maxWidth.

(** Second loop: the sizes the members ask for; [index] counts the
    members already visited. *)
Fixpoint optimal_sizes (maxWidth : Z) (partsCount index : nat)
  (parts : list Part) : list QSize :=
  match parts with
  | [] => []
  | part :: rest =>
      let index := S index in
      let last := Nat.eqb index partsCount in
      sizeForGroupingOptimal (content part) maxWidth last
      :: optimal_sizes maxWidth partsCount index rest
  end.

(** Third loop: store the layout into the parts and accumulate the
    maxima.  The two lists have the same length when it runs. *)
Fixpoint store_layout (layout : list Ui.GroupMediaLayout)
  (parts : list Part) (maxWidth minHeight : Z) : list Part * Z * Z :=
  match layout, parts with
  | layoutItem :: layout', part :: parts' =>
      let g := Ui.geometry layoutItem in
      let maxWidth := Z.max maxWidth (rx g + rwidth g) in
      let minHeight := Z.max minHeight (ry g + rheight g) in
      let part' := mkPart (item part) (content part) (Ui.sides layoutItem)
                          g (geometry part) in
      let '(stored, maxWidth, minHeight) :=
        store_layout layout' parts' maxWidth minHeight in
      (part' :: stored, maxWidth, minHeight)
  | _, _ => (parts, maxWidth, minHeight)
  end.

(** The caption block shared by both size computations. *)
Definition caption_extra (caption : Caption) (bubbleBottom : bool)
  (forWidth : Z) : Z :=
  if negb (isEmpty caption) then
    let captionw := forWidth - msgPadding_left st - msgPadding_right st in
    mediaCaptionSkip st + countHeight caption captionw
    + (if bubbleBottom then msgPadding_bottom st else 0)
  else 0.

(** [countOptimalSize]; [None] is a failed [Expects] or [Assert]. *)
Definition countOptimalSize (g : GroupedMedia)
  : option (QSize * GroupedMedia) :=
  let caption :=
    if hasSkipBlock (_caption g)
    then updateSkipBlock (_caption g) (parent_skipBlockWidth g)
                         (parent_skipBlockHeight g)
    else _caption g in
  let partsCount := length (_parts g) in
  let maxWidth :=
    match _mode g with
    | Column => accumulate_maxWidth (_parts g) 0
    | Grid => 0
    end in
  let sizes := optimal_sizes maxWidth partsCount 0 (_parts g) in
  let layout :=
    match _mode g with
    | Grid => Some (LayoutMediaGroup sizes (historyGroupWidthMax st)
                      (historyGroupWidthMin st) (historyGroupSkip st))
    | Column => LayoutPlaylist sizes
    end in
  match layout with
  | None => None
  | Some layout =>
      if Nat.eqb (length layout) (length (_parts g)) then
        let '(parts, maxWidth, minHeight) :=
          store_layout layout (_parts g) maxWidth 0 in
        let minHeight :=
          minHeight + caption_extra caption (isBubbleBottom g) maxWidth in
        Some (mkSize maxWidth minHeight,
              set_caption (set_parts g parts) caption)
      else None
  end.

(** Column branch of [countCurrentSize]: the loop with its locals
    [index] and [top]. *)
Fixpoint column_loop (newWidth : Z) (partsCount index : nat) (top : Z)
  (parts : list Part) : list Part * Z :=
  match parts with
  | [] => ([], top)
  | part :: rest =>
      let index := S index in
      let last := Nat.eqb index partsCount in
      let size := sizeForGrouping (content part) newWidth last in
      let part' := mkPart (item part) (content part) (sides part)
                          (initialGeometry part)
                          (mkRect 0 top newWidth (sz_height size)) in
      let '(rest', top') :=
        column_loop newWidth partsCount index (top + sz_height size) rest in
      (part' :: rest', top')
  end.

(** [factor = newWidth / float64(maxWidth())]. *)
Definition rescale_factor (newWidth maxWidth : Z) : Float64.float64 :=
  Float64.div (Float64.of_int newWidth) (Float64.of_int maxWidth).

(** The lambda [scale]: [int(std::round(value * factor))]. *)
Definition scale (factor : Float64.float64) (value : Z) : Z :=
  Float64.to_int
    (Float64.round (Float64.mul (Float64.of_int value) factor)).

(** Body of the grid loop for one part: the rescaled rectangle. *)
Definition rescale_geometry (factor : Float64.float64) (part : Part)
  : QRect :=
  let initialSpacing := historyGroupSkip st in
  let spacing := scale factor initialSpacing in
  let needRightSkip := negb (has_part (sides part) RectPart.Right) in
  let needBottomSkip := negb (has_part (sides part) RectPart.Bottom) in
  let initialLeft := rx (initialGeometry part) in
  let initialTop := ry (initialGeometry part) in
  let initialRight := initialLeft + rwidth (initialGeometry part)
                      + (if needRightSkip then initialSpacing else 0) in
  let initialBottom := initialTop + rheight (initialGeometry part)
                       + (if needBottomSkip then initialSpacing else 0) in
  let left := scale factor initialLeft in
  let top := scale factor initialTop in
  let width := scale factor initialRight - left
               - (if needRightSkip then spacing else 0) in
  let height := scale factor initialBottom - top
                - (if needBottomSkip then spacing else 0) in
  mkRect left top width height.

(** Grid branch of [countCurrentSize]: the loop with its accumulator
    [newHeight]. *)
Fixpoint grid_loop (factor : Float64.float64) (newHeight : Z)
  (parts : list Part) : list Part * Z :=
  match parts with
  | [] => ([], newHeight)
  | part :: rest =>
      let r := rescale_geometry factor part in
      let part' := mkPart (item part) (content part) (sides part)
                          (initialGeometry part) r in
      let '(rest', newHeight') :=
        grid_loop factor (Z.max newHeight (ry r + rheight r)) rest in
      (part' :: rest', newHeight')
  end.

(** [countCurrentSize(newWidth)]: the returned size and the group with
    the members' current geometry. *)
Definition countCurrentSize (g : GroupedMedia) (newWidth : Z)
  : QSize * GroupedMedia :=
  let newWidth := Z.min newWidth (maxWidth g) in
  match _mode g with
  | Grid =>
      if newWidth <? historyGroupWidthMin st then (mkSize newWidth 0, g)
      else
        let factor := rescale_factor newWidth (maxWidth g) in
        let '(parts, newHeight) := grid_loop factor 0 (_parts g) in
        (mkSize newWidth
                (newHeight
                 + caption_extra (_caption g) (isBubbleBottom g) newWidth),
         set_parts g parts)
  | Column =>
      let '(parts, top) :=
        column_loop newWidth (length (_parts g)) 0 0 (_parts g) in
      (mkSize newWidth
              (top + caption_extra (_caption g) (isBubbleBottom g) newWidth),
       set_parts g parts)
  end.

End Sizing.

(** ** Hit test *)

Inductive PointState := Outside | Inside | GroupPart.

Definition pointState (g : GroupedMedia) (point : QPoint) : PointState :=
  if negb (rect_contains (mkRect 0 0 (width g) (height g)) point)
  then Outside
  else if existsb (fun part => rect_contains (geometry part) point)
                  (_parts g)
  then GroupPart
  else Inside.

(** ** Selection interval merger *)

Record BubbleSelectionInterval := mkInterval { top : Z; ival_height : Z }.

(** One iteration of the loop of [getBubbleSelectionIntervals] for a
    selected part. *)
Definition add_selected (result : list BubbleSelectionInterval)
  (g : QRect) : list BubbleSelectionInterval :=
  match back result with
  | None => result ++ [mkInterval (rtop g) (rheight g)]
  | Some last =>
      if (top last + ival_height last <? rtop g)
         || (top last >? rtop g + rheight g)
      then result ++ [mkInterval (rtop g) (rheight g)]
      else
        let newTop := Z.min (top last) (rtop g) in
        let newHeight := Z.max (top last + ival_height last - newTop)
                               (rtop g + rheight g - newTop) in
        modify_back (fun _ => mkInterval newTop newHeight) result
  end.

(** The loop; [selected i] is [IsGroupItemSelection(selection, i)]. *)
Fixpoint intervals_loop (selected : Z -> bool) (i : Z) (parts : list Part)
  (result : list BubbleSelectionInterval) : list BubbleSelectionInterval :=
  match parts with
  | [] => result
  | part :: rest =>
      intervals_loop selected (i + 1) rest
        (if selected i then add_selected result (geometry part) else result)
  end.

(** [getBubbleSelectionIntervals]; [None] is [result.back()] on an empty
    vector.  [IsGroupItemSelection] is declared outside this file and
    enters as the predicate [selected]; what that function requires of
    its index is its own contract, so the model describes the calls
    whose indices it accepts: those of a group within its invariant of 1
    to [kMaxSize] members.  On a group without members the final test
    asks for index -1. *)
Definition getBubbleSelectionIntervals (g : GroupedMedia)
  (selected : Z -> bool) : option (list BubbleSelectionInterval) :=
  let result := intervals_loop selected 0 (_parts g) [] in
  if selected (Z.of_nat (length (_parts g)) - 1) then
    match result with
    | [] => None
    | _ =>
        Some (modify_back
                (fun last => mkInterval (top last) (height g - top last))
                result)
    end
  else Some result.

(** ** Quantities named in the statements *)

(** Tops strictly increase along a layout. *)
Definition strictly_increasing_tops (layout : list Ui.GroupMediaLayout)
  : Prop :=
  forall i j a b, (i < j)%nat ->
    nth_error layout i = Some a -> nth_error layout j = Some b ->
    ry (Ui.geometry a) < ry (Ui.geometry b).

(** The part [Part(parent, media)] builds when its assertion holds. *)
Definition built_Part (media : Media) : Part :=
  mkPart (parent media) (createView media) RectPart.None
         (mkRect 0 0 0 0) (mkRect 0 0 0 0).

(** The detected mode of a member: that of the media its content
    delegate was created for. *)
Definition part_mode (part : Part) : Mode :=
  DetectMode (content_media (content part)).

(** The candidates whose detected mode is [mode]. *)
Definition of_mode (mode : Mode) (medias : list Media) : list Media :=
  filter (fun media => Mode_eqb (DetectMode media) mode) medias.

(** The bounding rectangle [QRect(0, 0, width(), height())]. *)
Definition bounding_rect (g : GroupedMedia) : QRect :=
  mkRect 0 0 (width g) (height g).

(** The height member number [index] (from 0) of [partsCount] members
    reports at width [newWidth]. *)
Definition grouped_height (newWidth : Z) (partsCount index : nat)
  (part : Part) : Z :=
  sz_height (sizeForGrouping (content part) newWidth
                             (Nat.eqb (S index) partsCount)).

(** The heights the members from number [index] on report. *)
Fixpoint grouped_heights (newWidth : Z) (partsCount index : nat)
  (parts : list Part) : list Z :=
  match parts with
  | [] => []
  | part :: rest =>
      grouped_height newWidth partsCount index part
      :: grouped_heights newWidth partsCount (S index) rest
  end.

(** Sum of a list of integers. *)
Definition total (l : list Z) : Z := fold_right Z.add 0 l.

(** [x() + width()] and [y() + height()]. *)
Definition right_edge (r : QRect) : Z := rx r + rwidth r.
Definition bottom_edge (r : QRect) : Z := ry r + rheight r.

(** [accumulate_max] over a list, from the start value [floor]. *)
Definition max_of (l : list Z) (floor : Z) : Z := fold_left Z.max l floor.


(** The number 1.0. *)
Definition one : Float64.float64 := S754_finite false 4503599627370496 (-52).

(** The range of a C++ [int]. *)
Definition is_int (v : Z) : Prop := - 2 ^ 31 <= v < 2 ^ 31.

Section RescaleNames.

Variable st : Style.

(** [needRightSkip ? initialSpacing : 0] and its vertical twin. *)
Definition right_gap (part : Part) : Z :=
  if negb (has_part (sides part) RectPart.Right)
  then historyGroupSkip st else 0.
Definition bottom_gap (part : Part) : Z :=
  if negb (has_part (sides part) RectPart.Bottom)
  then historyGroupSkip st else 0.

(** The locals [initialRight] and [initialBottom]: the far edges with
    the gap behind them. *)
Definition initialRight (part : Part) : Z :=
  rx (initialGeometry part) + rwidth (initialGeometry part) + right_gap part.
Definition initialBottom (part : Part) : Z :=
  ry (initialGeometry part) + rheight (initialGeometry part)
  + bottom_gap part.

(** A part after one pass of the grid loop. *)
Definition rescaled (factor : Float64.float64) (part : Part) : Part :=
  mkPart (item part) (content part) (sides part) (initialGeometry part)
         (rescale_geometry st factor part).

(** The four initial edges of a part are [int]s. *)
Definition edges_are_int (part : Part) : Prop :=
  is_int (rx (initialGeometry part)) /\ is_int (ry (initialGeometry part)) /\
  is_int (initialRight part) /\ is_int (initialBottom part).

(** The four initial edges of a part are non-negative [int]s. *)
Definition edges_in_range (part : Part) : Prop :=
  0 <= rx (initialGeometry part) /\ 0 <= ry (initialGeometry part) /\
  0 <= initialRight part /\ 0 <= initialBottom part /\
  edges_are_int part.

End RescaleNames.

(** ** The interval merger in the words of its description *)

(** Lower end of an interval. *)
Definition bottom (i : BubbleSelectionInterval) : Z := top i + ival_height i.

(** The rectangle neither overlaps nor touches the interval: it lies
    wholly below it or wholly above it, with a gap. *)
Definition separated (last : BubbleSelectionInterval) (r : QRect) : bool :=
  (bottom last <? rtop r) || (bottom_edge r <? top last).

(** The interval from the smaller top to the larger bottom. *)
Definition span (last : BubbleSelectionInterval) (r : QRect)
  : BubbleSelectionInterval :=
  let newTop := Z.min (top last) (rtop r) in
  mkInterval newTop (Z.max (bottom last) (bottom_edge r) - newTop).

(** One selected rectangle: a new interval when there is none yet or
    the last one is separated from it, the last one extended otherwise. *)
Definition merge_selected (result : list BubbleSelectionInterval)
  (r : QRect) : list BubbleSelectionInterval :=
  match rev result with
  | [] => [mkInterval (rtop r) (rheight r)]
  | last :: front =>
      if separated last r
      then result ++ [mkInterval (rtop r) (rheight r)]
      else rev front ++ [span last r]
  end.

(** Rectangles of the selected members, in member order; [i] is the
    number of the first member of [parts]. *)
Fixpoint selected_rects (selected : Z -> bool) (i : Z) (parts : list Part)
  : list QRect :=
  match parts with
  | [] => []
  | part :: rest =>
      (if selected i then [geometry part] else [])
      ++ selected_rects selected (i + 1) rest
  end.

(** The selected rectangles merged one after the other, from no
    interval. *)
Definition merged_intervals (selected : Z -> bool) (parts : list Part)
  : list BubbleSelectionInterval :=
  fold_left merge_selected (selected_rects selected 0 parts) [].

(** The last interval made to end at [total]. *)
Definition stretch_last (total : Z) (result : list BubbleSelectionInterval)
  : list BubbleSelectionInterval :=
  match rev result with
  | [] => []
  | last :: front => rev front ++ [mkInterval (top last) (total - top last)]
  end.

(** ** Rational values of binary64 numbers, for the proofs *)

(** [2 ^ e] for any integer exponent. *)
Definition pow2 (e : Z) : Q := (2 ^ e)%Q.

(** The rational [m * 2 ^ e]. *)
Definition F2Q (m e : Z) : Q := (inject_Z m * pow2 e)%Q.

(** The rational value of a finite number (0 for the others). *)
Definition value (x : spec_float) : Q :=
  match x with
  | S754_finite s m e => F2Q (cond_Zopp s (Zpos m)) e
  | _ => 0%Q
  end.

(** What a [location] says of a real [x] lying in the unit [u] that
    starts at [lo]: at the start, in the lower half, at the middle or in
    the upper half. *)
Definition in_loc (l : location) (lo u x : Q) : Prop :=
  match l with
  | loc_Exact => (x == lo)%Q
  | loc_Inexact Lt => (lo < x /\ x < lo + (1#2) * u)%Q
  | loc_Inexact Eq => (x == lo + (1#2) * u)%Q
  | loc_Inexact Gt => (lo + (1#2) * u < x /\ x < lo + u)%Q
  end.

(** A shift record at exponent [e] describes the real [x]: its mantissa
    is the integer part of [x / 2 ^ e], its two bits locate the rest. *)
Definition represents (mrs : shr_record) (e : Z) (x : Q) : Prop :=
  in_loc (loc_of_shr_record mrs) (F2Q (shr_m mrs) e) (pow2 e) x.

(** Order of the locations inside a unit. *)
Definition loc_rank (l : location) : Z :=
  match l with
  | loc_Exact => 0
  | loc_Inexact Lt => 1
  | loc_Inexact Eq => 2
  | loc_Inexact Gt => 3
  end.

(** What the rounding step returns for a 53 digit mantissa [q] at
    exponent [e] with the rest located by [l]: the mantissa rounded to
    nearest even, renormalised when it reaches [2 ^ 53]. *)
Definition finish (q : Z) (l : location) (e : Z) : Z * Z :=
  let q' := round_nearest_even q l in
  if q' <? 2 ^ 53 then (q', e) else (2 ^ 52, e + 1).

(** A finite number of sign [s] with a 53 digit mantissa and an
    exponent between [lo] and [hi]. *)
Definition normal (s : bool) (lo hi : Z) (x : spec_float) : Prop :=
  match x with
  | S754_finite s' m e =>
      s' = s /\ digits2_pos m = 53%positive /\ lo <= e <= hi
  | _ => False
  end.

(** ** Sample data for the concrete evaluations *)

(** A style sheet: side padding 13, bottom padding 8, caption gap 5,
    grid widths between 100 and 430, grid gap 4. *)
Definition sample_style : Style :=
  mkStyle 13 13 8 5 430 100 4.

(** A photo of the given natural size: no document; it keeps its aspect
    ratio when asked for a grouped size. *)
Definition sample_photo (id : Item) (w h : Z) : Media :=
  mkMedia id None true w
          (fun _ _ => mkSize w h)
          (fun width _ => mkSize width (h * width / w)).

(** A file (a document that is not a video) shown as a row of height
    [h]. *)
Definition sample_file (id : Item) (w h : Z) : Media :=
  mkMedia id (Some (mkDocument false)) true w
          (fun maxWidth _ => mkSize maxWidth h)
          (fun width _ => mkSize width h).


(** The empty caption. *)
Definition no_caption : Caption :=
  mkCaption true false (0, 0) (fun _ _ => 0).

(** A caption of two lines of height 20 below width 200, one line from
    there on. *)
Definition sample_caption : Caption :=
  mkCaption false false (0, 0)
            (fun _ width => if width <? 200 then 40 else 20).

(** A stand-in for the grid packing where only Column groups are
    evaluated. *)
Definition no_packing (sizes : list QSize) (maxWidth minWidth spacing : Z)
  : list Ui.GroupMediaLayout := [].

(** A group as the constructors find it before [applyGroup]: no member,
    no caption. *)
Definition fresh_group : GroupedMedia :=
  mkGroup Grid [] no_caption 0 0 0 true 0 0.

(** A Column group of two files. *)
Definition file_group : GroupedMedia :=
  mkGroup Column
          [built_Part (sample_file 1 300 40); built_Part (sample_file 2 280 56)]
          no_caption 300 300 96 true 0 0.

(** A Column group of two files with a caption, not yet measured. *)
Definition captioned_group : GroupedMedia :=
  mkGroup Column
          [built_Part (sample_file 1 300 40); built_Part (sample_file 2 280 56)]
          sample_caption 0 0 0 true 0 0.


(** A group of one file of height 40, laid out at width 300 and height
    96 (the caption takes the rest). *)
Definition hit_group : GroupedMedia :=
  mkGroup Column
          [mkPart 1 (createView (sample_file 1 300 40))
                  (Z.lor (Z.lor RectPart.Left RectPart.Right)
                         (Z.lor RectPart.Top RectPart.Bottom))
                  (mkRect 0 0 300 40) (mkRect 0 0 300 40)]
          sample_caption 300 300 96 true 0 0.

(** Four members stacked without gaps, each of height 10, in a group of
    height 60 (the caption takes the rest). *)
Definition stacked_group : GroupedMedia :=
  mkGroup Column
          [mkPart 1 (createView (sample_file 1 300 10))
                  (Z.lor (Z.lor RectPart.Left RectPart.Right) RectPart.Top)
                  (mkRect 0 0 300 10) (mkRect 0 0 300 10);
           mkPart 2 (createView (sample_file 2 300 10))
                  (Z.lor RectPart.Left RectPart.Right)
                  (mkRect 0 10 300 10) (mkRect 0 10 300 10);
           mkPart 3 (createView (sample_file 3 300 10))
                  (Z.lor RectPart.Left RectPart.Right)
                  (mkRect 0 20 300 10) (mkRect 0 20 300 10);
           mkPart 4 (createView (sample_file 4 300 10))
                  (Z.lor (Z.lor RectPart.Left RectPart.Right) RectPart.Bottom)
                  (mkRect 0 30 300 10) (mkRect 0 30 300 10)]
          sample_caption 300 300 60 true 0 0.

(** Members 0, 2 and 3 selected. *)
Definition sample_selection (i : Z) : bool :=
  (i =? 0) || (i =? 2) || (i =? 3).

(** An album of two photos side by side, as packed at the natural width
    430 with a gap of 4: the left one touches the left, top and bottom
    edges, the right one the right, top and bottom edges. *)
Definition album_group : GroupedMedia :=
  mkGroup Grid
          [mkPart 1 (createView (sample_photo 1 800 600))
                  (Z.lor RectPart.Left (Z.lor RectPart.Top RectPart.Bottom))
                  (mkRect 0 0 213 160) (mkRect 0 0 213 160);
           mkPart 2 (createView (sample_photo 2 800 600))
                  (Z.lor RectPart.Right (Z.lor RectPart.Top RectPart.Bottom))
                  (mkRect 217 0 213 160) (mkRect 217 0 213 160)]
          sample_caption 430 430 193 true 0 0.

(** A grid group narrower than the grid minimum of [sample_style], not
    yet laid out at a current width. *)
Definition narrow_grid_group : GroupedMedia :=
  mkGroup Grid
          [mkPart 1 (createView (sample_photo 1 60 45))
                  (Z.lor (Z.lor RectPart.Left RectPart.Right)
                         (Z.lor RectPart.Top RectPart.Bottom))
                  (mkRect 0 0 60 45) (mkRect 0 0 0 0)]
          no_caption 60 0 0 true 0 0.

(** ** The main member: [main] *)

(** [main()]: the content delegate of the last part; [None] is the
    failed [Expects(!_parts.empty())]. *)
Definition main (g : GroupedMedia) : option Content :=
  match _parts g with
  | [] => None
  | _ => option_map content (back (_parts g))
  end.

Section MainAnswers.

(** What a content delegate answers to [getCaption()],
    [sharedMediaTypes()], [getPhoto()] and [getDocument()] (the last two
    may be null). *)
Variable TextWithEntities : Type.
Variable SharedMediaTypesMask : Type.
Variable PhotoData : Type.
Variable content_getCaption : Content -> TextWithEntities.
Variable content_sharedMediaTypes : Content -> SharedMediaTypesMask.
Variable content_getPhoto : Content -> option PhotoData.
Variable content_getDocument : Content -> option DocumentData.

(** [return main()->getCaption();] and its three siblings; [None] is the
    failed [Expects] of [main()]. *)
Definition getCaption (g : GroupedMedia) : option TextWithEntities :=
  option_map content_getCaption (main g).
Definition sharedMediaTypes (g : GroupedMedia)
  : option SharedMediaTypesMask :=
  option_map content_sharedMediaTypes (main g).
Definition getPhoto (g : GroupedMedia) : option (option PhotoData) :=
  option_map content_getPhoto (main g).
Definition getDocument (g : GroupedMedia) : option (option DocumentData) :=
  option_map content_getDocument (main g).

End MainAnswers.

(** The candidates a rebuild accepts: those of the detected mode of the
    first one. *)
Definition accepted_medias (medias : list Media) : list Media :=
  match medias with
  | [] => []
  | first :: _ => of_mode (DetectMode first) medias
  end.

(** ** Caption owner and bubble: [updateNeedBubbleState] *)

(** What [computeNeedBubble] asks the parent element and its item. *)
Record ParentFlags := mkParentFlags {
  repliesAreComments : bool;
  externalReply : bool;
  viaBot : bool;
  displayedReply : bool;
  displayForwardedFrom : bool;
  displayFromName : bool
}.

Definition computeNeedBubble (g : GroupedMedia) (p : ParentFlags) : bool :=
  if negb (isEmpty (_caption g)) || Mode_eqb (_mode g) Column then true
  else if repliesAreComments p || externalReply p || viaBot p
          || displayedReply p || displayForwardedFrom p || displayFromName p
  then true
  else false.

Section NeedBubble.

(** [item->emptyText()] and [createCaption(item)]. *)
Variable emptyText : Item -> bool.
Variable createCaption : Item -> Caption.

(** The loop of the lambda in Grid mode, [result] being its local
    pointer. *)
Fixpoint captionItem_loop (parts : list Part) (result : option Item)
  : option Item :=
  match parts with
  | [] => result
  | part :: rest =>
      if negb (emptyText (item part)) then
        match result with
        | Some _ => None
        | None => captionItem_loop rest (Some (item part))
        end
      else captionItem_loop rest result
  end.

(** The lambda [captionItem]: the inner [None] is [nullptr], the outer
    one [_parts.back()] on an empty vector. *)
Definition captionItem (g : GroupedMedia) : option (option Item) :=
  match _mode g with
  | Column =>
      match back (_parts g) with
      | None => None
      | Some last =>
          Some (if emptyText (item last) then None else Some (item last))
      end
  | Grid => Some (captionItem_loop (_parts g) None)
  end.

(** [updateNeedBubbleState]: the group afterwards and the new
    [_needBubble]. *)
Definition updateNeedBubbleState (g : GroupedMedia) (p : ParentFlags)
  : option (GroupedMedia * bool) :=
  match captionItem g with
  | None => None
  | Some found =>
      let g' :=
        match found with
        | Some captionItem => set_caption g (createCaption captionItem)
        | None => g
        end in
      Some (g', computeNeedBubble g' p)
  end.

End NeedBubble.

(** The members whose item has text. *)
Definition with_text (emptyText : Item -> bool) (parts : list Part)
  : list Part :=
  filter (fun part => negb (emptyText (item part))) parts.

(** ** Corner rounding: [cornersFromSides] *)

(** [isBubbleTop()] and [isRoundedInBubbleBottom()] of the base class. *)
Record BubbleState := mkBubble {
  isBubbleTop : bool;
  isRoundedInBubbleBottom : bool
}.

Section Corners.

(** lib_ui's [Ui::GetCornersFromSides]. *)
Variable GetCornersFromSides : RectParts -> RectParts.

Definition cornersFromSides (g : GroupedMedia) (b : BubbleState)
  (sides : RectParts) : RectParts :=
  let result := GetCornersFromSides sides in
  let result :=
    if negb (isBubbleTop b)
    then Z.land result
                (Z.lnot (Z.lor RectPart.TopLeft RectPart.TopRight))
    else result in
  let result :=
    if negb (isRoundedInBubbleBottom b) || negb (isEmpty (_caption g))
    then Z.land result
                (Z.lnot (Z.lor RectPart.BottomLeft RectPart.BottomRight))
    else result in
  result.

End Corners.

(** Every flag of [a] is a flag of [b]. *)
Definition subset_parts (a b : RectParts) : Prop := Z.land a b = a.

(** ** Hit test of the members: [getPartState] and [textState] *)

Inductive CursorState := CursorNone | CursorText | CursorDate | CursorForwarded.

(** [TextState] as far as the group reads and writes it; a click handler
    is known by a number. *)
Record TextState := mkTextState {
  itemId : Item;
  cursor : CursorState;
  link : option Z
}.

(** [TextState(item)]: the state that only names its item. *)
Definition TextState_of (item : Item) : TextState :=
  mkTextState item CursorNone None.

Definition set_itemId (s : TextState) (id : Item) : TextState :=
  mkTextState id (cursor s) (link s).
Definition set_cursor (s : TextState) (c : CursorState) : TextState :=
  mkTextState (itemId s) c (link s).
Definition set_link (s : TextState) (l : option Z) : TextState :=
  mkTextState (itemId s) (cursor s) l.

Section PartState.

(** The request and what a content delegate answers to
    [getStateGrouped(geometry, sides, point, request, last)]. *)
Variable StateRequest : Type.
Variable getStateGrouped :
  Content -> QRect -> RectParts -> QPoint -> StateRequest -> bool -> TextState.

(** The loop of [getPartState] with its counter [index]; [None] when it
    runs to the end. *)
Fixpoint getPartState_loop (partsCount index : nat) (parts : list Part)
  (point : QPoint) (request : StateRequest) : option TextState :=
  match parts with
  | [] => None
  | part :: rest =>
      let index := S index in
      if rect_contains (geometry part) point then
        let last := Nat.eqb index partsCount in
        let result := getStateGrouped (content part) (geometry part)
                        (sides part) point request last in
        Some (set_itemId result (item part))
      else getPartState_loop partsCount index rest point request
  end.

(** [getPartState]; [parentItem] is [_parent->data()]. *)
Definition getPartState (g : GroupedMedia) (parentItem : Item)
  (point : QPoint) (request : StateRequest) : TextState :=
  match getPartState_loop (length (_parts g)) 0 (_parts g) point request with
  | Some result => result
  | None => TextState_of parentItem
  end.

End PartState.

(** ** Where the caption sits: [draw] and [textState] *)

Section CaptionPlace.

Variable st : Style.

(** The locals [captionw] and [captiony] of [draw] and [textState]. *)
Definition captionw (g : GroupedMedia) : Z :=
  width g - msgPadding_left st - msgPadding_right st.
Definition captiony (g : GroupedMedia) : Z :=
  height g
  - (if isBubbleBottom g then msgPadding_bottom st else 0)
  - countHeight (_caption g) (captionw g).

(** The rectangle [textState] tests the point against for the caption. *)
Definition caption_rect (g : GroupedMedia) : QRect :=
  mkRect (msgPadding_left st) (captiony g) (captionw g)
         (height g - captiony g).

End CaptionPlace.

(** What [textState] asks the parent element: whether the group is its
    media, [pointInTime], [hasBubble], [rightActionSize] and
    [rightActionLink]. *)
Record ParentElement := mkParentElement {
  media_is_this : bool;
  pointInTime : Z -> Z -> QPoint -> bool;
  hasBubble : bool;
  rightActionSize : option QSize;
  rightActionLink : option Z
}.

Section TextStateModel.

Variable st : Style.

(** [st::historyFastShareLeft] and [st::historyFastShareBottom]. *)
Variable historyFastShareLeft : Z.
Variable historyFastShareBottom : Z.

Variable StateRequest : Type.
Variable getStateGrouped :
  Content -> QRect -> RectParts -> QPoint -> StateRequest -> bool -> TextState.

(** [_caption.getState(point, width, request.forText())], as the state
    [TextState(item, ...)] makes of it before it names the item. *)
Variable caption_getState :
  Caption -> QPoint -> Z -> StateRequest -> TextState.

Definition textState (g : GroupedMedia) (parent : ParentElement)
  (parentItem : Item) (point : QPoint) (request : StateRequest)
  : TextState :=
  let result :=
    getPartState StateRequest getStateGrouped g parentItem point request in
  if match link result with None => true | Some _ => false end
     && negb (isEmpty (_caption g))
  then
    if rect_contains (caption_rect st g) point then
      set_itemId
        (caption_getState (_caption g)
           (mkPoint (px point - msgPadding_left st)
                    (py point - captiony st g))
           (captionw st g) request)
        parentItem
    else result
  else if media_is_this parent then
    let fullRight := width g in
    let fullBottom := height g in
    let result :=
      if pointInTime parent fullRight fullBottom point
      then set_cursor result CursorDate
      else result in
    match (if hasBubble parent then None else rightActionSize parent) with
    | Some size =>
        let fastShareLeft := fullRight + historyFastShareLeft in
        let fastShareTop :=
          fullBottom - historyFastShareBottom - sz_height size in
        if rect_contains
             (mkRect fastShareLeft fastShareTop (sz_width size)
                     (sz_height size)) point
        then set_link result (rightActionLink parent)
        else result
    | None => result
    end
  else result.

End TextStateModel.

(** The group after the base class has stored a measured size in
    [width()] and [height()]. *)
Definition with_size (g : GroupedMedia) (size : QSize) : GroupedMedia :=
  mkGroup (_mode g) (_parts g) (_caption g) (maxWidth g) (sz_width size)
          (sz_height size) (isBubbleBottom g) (parent_skipBlockWidth g)
          (parent_skipBlockHeight g).

(** ** Quantities named in the further statements *)

(** A part without its current geometry: what a resize reads. *)
Definition resize_input (part : Part) : Item * Content * RectParts * QRect :=
  (item part, content part, sides part, initialGeometry part).

(** Intervals listed from top to bottom with a gap between neighbours. *)
Fixpoint gapped (l : list BubbleSelectionInterval) : Prop :=
  match l with
  | [] => True
  | a :: rest =>
      match rest with
      | [] => True
      | b :: _ => bottom a < top b
      end /\ gapped rest
  end.

(** The first interval lies inside the second. *)
Definition inside (a b : BubbleSelectionInterval) : Prop :=
  top b <= top a /\ bottom a <= bottom b.

(** The interval spans the rectangle vertically. *)
Definition covers (i : BubbleSelectionInterval) (r : QRect) : Prop :=
  top i <= rtop r /\ bottom_edge r <= bottom i.

(** Tops never decrease along the rectangles. *)
Fixpoint tops_ascend (floor : Z) (rects : list QRect) : Prop :=
  match rects with
  | [] => True
  | r :: rest => floor <= rtop r /\ 0 <= rheight r /\ tops_ascend (rtop r) rest
  end.

(** Rectangles stacked without gaps from [top] on, each of non-negative
    height. *)
Fixpoint stacked_from (top : Z) (rects : list QRect) : Prop :=
  match rects with
  | [] => True
  | r :: rest =>
      rtop r = top /\ 0 <= rheight r /\ stacked_from (top + rheight r) rest
  end.

(** ** Further sample data *)

(** Item 2 has text, the others have none. *)
Definition text_on_2 (id : Item) : bool := negb (id =? 2).

(** A caption made for an item: one line of height 20. *)
Definition sample_createCaption (id : Item) : Caption :=
  mkCaption false false (0, 0) (fun _ _ => 20).

(** A parent element that asks for no bubble. *)
Definition plain_parent : ParentFlags :=
  mkParentFlags false false false false false false.

(** A packing that reports the corners of the sides it is given. *)
Definition sample_corners (sides : RectParts) : RectParts :=
  Z.lor (if has_part sides RectPart.Left && has_part sides RectPart.Top
         then RectPart.TopLeft else 0)
        (if has_part sides RectPart.Right && has_part sides RectPart.Bottom
         then RectPart.BottomRight else 0).

(** A parent element whose media is the group and that shows the time
    in the lowest 16 pixels. *)
Definition sample_parent : ParentElement :=
  mkParentElement true (fun right bottom point => bottom - 16 <=? py point)
                  true None None.

(** A caption state: the text cursor, no link. *)
Definition sample_caption_state (c : Caption) (point : QPoint) (width : Z)
  (request : unit) : TextState :=
  mkTextState 0 CursorText None.

(** A delegate state: the text cursor, no link. *)
Definition sample_state (c : Content) (geometry : QRect) (sides : RectParts)
  (point : QPoint) (request : unit) (last : bool) : TextState :=
  mkTextState 0 CursorText None.

(** * Properties *)

(** ** Vector helpers *)

Lemma modify_front_length {A} (f : A -> A) (v : list A) :
  length (modify_front f v) = length v.
Proof. destruct v; reflexivity. Qed.

Lemma modify_back_length {A} (f : A -> A) (v : list A) :
  length (modify_back f v) = length v.
Proof.
  induction v as [|x [|y rest] IH]; try reflexivity.
  change (S (length (modify_back f (y :: rest))) = S (length (y :: rest))).
  now rewrite IH.
Qed.

Lemma modify_front_nth {A} (f : A -> A) (v : list A) (i : nat) :
  nth_error (modify_front f v) i =
  if Nat.eqb i 0 then option_map f (nth_error v i) else nth_error v i.
Proof. destruct v, i; reflexivity. Qed.

Lemma modify_back_nth {A} (f : A -> A) (v : list A) (i : nat) :
  nth_error (modify_back f v) i =
  if Nat.eqb (S i) (length v) then option_map f (nth_error v i)
  else nth_error v i.
Proof.
  revert i; induction v as [|x [|y rest] IH]; intros i.
  - destruct i; reflexivity.
  - destruct i as [|[|i]]; reflexivity.
  - destruct i as [|i].
    + reflexivity.
    + change (nth_error (modify_back f (y :: rest)) i =
              if Nat.eqb (S i) (length (y :: rest))
              then option_map f (nth_error (y :: rest) i)
              else nth_error (y :: rest) i).
      apply IH.
Qed.

Lemma modify_back_app {A} (f : A -> A) (v : list A) (x : A) :
  modify_back f (v ++ [x]) = v ++ [f x].
Proof.
  induction v as [|y v IH]; [reflexivity|].
  simpl. rewrite IH. destruct (v ++ [x]) eqn:E; [|reflexivity].
  destruct v; discriminate.
Qed.

Lemma back_None {A} (v : list A) : back v = None -> v = [].
Proof.
  induction v as [|x [|y rest] IH]; intros H; try reflexivity; try discriminate.
  specialize (IH H). discriminate.
Qed.

Lemma back_Some {A} (v : list A) (x : A) :
  back v = Some x -> exists front, v = front ++ [x].
Proof.
  induction v as [|y [|z rest] IH]; intros H; try discriminate.
  - injection H as ->. now exists [].
  - destruct (IH H) as [front E]. exists (y :: front). now rewrite E.
Qed.

(** ** Column layout *)

Lemma max_element_width_ge_acc (rest : list QSize) (acc : Z) :
  acc <= fold_left (fun a size => Z.max a (sz_width size)) rest acc.
Proof.
  revert acc; induction rest as [|s rest IH]; intros acc; simpl; [lia|].
  specialize (IH (Z.max acc (sz_width s))). lia.
Qed.

Lemma max_element_width_upper (rest : list QSize) (acc : Z) (s : QSize) :
  In s rest ->
  sz_width s <= fold_left (fun a size => Z.max a (sz_width size)) rest acc.
Proof.
  revert acc; induction rest as [|t rest IH]; intros acc; simpl; [tauto|].
  intros [->|H].
  - pose proof (max_element_width_ge_acc rest (Z.max acc (sz_width s))). lia.
  - now apply IH.
Qed.

Lemma max_element_width_attained (rest : list QSize) (acc : Z) :
  let w := fold_left (fun a size => Z.max a (sz_width size)) rest acc in
  w = acc \/ exists s, In s rest /\ sz_width s = w.
Proof.
  revert acc; induction rest as [|t rest IH]; intros acc; simpl; [now left|].
  destruct (IH (Z.max acc (sz_width t))) as [E|[s [Hin E]]].
  - destruct (Z.max_spec acc (sz_width t)) as [[_ M]|[_ M]].
    + right. exists t. split; [now left|]. simpl in E. lia.
    + left. simpl in E. lia.
  - right. exists s. split; [now right|exact E].
Qed.

(** [widths_max] is the largest input width. *)
Lemma widths_max_spec (sizes : list QSize) :
  sizes <> [] ->
  (forall s, In s sizes -> sz_width s <= widths_max sizes) /\
  (exists s, In s sizes /\ sz_width s = widths_max sizes).
Proof.
  destruct sizes as [|first rest]; [congruence|]. intros _. split.
  - intros s [<-|H]; unfold widths_max, max_element_width.
    + apply max_element_width_ge_acc.
    + now apply max_element_width_upper.
  - unfold widths_max, max_element_width.
    destruct (max_element_width_attained rest (sz_width first))
      as [E|[s [H E]]].
    + exists first. split; [now left|]. now rewrite E.
    + exists s. split; [now right|exact E].
Qed.

Lemma playlist_loop_length (width top : Z) (sizes : list QSize) :
  length (playlist_loop width top sizes) = length sizes.
Proof.
  revert top; induction sizes as [|s sizes IH]; intros top; simpl;
    [reflexivity|now rewrite IH].
Qed.

Lemma playlist_loop_nth (width : Z) (sizes : list QSize) :
  forall (top : Z) (i : nat) (size : QSize),
    nth_error sizes i = Some size ->
    nth_error (playlist_loop width top sizes) i =
    Some (Ui.mkLayout
            (mkRect 0 (top + heights_before i sizes) width (sz_height size))
            (Z.lor RectPart.Left RectPart.Right)).
Proof.
  induction sizes as [|s sizes IH]; intros top i size H.
  - destruct i; discriminate.
  - destruct i as [|i]; simpl in *.
    + injection H as ->. unfold heights_before. simpl.
      now rewrite Z.add_0_r.
    + rewrite (IH _ _ _ H). unfold heights_before. simpl.
      do 3 f_equal. unfold heights_before. lia.
Qed.

Lemma heights_before_S (sizes : list QSize) (i : nat) (size : QSize) :
  nth_error sizes i = Some size ->
  heights_before (S i) sizes = heights_before i sizes + sz_height size.
Proof.
  revert i; induction sizes as [|s sizes IH]; intros i H.
  - destruct i; discriminate.
  - destruct i as [|i]; unfold heights_before in *; simpl in *.
    + injection H as ->. lia.
    + rewrite (IH _ H). lia.
Qed.

(** With positive heights before it, a later top is strictly larger. *)
Lemma heights_before_increasing (sizes : list QSize) :
  (forall s, In s sizes -> 0 < sz_height s) ->
  forall i j, (i < j)%nat -> (j < length sizes)%nat ->
    heights_before i sizes < heights_before j sizes.
Proof.
  intros Hpos i j Hij Hj. induction j as [|j IH]; [lia|].
  assert (Hj' : (j < length sizes)%nat) by lia.
  destruct (nth_error sizes j) as [size|] eqn:E.
  2:{ apply nth_error_None in E. lia. }
  rewrite (heights_before_S _ _ _ E).
  pose proof (Hpos size (nth_error_In _ _ E)).
  destruct (Nat.eq_dec i j) as [->|Hne]; [lia|].
  assert (heights_before i sizes < heights_before j sizes) by (apply IH; lia).
  lia.
Qed.

(** On a non-empty list the layout is defined and has one entry per
    size. *)
Lemma LayoutPlaylist_defined (sizes : list QSize) :
  sizes <> [] ->
  exists result,
    LayoutPlaylist sizes = Some result /\ length result = length sizes.
Proof.
  destruct sizes as [|first rest]; [congruence|]. intros _.
  eexists. split; [reflexivity|].
  now rewrite modify_back_length, modify_front_length, playlist_loop_length.
Qed.

Lemma LayoutPlaylist_nth (sizes : list QSize) (i : nat) (size : QSize) :
  nth_error sizes i = Some size ->
  exists result, LayoutPlaylist sizes = Some result /\
    nth_error result i =
    Some (Ui.mkLayout
            (mkRect 0 (heights_before i sizes) (widths_max sizes)
                    (sz_height size))
            (Z.lor (Z.lor (Z.lor RectPart.Left RectPart.Right)
                          (if Nat.eqb i 0 then RectPart.Top else 0))
                   (if Nat.eqb (S i) (length sizes)
                    then RectPart.Bottom else 0))).
Proof.
  intros H. destruct sizes as [|first rest]; [destruct i; discriminate|].
  eexists. split; [reflexivity|].
  rewrite modify_back_nth, modify_front_length, modify_front_nth.
  rewrite playlist_loop_length.
  rewrite (playlist_loop_nth _ _ 0 i size H).
  change (widths_max (first :: rest)) with (max_element_width first rest).
  destruct (Nat.eqb i 0), (Nat.eqb (S i) (length (first :: rest)));
    reflexivity.
Qed.

(** C3 (as amended): for a non-empty list of sizes [LayoutPlaylist]
    returns one rectangle per size; each has x = 0, the maximal input width,
    its own height and a top equal to the sum of the preceding heights;
    each has [Left] and [Right], exactly the first has [Top] and exactly
    the last has [Bottom]; the tops are strictly increasing when every
    height is positive. *)
Theorem LayoutPlaylist_column_layout (sizes : list QSize) :
  sizes <> [] ->
  exists result,
    LayoutPlaylist sizes = Some result /\
    length result = length sizes /\
    (forall s, In s sizes -> sz_width s <= widths_max sizes) /\
    (exists s, In s sizes /\ sz_width s = widths_max sizes) /\
    (forall i size, nth_error sizes i = Some size ->
       exists item, nth_error result i = Some item /\
         Ui.geometry item =
           mkRect 0 (heights_before i sizes) (widths_max sizes)
                  (sz_height size) /\
         has_part (Ui.sides item) RectPart.Left = true /\
         has_part (Ui.sides item) RectPart.Right = true /\
         has_part (Ui.sides item) RectPart.Top = Nat.eqb i 0 /\
         has_part (Ui.sides item) RectPart.Bottom =
           Nat.eqb (S i) (length sizes)) /\
    ((forall s, In s sizes -> 0 < sz_height s) ->
     strictly_increasing_tops result).
Proof.
  intros Hne.
  destruct (LayoutPlaylist_defined sizes Hne) as [result [Hres Hlen]].
  exists result.
  assert (Hnth : forall i size, nth_error sizes i = Some size ->
            nth_error result i =
            Some (Ui.mkLayout
              (mkRect 0 (heights_before i sizes) (widths_max sizes)
                      (sz_height size))
              (Z.lor (Z.lor (Z.lor RectPart.Left RectPart.Right)
                            (if Nat.eqb i 0 then RectPart.Top else 0))
                     (if Nat.eqb (S i) (length sizes)
                      then RectPart.Bottom else 0)))).
  { intros i size H. destruct (LayoutPlaylist_nth sizes i size H)
      as [r [Hr Hi]]. congruence. }
  split; [exact Hres|]. split; [exact Hlen|].
  destruct (widths_max_spec sizes Hne) as [Hup Hatt].
  split; [exact Hup|]. split; [exact Hatt|]. split.
  - intros i size H. eexists. split; [apply (Hnth i size H)|].
    cbv beta iota delta [Ui.geometry Ui.sides]. split; [reflexivity|].
    destruct (Nat.eqb i 0), (Nat.eqb (S i) (length sizes));
      repeat split; vm_compute; reflexivity.
  - intros Hpos i j a b Hij Ha Hb.
    assert (Hj : (j < length sizes)%nat).
    { rewrite <- Hlen. apply nth_error_Some. congruence. }
    destruct (nth_error sizes i) as [si|] eqn:Ei.
    2:{ apply nth_error_None in Ei. lia. }
    destruct (nth_error sizes j) as [sj|] eqn:Ej.
    2:{ apply nth_error_None in Ej. lia. }
    rewrite (Hnth _ _ Ei) in Ha. rewrite (Hnth _ _ Ej) in Hb.
    injection Ha as <-. injection Hb as <-. simpl.
    now apply heights_before_increasing.
Qed.

Lemma LayoutPlaylist_column_layout_witness :
  exists result,
    LayoutPlaylist [mkSize 300 40; mkSize 280 56] = Some result /\
    length result = 2%nat /\
    strictly_increasing_tops result.
Proof.
  destruct (LayoutPlaylist_column_layout [mkSize 300 40; mkSize 280 56])
    as [result [H [Hl [_ [_ [_ Hs]]]]]]; [discriminate|].
  exists result. split; [exact H|]. split; [exact Hl|].
  apply Hs. intros s [<-|[<-|[]]]; simpl; lia.
Defined.

(** C3 (as stated) fails on a size of height 0: the two tops are equal,
    so they do not strictly increase. *)
Lemma LayoutPlaylist_tops_not_strict :
  exists result,
    LayoutPlaylist [mkSize 10 0; mkSize 10 5] = Some result /\
    ~ strictly_increasing_tops result.
Proof.
  eexists. split; [reflexivity|].
  intros H. specialize (H 0%nat 1%nat _ _ (Nat.lt_0_1) eq_refl eq_refl).
  simpl in H. lia.
Qed.

(** ** Group construction *)

Lemma Mode_eqb_eq (a b : Mode) : Mode_eqb a b = true <-> a = b.
Proof. destruct a, b; simpl; split; congruence. Qed.

Lemma Mode_eqb_refl (a : Mode) : Mode_eqb a a = true.
Proof. now destruct a. Qed.

Lemma skipn_cons_nth {A} (l : list A) :
  forall (i : nat) (x : A) (tl : list A),
    skipn i l = x :: tl -> nth_error l i = Some x /\ skipn (S i) l = tl.
Proof.
  induction l as [|y l IH]; intros i x tl H.
  - destruct i; discriminate.
  - destruct i as [|i].
    + simpl in H. injection H as -> ->. now split.
    + simpl in H. apply IH in H. exact H.
Qed.

Lemma nth_skipn_cons {A} (l : list A) :
  forall (i : nat) (x : A),
    nth_error l i = Some x -> skipn i l = x :: skipn (S i) l.
Proof.
  induction l as [|y l IH]; intros i x H.
  - destruct i; discriminate.
  - destruct i as [|i].
    + simpl in H. injection H as ->. reflexivity.
    + simpl in H. apply IH in H. exact H.
Qed.

(** The validation loop succeeds exactly when the candidates' owning
    records are those of the members from index [i] on, in order. *)
Lemma validateGroupParts_from_spec (parts : list Part) (medias : list Media) :
  forall i, (i <= length parts)%nat ->
    validateGroupParts_from parts i medias = true <->
    map parent medias = map item (skipn i parts).
Proof.
  induction medias as [|media rest IH]; intros i Hi; simpl.
  - rewrite Nat.eqb_eq. split.
    + intros ->. now rewrite skipn_all.
    + intros H. symmetry in H. apply map_eq_nil in H.
      apply (f_equal (@length _)) in H. rewrite length_skipn in H.
      simpl in H. lia.
  - destruct (nth_error parts i) as [part|] eqn:E.
    + rewrite (nth_skipn_cons _ _ _ E). simpl.
      assert (Hlt : (i < length parts)%nat)
        by (apply nth_error_Some; congruence).
      destruct (Z.eqb_spec (item part) (parent media)) as [Heq|Hne].
      * rewrite (IH (S i)) by lia. rewrite Heq.
        split; [intros ->; reflexivity|intros H; now injection H].
      * split; [discriminate|]. intros H. congruence.
    + split; [discriminate|]. apply nth_error_None in E.
      rewrite skipn_all2 by lia. discriminate.
Qed.

Lemma validateGroupParts_spec (g : GroupedMedia) (medias : list Media) :
  validateGroupParts g medias = true <->
  map parent medias = map item (_parts g).
Proof.
  unfold validateGroupParts.
  now rewrite validateGroupParts_from_spec by lia.
Qed.

(** C4: when the candidates have the members' owning records, in the
    same order and number, [applyGroup] returns [true], the group (its
    member list included) is unchanged, and no content delegate is
    constructed. *)
Theorem applyGroup_reuse (g : GroupedMedia) (medias : list Media) :
  length medias = length (_parts g) ->
  (forall i media part,
     nth_error medias i = Some media -> nth_error (_parts g) i = Some part ->
     parent media = item part) ->
  applyGroup g medias = Some (true, g, []).
Proof.
  intros Hlen Hsame. unfold applyGroup.
  assert (H : validateGroupParts g medias = true).
  { apply validateGroupParts_spec.
    revert Hlen Hsame. generalize (_parts g) as parts.
    induction medias as [|media rest IH]; intros [|part parts] Hlen Hsame;
      try discriminate; [reflexivity|].
    simpl. f_equal.
    - apply (Hsame 0%nat); reflexivity.
    - apply IH; [simpl in Hlen; lia|].
      intros i m p Hm Hp. apply (Hsame (S i)); assumption. }
  now rewrite H.
Qed.

Lemma applyGroup_reuse_witness :
  applyGroup file_group [sample_file 1 300 40; sample_file 2 280 56]
  = Some (true, file_group, []).
Proof.
  apply applyGroup_reuse.
  - reflexivity.
  - intros [|[|i]] media part Hm Hp; simpl in Hm, Hp.
    + injection Hm as <-. injection Hp as <-. reflexivity.
    + injection Hm as <-. injection Hp as <-. reflexivity.
    + destruct i; discriminate.
Defined.

(** The rebuild loop only appends: members present before stay, and
    the contents constructed are those of the appended parts. *)
Lemma applyGroup_loop_extends (medias : list Media) :
  forall modeChosen mode parts created mode' parts' created',
    applyGroup_loop medias modeChosen mode parts created
    = Some (mode', parts', created') ->
    exists added,
      parts' = parts ++ added /\
      created' = created ++ map content added /\
      (modeChosen = false -> medias <> [] -> added <> []).
Proof.
  induction medias as [|media rest IH];
    intros modeChosen mode parts created mode' parts' created' H.
  - simpl in H. injection H as <- <- <-. exists [].
    rewrite !app_nil_r. repeat split. congruence.
  - simpl in H.
    destruct (negb modeChosen || Mode_eqb (DetectMode media) mode) eqn:Hacc.
    + destruct (new_Part media) as [part|]; [|discriminate].
      apply IH in H. destruct H as [added [Hp [Hc _]]].
      exists (part :: added). rewrite <- !app_assoc in *. simpl in *.
      repeat split; try assumption. discriminate.
    + apply IH in H. destruct H as [added [Hp [Hc _]]].
      exists added. repeat split; try assumption.
      intros ->. discriminate.
Qed.

(** [applyGroup] never returns [false]: its [return false] needs an
    empty member list after the loop, hence no member before and no
    candidate, and on that input the validation has already succeeded. *)
Lemma applyGroup_never_false (g : GroupedMedia) (medias : list Media)
  (r : bool) (g' : GroupedMedia) (created : list Content) :
  applyGroup g medias = Some (r, g', created) -> r = true.
Proof.
  unfold applyGroup. destruct (validateGroupParts g medias) eqn:Hv.
  - now intros [= <- _ _].
  - destruct (applyGroup_loop medias false (_mode g) (_parts g) [])
      as [[[mode parts] c]|] eqn:Hloop; [|discriminate].
    destruct parts as [|p parts].
    + apply applyGroup_loop_extends in Hloop.
      destruct Hloop as [added [Hp [_ Hne]]].
      symmetry in Hp. apply app_eq_nil in Hp. destruct Hp as [Hp Ha].
      destruct medias as [|media rest].
      * unfold validateGroupParts in Hv. rewrite Hp in Hv. discriminate.
      * exfalso. apply Hne; [reflexivity|discriminate|exact Ha].
    + destruct (length (p :: parts) <=? kMaxSize)%nat; [|discriminate].
      now intros [= <- _ _].
Qed.

(** C5, at the failing input: a group without members given no
    candidate reports success and keeps an empty member list, and the
    constructor's [Ensures(result)] passes on it. *)
Theorem applyGroup_empty_reports_success :
  applyGroup fresh_group [] = Some (true, fresh_group, []) /\
  _parts fresh_group = [] /\
  construct fresh_group [] = Some fresh_group.
Proof. repeat split; reflexivity. Qed.

(** Once the mode is chosen the loop appends a part for exactly the
    candidates of that mode, provided each of them can be grouped. *)
Lemma applyGroup_loop_chosen (medias : list Media) :
  forall mode parts created,
    (forall media, In media (of_mode mode medias) ->
                   canBeGrouped media = true) ->
    applyGroup_loop medias true mode parts created
    = Some (mode, parts ++ map built_Part (of_mode mode medias),
            created ++ map createView (of_mode mode medias)).
Proof.
  induction medias as [|media rest IH]; intros mode parts created Hcan.
  - simpl. now rewrite !app_nil_r.
  - simpl. unfold of_mode in *. simpl in *.
    destruct (Mode_eqb (DetectMode media) mode) eqn:Hm.
    + unfold new_Part. rewrite (Hcan media (or_introl eq_refl)).
      apply Mode_eqb_eq in Hm. rewrite Hm.
      rewrite IH by (intros m Hin; apply Hcan; now right).
      simpl. now rewrite <- !app_assoc.
    + now apply IH.
Qed.

Lemma DetectMode_Column (media : Media) :
  DetectMode media = Column <->
  exists doc, document media = Some doc /\ isVideoFile doc = false.
Proof.
  unfold DetectMode. destruct (document media) as [[video]|]; simpl.
  - destruct video; simpl; split; try discriminate.
    + intros [doc [[= <-] H]]. discriminate.
    + intros _. now eexists.
    + reflexivity.
  - split; [discriminate|]. intros [doc [H _]]. discriminate.
Qed.

Lemma of_mode_In (mode : Mode) (medias : list Media) (media : Media) :
  In media (of_mode mode medias) -> DetectMode media = mode.
Proof.
  unfold of_mode. rewrite filter_In. intros [_ H]. now apply Mode_eqb_eq.
Qed.

(** C6: [DetectMode] answers [Column] exactly for a document that is
    not a video file.  [applyGroup] is entered from the two constructors
    only, on an object that has no member yet.  There every candidate
    sequence [first :: rest] triggers a rebuild: the mode becomes that of
    [first], the candidates of the other mode are skipped without an
    error, and the members of the resulting group are, in order, the
    parts of the candidates of that mode; so every member of the
    resulting group has the detected mode of [first]. *)
Theorem applyGroup_mode_filter (g : GroupedMedia) (first : Media)
  (rest : list Media) :
  let medias := first :: rest in
  let accepted := of_mode (DetectMode first) medias in
  _parts g = [] ->
  (forall media, In media accepted -> canBeGrouped media = true) ->
  (length accepted <= kMaxSize)%nat ->
  (forall media,
     DetectMode media = Column <->
     exists doc, document media = Some doc /\ isVideoFile doc = false) /\
  validateGroupParts g medias = false /\
  exists g',
    applyGroup g medias = Some (true, g', map createView accepted) /\
    _mode g' = DetectMode first /\
    _parts g' = map built_Part accepted /\
    (forall media, In media medias ->
       (In media accepted <-> DetectMode media = DetectMode first)) /\
    (forall part, In part (_parts g') -> part_mode part = DetectMode first).
Proof.
  intros medias accepted Hnil Hcan Hmax.
  split; [exact DetectMode_Column|].
  assert (Hv : validateGroupParts g medias = false).
  { unfold validateGroupParts, medias. rewrite Hnil. reflexivity. }
  split; [exact Hv|].
  assert (Hacc : accepted = first :: of_mode (DetectMode first) rest).
  { unfold accepted, medias, of_mode. simpl.
    now rewrite Mode_eqb_refl. }
  assert (Hmode : forall part, In part (map built_Part accepted) ->
                               part_mode part = DetectMode first).
  { intros part Hin. apply in_map_iff in Hin.
    destruct Hin as [media [<- Hin]]. unfold part_mode. simpl.
    now apply of_mode_In in Hin. }
  exists (set_mode_parts g (DetectMode first) (map built_Part accepted)).
  split; [|split; [reflexivity|split; [reflexivity|split; [|exact Hmode]]]].
  - unfold applyGroup. rewrite Hv, Hnil. unfold medias. simpl.
    unfold new_Part. rewrite (Hcan first) by (rewrite Hacc; now left).
    change (mkPart (parent first) (createView first) RectPart.None
                   (mkRect 0 0 0 0) (mkRect 0 0 0 0))
      with (built_Part first).
    rewrite applyGroup_loop_chosen
      by (intros m Hin; apply Hcan; rewrite Hacc; now right).
    simpl.
    change (built_Part first
            :: map built_Part (of_mode (DetectMode first) rest))
      with (map built_Part (first :: of_mode (DetectMode first) rest)).
    change (createView first
            :: map createView (of_mode (DetectMode first) rest))
      with (map createView (first :: of_mode (DetectMode first) rest)).
    rewrite <- Hacc.
    assert (Hle : (length (map built_Part accepted) <=? kMaxSize)%nat
                  = true).
    { apply Nat.leb_le. now rewrite length_map. }
    revert Hle.
    destruct (map built_Part accepted) as [|p ps] eqn:E.
    + rewrite Hacc in E. discriminate.
    + intros Hle. rewrite Hacc in E. cbn [map] in E.
      injection E as <- <-. simpl in Hle. now rewrite Hle.
  - intros media Hin. unfold accepted, of_mode. rewrite filter_In.
    split.
    + intros [_ H]. now apply Mode_eqb_eq.
    + intros H. split; [exact Hin|]. now apply Mode_eqb_eq.
Qed.

Lemma applyGroup_mode_filter_witness :
  _parts fresh_group = [] /\
  exists g',
    applyGroup fresh_group
      [sample_file 1 300 40; sample_photo 2 800 600; sample_file 3 280 56]
    = Some (true, g',
            [createView (sample_file 1 300 40);
             createView (sample_file 3 280 56)]) /\
    _mode g' = Column /\
    _parts g' = [built_Part (sample_file 1 300 40);
                 built_Part (sample_file 3 280 56)] /\
    (forall part, In part (_parts g') -> part_mode part = Column).
Proof.
  split; [reflexivity|].
  destruct (applyGroup_mode_filter fresh_group (sample_file 1 300 40)
              [sample_photo 2 800 600; sample_file 3 280 56])
    as [_ [_ [g' [Happ [Hm [Hparts [_ Hall]]]]]]].
  - reflexivity.
  - intros media [<-|[<-|[]]]; reflexivity.
  - simpl. unfold kMaxSize. lia.
  - exists g'. split; [exact Happ|]. split; [exact Hm|].
    split; [exact Hparts|exact Hall].
Defined.

(** ** Hit test *)

(** For a rectangle of non-negative extent [contains] is the usual
    half-open test. *)
Lemma rect_contains_spec (r : QRect) (p : QPoint) :
  0 <= rwidth r -> 0 <= rheight r ->
  rect_contains r p = true <->
  rx r <= px p < rx r + rwidth r /\ ry r <= py p < ry r + rheight r.
Proof.
  intros Hw Hh. unfold rect_contains.
  destruct (Z.ltb_spec (rx r + rwidth r - 1) (rx r - 1)); [lia|].
  destruct (Z.ltb_spec (ry r + rheight r - 1) (ry r - 1)); [lia|].
  rewrite andb_true_iff, !negb_true_iff, !orb_false_iff.
  rewrite !Z.ltb_ge, !Z.gtb_ltb, !Z.ltb_ge. lia.
Qed.

(** C8: [pointState] answers [Outside] exactly for the points the
    bounding rectangle does not contain; for a point it contains the
    answer is [GroupPart] exactly when some member's geometry contains the
    point and [Inside] exactly when none does, and it is never
    [Outside]. *)
Theorem pointState_coverage (g : GroupedMedia) (point : QPoint) :
  (pointState g point = Outside <->
   rect_contains (bounding_rect g) point = false) /\
  (rect_contains (bounding_rect g) point = true ->
   (pointState g point = GroupPart <->
    exists part, In part (_parts g) /\
                 rect_contains (geometry part) point = true) /\
   (pointState g point = Inside <->
    forall part, In part (_parts g) ->
                 rect_contains (geometry part) point = false) /\
   (pointState g point = GroupPart \/ pointState g point = Inside) /\
   pointState g point <> Outside).
Proof.
  unfold pointState, bounding_rect.
  destruct (rect_contains (mkRect 0 0 (width g) (height g)) point) eqn:Hb;
    simpl.
  - destruct (existsb (fun part => rect_contains (geometry part) point)
                      (_parts g)) eqn:He.
    + split; [split; discriminate|]. intros _.
      apply existsb_exists in He.
      repeat split; try discriminate; try (now left); try (intros _; exact He).
      intros Hall. destruct He as [part [Hin Hc]].
      rewrite (Hall part Hin) in Hc. discriminate.
    + split; [split; discriminate|]. intros _.
      assert (Hall : forall part, In part (_parts g) ->
                rect_contains (geometry part) point = false).
      { intros part Hin.
        destruct (rect_contains (geometry part) point) eqn:Hc;
          [|reflexivity].
        assert (existsb (fun part => rect_contains (geometry part) point)
                        (_parts g) = true)
          by (apply existsb_exists; now exists part).
        congruence. }
      repeat split; try discriminate; try (now right);
        try (intros _; exact Hall).
      intros [part [Hin Hc]]. rewrite (Hall part Hin) in Hc. discriminate.
  - split; [split; reflexivity|]. discriminate.
Qed.

Lemma pointState_coverage_witness :
  pointState hit_group (mkPoint 10 10) = GroupPart /\
  pointState hit_group (mkPoint 10 60) = Inside /\
  pointState hit_group (mkPoint 10 96) = Outside.
Proof.
  split; [|split].
  - apply (proj2 (pointState_coverage hit_group (mkPoint 10 10)));
      [reflexivity|].
    eexists. split; [now left|reflexivity].
  - apply (proj2 (pointState_coverage hit_group (mkPoint 10 60)));
      [reflexivity|].
    intros part [<-|[]]. reflexivity.
  - apply (proj1 (pointState_coverage hit_group (mkPoint 10 96))).
    reflexivity.
Defined.

(** ** Current size, Column mode *)

Local Arguments Nat.eqb : simpl never.

Lemma column_loop_top (newWidth : Z) (partsCount : nat) (parts : list Part) :
  forall index top,
    snd (column_loop newWidth partsCount index top parts)
    = top + total (grouped_heights newWidth partsCount index parts).
Proof.
  induction parts as [|part rest IH]; intros index top; simpl.
  - lia.
  - specialize (IH (S index) (top + sz_height
      (sizeForGrouping (content part) newWidth
                       (Nat.eqb (S index) partsCount)))).
    destruct (column_loop newWidth partsCount (S index) _ rest) as [rest' top'].
    simpl in *. rewrite IH. unfold grouped_height. lia.
Qed.

Lemma column_loop_length (newWidth : Z) (partsCount : nat)
  (parts : list Part) :
  forall index top,
    length (fst (column_loop newWidth partsCount index top parts))
    = length parts.
Proof.
  induction parts as [|part rest IH]; intros index top; simpl.
  - reflexivity.
  - specialize (IH (S index) (top + sz_height
      (sizeForGrouping (content part) newWidth
                       (Nat.eqb (S index) partsCount)))).
    destruct (column_loop newWidth partsCount (S index) _ rest) as [rest' top'].
    simpl in *. now rewrite IH.
Qed.

Lemma column_loop_nth (newWidth : Z) (partsCount : nat) (parts : list Part) :
  forall index top i part,
    nth_error parts i = Some part ->
    nth_error (fst (column_loop newWidth partsCount index top parts)) i
    = Some (mkPart (item part) (content part) (sides part)
              (initialGeometry part)
              (mkRect 0
                 (top + total (firstn i (grouped_heights newWidth partsCount
                                         index parts)))
                 newWidth
                 (grouped_height newWidth partsCount (index + i) part))).
Proof.
  induction parts as [|p rest IH]; intros index top i part H.
  - destruct i; discriminate.
  - simpl.
    specialize (IH (S index) (top + sz_height
      (sizeForGrouping (content p) newWidth (Nat.eqb (S index) partsCount)))).
    destruct (column_loop newWidth partsCount (S index) _ rest) as [rest' top'].
    destruct i as [|i]; simpl in *.
    + injection H as ->. rewrite Z.add_0_r, Nat.add_0_r. reflexivity.
    + rewrite (IH i part H).
      replace (index + S i)%nat with (S (index + i)) by lia.
      do 3 f_equal. unfold grouped_height. lia.
Qed.

Lemma grouped_heights_nth (newWidth : Z) (partsCount : nat)
  (parts : list Part) :
  forall index i part,
    nth_error parts i = Some part ->
    nth_error (grouped_heights newWidth partsCount index parts) i
    = Some (grouped_height newWidth partsCount (index + i) part).
Proof.
  induction parts as [|p rest IH]; intros index i part H.
  - destruct i; discriminate.
  - destruct i as [|i]; simpl in *.
    + injection H as ->. now rewrite Nat.add_0_r.
    + rewrite (IH (S index) i part H). do 2 f_equal. lia.
Qed.

Section CurrentSizeColumn.

Variable st : Style.

(** C10: in Column mode, at the target width [w] clamped to the natural
    maxWidth, [countCurrentSize] returns width [w] and gives member [i]
    the rectangle with x = 0, width [w], the height its own
    [sizeForGrouping(w, last)] reports and a top equal to the sum of the
    heights of the members before it; the height before the caption is the
    sum of all the members' heights. *)
Theorem countCurrentSize_column (g : GroupedMedia) (newWidth : Z) :
  _mode g = Column ->
  let w := Z.min newWidth (maxWidth g) in
  let count := length (_parts g) in
  let heights := grouped_heights w count 0 (_parts g) in
  let size := fst (countCurrentSize st g newWidth) in
  let g' := snd (countCurrentSize st g newWidth) in
  sz_width size = w /\
  sz_height size
  = total heights + caption_extra st (_caption g) (isBubbleBottom g) w /\
  length (_parts g') = count /\
  (forall i part, nth_error (_parts g) i = Some part ->
     nth_error heights i
     = Some (sz_height (sizeForGrouping (content part) w
                          (Nat.eqb (S i) count))) /\
     exists part',
       nth_error (_parts g') i = Some part' /\
       item part' = item part /\
       content part' = content part /\
       geometry part'
       = mkRect 0 (total (firstn i heights)) w
                (sz_height (sizeForGrouping (content part) w
                              (Nat.eqb (S i) count)))).
Proof.
  intros Hmode w count heights size g'.
  unfold size, g', countCurrentSize. rewrite Hmode. fold w. fold count.
  pose proof (column_loop_top w count (_parts g) 0 0) as Htop.
  pose proof (column_loop_length w count (_parts g) 0 0) as Hlen.
  pose proof (column_loop_nth w count (_parts g) 0 0) as Hnth.
  destruct (column_loop w count 0 0 (_parts g)) as [parts top] eqn:E.
  simpl in *. fold heights in Htop, Hnth.
  split; [reflexivity|]. split; [rewrite Htop; reflexivity|].
  split; [exact Hlen|].
  intros i part H. split.
  - apply (grouped_heights_nth w count (_parts g) 0 i part H).
  - eexists. split; [apply (Hnth i part H)|]. simpl.
    repeat split.
Qed.

End CurrentSizeColumn.

Lemma countCurrentSize_column_witness :
  _mode file_group = Column /\
  sz_width (fst (countCurrentSize sample_style file_group 250)) = 250 /\
  sz_height (fst (countCurrentSize sample_style file_group 250)) = 96 /\
  length (_parts (snd (countCurrentSize sample_style file_group 250)))
  = 2%nat.
Proof.
  split; [reflexivity|].
  destruct (countCurrentSize_column sample_style file_group 250 eq_refl)
    as [Hw [Hh [Hl _]]].
  split; [exact Hw|]. split; [exact Hh|exact Hl].
Defined.

(** ** Optimal size *)

Lemma max_of_ge_floor (l : list Z) (floor : Z) : floor <= max_of l floor.
Proof.
  revert floor; induction l as [|x l IH]; intros floor; simpl; [lia|].
  unfold max_of in *. simpl. specialize (IH (Z.max floor x)). lia.
Qed.

Lemma max_of_upper (l : list Z) (floor x : Z) :
  In x l -> x <= max_of l floor.
Proof.
  revert floor; induction l as [|y l IH]; intros floor; [intros []|].
  unfold max_of in *. simpl. intros [->|H].
  - pose proof (max_of_ge_floor l (Z.max floor x)). unfold max_of in *. lia.
  - now apply IH.
Qed.

Lemma max_of_attained (l : list Z) (floor : Z) :
  max_of l floor = floor \/ In (max_of l floor) l.
Proof.
  revert floor; induction l as [|y l IH]; intros floor; [now left|].
  unfold max_of in *. simpl.
  destruct (IH (Z.max floor y)) as [E|H].
  - rewrite E. destruct (Z.max_spec floor y) as [[_ ->]|[_ ->]];
      [right; now left|now left].
  - right. now right.
Qed.


Lemma accumulate_maxWidth_max_of (parts : list Part) (floor : Z) :
  accumulate_maxWidth parts floor
  = max_of (map (fun part => content_maxWidth (content part)) parts) floor.
Proof.
  revert floor; induction parts as [|p parts IH]; intros floor;
    [reflexivity|].
  unfold accumulate_maxWidth, max_of in *. simpl. apply IH.
Qed.

Lemma optimal_sizes_length (maxWidth : Z) (partsCount : nat)
  (parts : list Part) :
  forall index,
    length (optimal_sizes maxWidth partsCount index parts) = length parts.
Proof.
  induction parts as [|p parts IH]; intros index; simpl;
    [reflexivity|now rewrite IH].
Qed.

(** The storing loop copies the layout into the members and
    accumulates the two maxima. *)
Lemma store_layout_spec (layout : list Ui.GroupMediaLayout) :
  forall parts maxWidth minHeight,
    length layout = length parts ->
    let '(stored, maxWidth', minHeight') :=
      store_layout layout parts maxWidth minHeight in
    map initialGeometry stored = map Ui.geometry layout /\
    map sides stored = map Ui.sides layout /\
    map item stored = map item parts /\
    map content stored = map content parts /\
    map geometry stored = map geometry parts /\
    maxWidth' = max_of (map right_edge (map Ui.geometry layout)) maxWidth /\
    minHeight' = max_of (map bottom_edge (map Ui.geometry layout)) minHeight.
Proof.
  induction layout as [|layoutItem layout IH];
    intros [|part parts] maxWidth minHeight Hlen; try discriminate.
  - simpl. repeat split.
  - simpl in Hlen. injection Hlen as Hlen. simpl.
    specialize (IH parts
      (Z.max maxWidth (rx (Ui.geometry layoutItem)
                       + rwidth (Ui.geometry layoutItem)))
      (Z.max minHeight (ry (Ui.geometry layoutItem)
                        + rheight (Ui.geometry layoutItem))) Hlen).
    destruct (store_layout layout parts _ _) as [[stored mw] mh].
    destruct IH as [H1 [H2 [H3 [H4 [H5 [H6 H7]]]]]].
    simpl. rewrite H1, H2, H3, H4, H5, H6, H7. repeat split.
Qed.

Section OptimalSize.

Variable st : Style.
Variable LayoutMediaGroup :
  list QSize -> Z -> Z -> Z -> list Ui.GroupMediaLayout.


End OptimalSize.



(** ** Selection intervals *)

(** For rectangles and intervals of non-negative height, not being
    separated is sharing a vertical position (overlap or touch). *)
Lemma separated_spec (last : BubbleSelectionInterval) (r : QRect) :
  0 <= ival_height last -> 0 <= rheight r ->
  separated last r = false <->
  exists y, top last <= y <= bottom last /\ rtop r <= y <= bottom_edge r.
Proof.
  intros Hl Hr. unfold separated, bottom, bottom_edge, rtop.
  rewrite orb_false_iff, !Z.ltb_ge. split.
  - intros [H1 H2]. exists (Z.max (top last) (ry r)). lia.
  - intros [y H]. lia.
Qed.

(** The loop body for a selected part is [merge_selected]. *)
Lemma add_selected_merge (result : list BubbleSelectionInterval)
  (r : QRect) :
  add_selected result r = merge_selected result r.
Proof.
  unfold add_selected, merge_selected.
  destruct (back result) as [last|] eqn:Hb.
  - apply back_Some in Hb. destruct Hb as [front ->].
    rewrite rev_app_distr. simpl. rewrite rev_involutive.
    unfold separated, bottom, bottom_edge, rtop.
    rewrite Z.gtb_ltb.
    destruct ((top last + ival_height last <? ry r)
              || (ry r + rheight r <? top last)); [reflexivity|].
    rewrite modify_back_app. unfold span, bottom, bottom_edge, rtop. simpl.
    do 3 f_equal. lia.
  - apply back_None in Hb. subst result. reflexivity.
Qed.

Lemma intervals_loop_merge (selected : Z -> bool) (parts : list Part) :
  forall i result,
    intervals_loop selected i parts result
    = fold_left merge_selected (selected_rects selected i parts) result.
Proof.
  induction parts as [|part rest IH]; intros i result; simpl;
    [reflexivity|].
  rewrite IH, fold_left_app. destruct (selected i); simpl;
    [now rewrite add_selected_merge|reflexivity].
Qed.

Lemma merge_selected_nonempty (result : list BubbleSelectionInterval)
  (r : QRect) : merge_selected result r <> [].
Proof.
  unfold merge_selected. destruct (rev result) as [|last front];
    [discriminate|].
  destruct (separated last r); intros E; apply app_eq_nil in E;
    destruct E; discriminate.
Qed.

Lemma fold_merge_nonempty (rects : list QRect) :
  forall result, (result <> [] \/ rects <> []) ->
    fold_left merge_selected rects result <> [].
Proof.
  induction rects as [|r rects IH]; intros result H; simpl.
  - destruct H; congruence.
  - apply IH. left. apply merge_selected_nonempty.
Qed.

Lemma selected_rects_last (selected : Z -> bool) (parts : list Part) :
  forall i, parts <> [] ->
    selected (i + Z.of_nat (length parts) - 1) = true ->
    selected_rects selected i parts <> [].
Proof.
  induction parts as [|part rest IH]; intros i Hne Hsel; [congruence|].
  simpl. destruct rest as [|part2 rest].
  - simpl in Hsel. replace (i + 1 - 1) with i in Hsel by lia.
    rewrite Hsel. discriminate.
  - intros E. apply app_eq_nil in E. destruct E as [_ E]. revert E.
    apply IH; [discriminate|].
    rewrite <- Hsel. f_equal. simpl length. lia.
Qed.

Lemma modify_back_stretch (total : Z)
  (result : list BubbleSelectionInterval) :
  modify_back (fun last => mkInterval (top last) (total - top last)) result
  = stretch_last total result.
Proof.
  unfold stretch_last.
  destruct (rev result) as [|last front] eqn:E.
  - apply (f_equal (@rev _)) in E. rewrite rev_involutive in E.
    now subst result.
  - apply (f_equal (@rev _)) in E. rewrite rev_involutive in E. simpl in E.
    subst result. now rewrite modify_back_app.
Qed.

(** C7: [getBubbleSelectionIntervals] visits the members in order and
    treats each selected member's rectangle as [merge_selected] does: a new
    interval (top, height) when the result is empty or the rectangle is
    separated from the last interval, the last interval extended from the
    smaller top to the larger bottom otherwise.  When the last member is
    selected the final interval is stretched to end at the group's
    height. *)
Theorem getBubbleSelectionIntervals_merge (g : GroupedMedia)
  (selected : Z -> bool) :
  _parts g <> [] ->
  let merged := merged_intervals selected (_parts g) in
  let lastIndex := Z.of_nat (length (_parts g)) - 1 in
  (selected lastIndex = false ->
   getBubbleSelectionIntervals g selected = Some merged) /\
  (selected lastIndex = true ->
   exists front last,
     merged = front ++ [last] /\
     getBubbleSelectionIntervals g selected
     = Some (front ++ [mkInterval (top last) (height g - top last)]) /\
     top last + (height g - top last) = height g).
Proof.
  intros Hne merged lastIndex.
  unfold getBubbleSelectionIntervals. fold lastIndex.
  rewrite intervals_loop_merge. fold (merged_intervals selected (_parts g)).
  fold merged. split; intros Hsel; rewrite Hsel; [reflexivity|].
  assert (Hm : merged <> []).
  { apply fold_merge_nonempty. right.
    apply selected_rects_last; [exact Hne|exact Hsel]. }
  destruct (rev merged) as [|last front] eqn:E.
  { apply (f_equal (@rev _)) in E. rewrite rev_involutive in E.
    contradiction. }
  apply (f_equal (@rev _)) in E. rewrite rev_involutive in E. simpl in E.
  exists (rev front), last. split; [exact E|]. split; [|lia].
  rewrite E. rewrite modify_back_app.
  destruct (rev front ++ [last]) eqn:E2; [|reflexivity].
  apply app_eq_nil in E2. destruct E2; discriminate.
Qed.

Lemma getBubbleSelectionIntervals_merge_witness :
  merged_intervals sample_selection (_parts stacked_group)
  = [mkInterval 0 10; mkInterval 20 20] /\
  getBubbleSelectionIntervals stacked_group sample_selection
  = Some [mkInterval 0 10; mkInterval 20 40].
Proof.
  split; [reflexivity|].
  destruct (getBubbleSelectionIntervals_merge stacked_group sample_selection)
    as [_ H]; [discriminate|].
  destruct (H eq_refl) as [front [last [Hm [Hg _]]]].
  rewrite Hg. vm_compute in Hm.
  destruct front as [|a [|b front]]; try discriminate.
  - injection Hm as <- <-. reflexivity.
  - destruct front; discriminate.
Defined.

(** * Binary64 arithmetic

    The rounding step of [SpecFloat] ([binary_round_aux]) is related to
    the rational it rounds: it returns that rational when it is a 53 digit
    number, and it is monotone.  Multiplication, division and the
    conversions from and to [int] follow. *)

(** [SpecFloat] is stated over the core library's integer operations;
    the standard library's lemmas are about its own, convertible copies. *)
Ltac to_stdlib :=
  change IntDef.Z.add with Z.add in *;
  change IntDef.Z.sub with Z.sub in *;
  change IntDef.Z.mul with Z.mul in *;
  change IntDef.Z.opp with Z.opp in *;
  change IntDef.Z.max with Z.max in *;
  change IntDef.Z.min with Z.min in *;
  change IntDef.Z.leb with Z.leb in *;
  change IntDef.Z.eqb with Z.eqb in *;
  change IntDef.Z.compare with Z.compare in *;
  change IntDef.Z.even with Z.even in *;
  change IntDef.Z.div_eucl with Z.div_eucl in *;
  change IntDef.Z.shiftl with Z.shiftl in *;
  change PosDef.Pos.mul with Pos.mul in *;
  change PosDef.Pos.succ with Pos.succ in *;
  change @PosDef.Pos.iter with @Pos.iter in *.

(** ** Powers of two and rational values *)

(** Powers of two are positive. *)
Lemma pow2_pos (e : Z) : (0 < pow2 e)%Q.
Proof. unfold pow2. apply Qpower_0_lt. reflexivity. Qed.

Lemma pow2_succ (e : Z) : (pow2 (e + 1) == 2 * pow2 e)%Q.
Proof. unfold pow2. rewrite Qpower_plus by discriminate. simpl. ring. Qed.

Lemma pow2_add (e k : Z) : (pow2 (e + k) == pow2 e * pow2 k)%Q.
Proof. unfold pow2. apply Qpower_plus. discriminate. Qed.

(** For a non-negative exponent the power is the integer one. *)
Lemma pow2_nonneg_Z (k : Z) : 0 <= k -> (pow2 k == inject_Z (2 ^ k))%Q.
Proof. intros H. unfold pow2. now rewrite Zpower_Qpower. Qed.

Lemma F2Q_succ (m e : Z) : (F2Q m (e + 1) == 2 * F2Q m e)%Q.
Proof. unfold F2Q. rewrite pow2_succ. ring. Qed.

Lemma F2Q_double (m e : Z) : (F2Q (2 * m) e == 2 * F2Q m e)%Q.
Proof. unfold F2Q. rewrite inject_Z_mult. ring. Qed.

Lemma F2Q_double1 (m e : Z) : (F2Q (2 * m + 1) e == 2 * F2Q m e + pow2 e)%Q.
Proof. unfold F2Q. rewrite inject_Z_plus, inject_Z_mult. ring. Qed.

Lemma F2Q_plus (m n e : Z) : (F2Q (m + n) e == F2Q m e + F2Q n e)%Q.
Proof. unfold F2Q. rewrite inject_Z_plus. ring. Qed.

Lemma F2Q_one (e : Z) : (F2Q 1 e == pow2 e)%Q.
Proof. unfold F2Q. ring. Qed.

Lemma F2Q_zero_exp (m : Z) : (F2Q m 0 == inject_Z m)%Q.
Proof. unfold F2Q, pow2. simpl. ring. Qed.

Lemma F2Q_mul (m1 e1 m2 e2 : Z) :
  (F2Q m1 e1 * F2Q m2 e2 == F2Q (m1 * m2) (e1 + e2))%Q.
Proof. unfold F2Q. rewrite inject_Z_mult, pow2_add. ring. Qed.

(** [F2Q] is monotone in the mantissa. *)
Lemma F2Q_mono (m1 m2 e : Z) : m1 <= m2 -> (F2Q m1 e <= F2Q m2 e)%Q.
Proof.
  intros H. unfold F2Q. apply Qmult_le_compat_r.
  - now rewrite <- Zle_Qle.
  - apply Qlt_le_weak, pow2_pos.
Qed.

Lemma F2Q_pos (m e : Z) : 0 < m -> (0 < F2Q m e)%Q.
Proof.
  intros H. unfold F2Q. apply Qmult_lt_0_compat; [|apply pow2_pos].
  now rewrite Zlt_Qlt in H.
Qed.

(** Raising the exponent by [k] multiplies the mantissa by [2 ^ k]. *)
Lemma F2Q_shift (m e k : Z) :
  0 <= k -> (F2Q m (e + k) == F2Q (m * 2 ^ k) e)%Q.
Proof.
  intros H. unfold F2Q. rewrite pow2_add, (pow2_nonneg_Z k H), inject_Z_mult.
  ring.
Qed.

(** A mantissa [a * 2 ^ j] at exponent [- j] is the integer [a]. *)
Lemma F2Q_int (m : positive) (a j : Z) :
  0 <= j -> Zpos m = a * 2 ^ j -> (F2Q (Zpos m) (- j) == inject_Z a)%Q.
Proof.
  intros Hj Hm. rewrite Hm, <- (F2Q_shift a (- j) j Hj).
  replace (- j + j) with 0 by lia. apply F2Q_zero_exp.
Qed.

(** A located real lies in its unit. *)
Lemma in_loc_bounds (l : location) (lo u x : Q) :
  (0 < u)%Q -> in_loc l lo u x -> (lo <= x /\ x < lo + u)%Q.
Proof. destruct l as [|[]]; simpl; intros Hu H; lra. Qed.

(** ** Binary digits *)

(** Appending [q] zero bits adds [q] digits. *)
Lemma digits2_iter_xO (p q : positive) :
  digits2_pos (Pos.iter xO p q) = (digits2_pos p + q)%positive.
Proof.
  induction q as [|q IH] using Pos.peano_ind.
  - simpl. now rewrite Pos.add_1_r.
  - rewrite Pos.iter_succ. simpl. rewrite IH. lia.
Qed.

Lemma Zpos_iter_xO (p q : positive) :
  Zpos (Pos.iter xO p q) = Zpos p * 2 ^ Zpos q.
Proof.
  induction q as [|q IH] using Pos.peano_ind.
  - simpl. lia.
  - rewrite Pos.iter_succ, Pos2Z.inj_xO, IH, Pos2Z.inj_succ.
    rewrite Z.pow_succ_r by lia. lia.
Qed.

(** A number of [d] binary digits lies between [2 ^ (d - 1)] and [2 ^ d]. *)
Lemma digits2_pos_bounds (p : positive) :
  2 ^ (Zpos (digits2_pos p) - 1) <= Zpos p < 2 ^ Zpos (digits2_pos p).
Proof.
  induction p as [p IH|p IH|]; cbn [digits2_pos];
    change PosDef.Pos.succ with Pos.succ;
    rewrite ?Pos2Z.inj_succ.
  - replace (Z.succ (Zpos (digits2_pos p)) - 1)
      with (Z.succ (Zpos (digits2_pos p) - 1)) by lia.
    rewrite !Z.pow_succ_r by lia. lia.
  - replace (Z.succ (Zpos (digits2_pos p)) - 1)
      with (Z.succ (Zpos (digits2_pos p) - 1)) by lia.
    rewrite !Z.pow_succ_r by lia. lia.
  - simpl. lia.
Qed.

Lemma Zdigits2_bounds (q : Z) :
  0 < q -> 2 ^ (Zdigits2 q - 1) <= q < 2 ^ Zdigits2 q.
Proof.
  destruct q as [|p|p]; try lia. intros _. apply digits2_pos_bounds.
Qed.

Lemma Zdigits2_unique (q k : Z) :
  0 < q -> 2 ^ (k - 1) <= q < 2 ^ k -> Zdigits2 q = k.
Proof.
  intros Hq [Hlo Hhi]. pose proof (Zdigits2_bounds q Hq) as [Dlo Dhi].
  destruct q as [|p|p]; try lia. cbn [Zdigits2] in *.
  set (d := Zpos (digits2_pos p)) in *.
  assert (Hd : 0 < d) by (unfold d; lia).
  assert (Hk : 0 < k).
  { destruct (Z.ltb_spec 0 k) as [|Hk]; [assumption|].
    destruct (Z.eq_dec k 0) as [->|Hne]; [simpl in Hhi; lia|].
    rewrite Z.pow_neg_r in Hhi by lia. lia. }
  destruct (Z.lt_trichotomy d k) as [H|[H|H]]; [|exact H|].
  - assert (2 ^ d <= 2 ^ (k - 1)) by (apply Z.pow_le_mono_r; lia). lia.
  - assert (2 ^ k <= 2 ^ (d - 1)) by (apply Z.pow_le_mono_r; lia). lia.
Qed.

Lemma Zdigits2_between (q lo hi : Z) :
  0 <= lo -> lo <= hi -> 2 ^ lo <= q < 2 ^ hi -> lo < Zdigits2 q <= hi.
Proof.
  intros Hlo Hhi [H1 H2].
  assert (Hq : 0 < q) by (pose proof (Z.pow_pos_nonneg 2 lo); lia).
  pose proof (Zdigits2_bounds q Hq) as [D1 D2].
  assert (Hd : 0 < Zdigits2 q) by (destruct q; simpl; lia).
  split.
  - destruct (Z.ltb_spec lo (Zdigits2 q)); [assumption|].
    assert (2 ^ Zdigits2 q <= 2 ^ lo) by (apply Z.pow_le_mono_r; lia). lia.
  - destruct (Z.leb_spec (Zdigits2 q) hi); [assumption|].
    assert (2 ^ hi <= 2 ^ (Zdigits2 q - 1)) by (apply Z.pow_le_mono_r; lia).
    lia.
Qed.

Lemma mantissa_bounds (m : positive) :
  digits2_pos m = 53%positive -> 2 ^ 52 <= Zpos m < 2 ^ 53.
Proof.
  intros H. pose proof (digits2_pos_bounds m) as Hb. now rewrite H in Hb.
Qed.

(** ** Shifting a mantissa to the right *)

(** [SpecFloat]'s iterator is the standard one. *)
Lemma iter_pos_iter {A} (f : A -> A) (k : positive) :
  forall x, iter_pos f k x = Pos.iter f x k.
Proof.
  induction k as [k IH|k IH|]; intros x; simpl.
  - rewrite !IH. now rewrite !Pos.iter_swap.
  - now rewrite !IH.
  - reflexivity.
Qed.

(** One shift to the right keeps the real that is described, one exponent
    higher. *)
Lemma shr_1_represents (mrs : shr_record) (e : Z) (x : Q) :
  0 <= shr_m mrs -> represents mrs e x -> represents (shr_1 mrs) (e + 1) x.
Proof.
  destruct mrs as [m r s]. unfold represents. simpl shr_m.
  intros Hm H.
  pose proof (pow2_pos e) as Hu. pose proof (pow2_succ e) as Hu1.
  destruct m as [|p|p]; [| |lia].
  - assert (H0 : (F2Q 0 e == 0)%Q) by (unfold F2Q; ring).
    assert (H1 : (F2Q 0 (e+1) == 0)%Q) by (unfold F2Q; ring).
    destruct r, s; simpl in *; lra.
  - destruct p as [p|p|].
    + pose proof (F2Q_double1 (Zpos p) e) as Hd.
      pose proof (F2Q_succ (Zpos p) e) as Hs.
      change (2 * Z.pos p + 1) with (Zpos p~1) in Hd.
      destruct r, s; simpl in *; lra.
    + pose proof (F2Q_double (Zpos p) e) as Hd.
      pose proof (F2Q_succ (Zpos p) e) as Hs.
      change (2 * Z.pos p) with (Zpos p~0) in Hd.
      destruct r, s; simpl in *; lra.
    + assert (H0 : (F2Q 1 e == pow2 e)%Q) by (unfold F2Q; ring).
      assert (H1 : (F2Q 0 (e+1) == 0)%Q) by (unfold F2Q; ring).
      destruct r, s; simpl in *; lra.
Qed.

Lemma shr_1_nonneg (mrs : shr_record) :
  0 <= shr_m mrs -> 0 <= shr_m (shr_1 mrs).
Proof.
  destruct mrs as [m r s]. simpl. intros H.
  destruct m as [|[p|p|]|]; simpl; lia.
Qed.

(** One shift to the right takes one digit away. *)
Lemma shr_1_digits (mrs : shr_record) :
  0 <= shr_m mrs ->
  Zdigits2 (shr_m (shr_1 mrs)) = Z.max 0 (Zdigits2 (shr_m mrs) - 1).
Proof.
  destruct mrs as [m r s]. simpl. intros H.
  destruct m as [|[p|p|]|]; cbn [shr_1 shr_m Zdigits2 digits2_pos];
    change PosDef.Pos.succ with Pos.succ;
    rewrite ?Pos2Z.inj_succ; lia.
Qed.

(** [k] shifts to the right. *)
Lemma iter_shr_1_represents (mrs : shr_record) (e : Z) (x : Q) (k : positive) :
  0 <= shr_m mrs -> represents mrs e x ->
  0 <= shr_m (Pos.iter shr_1 mrs k) /\
  represents (Pos.iter shr_1 mrs k) (e + Zpos k) x /\
  Zdigits2 (shr_m (Pos.iter shr_1 mrs k))
  = Z.max 0 (Zdigits2 (shr_m mrs) - Zpos k).
Proof.
  intros Hm Hr. induction k as [|k IH] using Pos.peano_ind.
  - simpl. split; [now apply shr_1_nonneg|].
    split; [now apply shr_1_represents|now apply shr_1_digits].
  - rewrite Pos.iter_succ. destruct IH as [H0 [H1 H2]].
    split; [now apply shr_1_nonneg|]. split.
    + replace (e + Zpos (Pos.succ k)) with (e + Zpos k + 1) by lia.
      now apply shr_1_represents.
    + rewrite shr_1_digits by assumption. rewrite H2. lia.
Qed.

Lemma loc_of_shr_record_of_loc (m : Z) (l : location) :
  loc_of_shr_record (shr_record_of_loc m l) = l.
Proof. destruct l as [|[]]; reflexivity. Qed.

Lemma shr_m_record_of_loc (m : Z) (l : location) :
  shr_m (shr_record_of_loc m l) = m.
Proof. destruct l as [|[]]; reflexivity. Qed.

(** Normalisation: a mantissa of at least 53 digits is shifted down to
    53 digits, and still describes the same real. *)
Lemma shr_fexp_spec (m e : Z) (l : location) (x : Q) :
  53 <= Zdigits2 m -> 0 < m -> -1074 <= e ->
  represents (shr_record_of_loc m l) e x ->
  exists mrs,
    shr_fexp Float64.prec Float64.emax m e l = (mrs, e + (Zdigits2 m - 53)) /\
    0 < shr_m mrs /\
    Zdigits2 (shr_m mrs) = 53 /\
    represents mrs (e + (Zdigits2 m - 53)) x.
Proof.
  intros Hd Hm He Hr. unfold shr_fexp.
  change IntDef.Z.sub with Z.sub; change IntDef.Z.add with Z.add.
  assert (Hf : fexp Float64.prec Float64.emax (Zdigits2 m + e) - e
               = Zdigits2 m - 53).
  { unfold fexp, emin, Float64.prec, Float64.emax.
    change IntDef.Z.sub with Z.sub; change IntDef.Z.max with Z.max. lia. }
  rewrite Hf. unfold shr.
  destruct (Zdigits2 m - 53) as [|k|k] eqn:Ek; [| |lia].
  - exists (shr_record_of_loc m l). rewrite Z.add_0_r.
    split; [reflexivity|]. rewrite shr_m_record_of_loc.
    split; [exact Hm|]. split; [lia|exact Hr].
  - exists (iter_pos shr_1 k (shr_record_of_loc m l)).
    change IntDef.Z.add with Z.add. split; [reflexivity|].
    rewrite iter_pos_iter.
    destruct (iter_shr_1_represents (shr_record_of_loc m l) e x k)
      as [H0 [H1 H2]]; [rewrite shr_m_record_of_loc; lia|exact Hr|].
    rewrite shr_m_record_of_loc in H2.
    assert (Hd53 : Zdigits2 (shr_m (Pos.iter shr_1 (shr_record_of_loc m l) k))
                   = 53) by lia.
    split; [|split; [exact Hd53|exact H1]].
    destruct (shr_m (Pos.iter shr_1 (shr_record_of_loc m l) k));
      [discriminate|lia|lia].
Qed.

(** A mantissa of 53 digits is not shifted. *)
Lemma shr_fexp_53 (m e : Z) (l : location) :
  Zdigits2 m = 53 -> -1074 <= e ->
  shr_fexp Float64.prec Float64.emax m e l = (shr_record_of_loc m l, e).
Proof.
  intros Hd He. unfold shr_fexp.
  change IntDef.Z.sub with Z.sub; change IntDef.Z.add with Z.add.
  assert (Hf : fexp Float64.prec Float64.emax (Zdigits2 m + e) - e = 0).
  { unfold fexp, emin, Float64.prec, Float64.emax.
    change IntDef.Z.sub with Z.sub; change IntDef.Z.max with Z.max. lia. }
  now rewrite Hf.
Qed.

(** The mantissa [2 ^ 53] is shifted once. *)
Lemma shr_fexp_54 (e : Z) :
  -1074 <= e ->
  shr_fexp Float64.prec Float64.emax (2 ^ 53) e loc_Exact
  = (Build_shr_record (2 ^ 52) false false, e + 1).
Proof.
  intros He. unfold shr_fexp.
  change IntDef.Z.sub with Z.sub; change IntDef.Z.add with Z.add.
  assert (Hf : fexp Float64.prec Float64.emax (Zdigits2 (2 ^ 53) + e) - e = 1).
  { unfold fexp, emin, Float64.prec, Float64.emax.
    change IntDef.Z.sub with Z.sub; change IntDef.Z.max with Z.max.
    change (Zdigits2 (2 ^ 53)) with 54. lia. }
  rewrite Hf. reflexivity.
Qed.

(** ** The rounding step *)

(** Rounding keeps the mantissa or adds one. *)
Lemma round_nearest_even_range (q : Z) (l : location) :
  q <= round_nearest_even q l <= q + 1.
Proof.
  unfold round_nearest_even. change IntDef.Z.add with Z.add.
  destruct l as [|[]]; try lia. destruct (IntDef.Z.even q); lia.
Qed.

(** Rounding is monotone in the location. *)
Lemma round_nearest_even_mono (q : Z) (l1 l2 : location) :
  loc_rank l1 <= loc_rank l2 ->
  round_nearest_even q l1 <= round_nearest_even q l2.
Proof.
  unfold round_nearest_even. change IntDef.Z.add with Z.add.
  destruct l1 as [|[]], l2 as [|[]]; simpl; intros H; try lia;
    destruct (IntDef.Z.even q); lia.
Qed.

(** [finish] returns a 53 digit mantissa and raises the exponent by at
    most one. *)
Lemma finish_canonical (q : Z) (l : location) (e : Z) :
  2 ^ 52 <= q < 2 ^ 53 ->
  2 ^ 52 <= fst (finish q l e) < 2 ^ 53 /\
  e <= snd (finish q l e) <= e + 1.
Proof.
  intros Hq. unfold finish.
  pose proof (round_nearest_even_range q l).
  destruct (Z.ltb_spec (round_nearest_even q l) (2 ^ 53)); simpl; lia.
Qed.

Lemma finish_exact (M F : Z) :
  2 ^ 52 <= M < 2 ^ 53 -> finish M loc_Exact F = (M, F).
Proof.
  intros H. unfold finish. cbn [round_nearest_even].
  destruct (Z.ltb_spec M (2 ^ 53)); [reflexivity|lia].
Qed.

(** [finish] is monotone in the exponent, then the mantissa, then the
    location. *)
Lemma finish_mono (E1 q1 : Z) (l1 : location) (E2 q2 : Z) (l2 : location) :
  2 ^ 52 <= q1 < 2 ^ 53 -> 2 ^ 52 <= q2 < 2 ^ 53 ->
  E1 < E2 \/
  (E1 = E2 /\ (q1 < q2 \/ (q1 = q2 /\ loc_rank l1 <= loc_rank l2))) ->
  snd (finish q1 l1 E1) < snd (finish q2 l2 E2) \/
  (snd (finish q1 l1 E1) = snd (finish q2 l2 E2) /\
   fst (finish q1 l1 E1) <= fst (finish q2 l2 E2)).
Proof.
  intros Hq1 Hq2 H. unfold finish.
  pose proof (round_nearest_even_range q1 l1).
  pose proof (round_nearest_even_range q2 l2).
  destruct H as [H|[-> [H|[-> H]]]].
  - destruct (Z.ltb_spec (round_nearest_even q1 l1) (2 ^ 53)),
      (Z.ltb_spec (round_nearest_even q2 l2) (2 ^ 53)); simpl; lia.
  - destruct (Z.ltb_spec (round_nearest_even q1 l1) (2 ^ 53)),
      (Z.ltb_spec (round_nearest_even q2 l2) (2 ^ 53)); simpl; lia.
  - pose proof (round_nearest_even_mono q2 l1 l2 H).
    destruct (Z.ltb_spec (round_nearest_even q2 l1) (2 ^ 53)),
      (Z.ltb_spec (round_nearest_even q2 l2) (2 ^ 53)); simpl; lia.
Qed.

Lemma loc_rank_0 (l : location) : loc_rank l <= 0 -> l = loc_Exact.
Proof. destruct l as [|[]]; simpl; intros; try lia; reflexivity. Qed.

(** Among 53 digit mantissas the order by exponent, then mantissa, is the
    order of the values. *)
Lemma canonical_value_le (M1 F1 M2 F2 : Z) :
  2 ^ 52 <= M1 < 2 ^ 53 -> 2 ^ 52 <= M2 < 2 ^ 53 ->
  F1 < F2 \/ (F1 = F2 /\ M1 <= M2) ->
  (F2Q M1 F1 <= F2Q M2 F2)%Q.
Proof.
  intros H1 H2 [H|[-> H]]; [|now apply F2Q_mono].
  replace F2 with (F1 + (F2 - F1)) by lia.
  rewrite (F2Q_shift M2 F1 (F2 - F1)) by lia.
  apply F2Q_mono.
  assert (Hp : 2 ^ 1 <= 2 ^ (F2 - F1)) by (apply Z.pow_le_mono_r; lia).
  change (2 ^ 1) with 2 in Hp. nia.
Qed.

(** The rounding step: the mantissa is normalised to 53 digits, the
    position of the real inside the last unit is kept, and the result is
    [finish] of the two. *)
Lemma binary_round_aux_spec (s : bool) (m e : Z) (l : location) (x : Q) :
  53 <= Zdigits2 m -> 0 < m -> -1074 <= e ->
  e + (Zdigits2 m - 53) + 1 <= 971 ->
  represents (shr_record_of_loc m l) e x ->
  exists q l',
    2 ^ 52 <= q < 2 ^ 53 /\
    in_loc l' (F2Q q (e + (Zdigits2 m - 53)))
           (pow2 (e + (Zdigits2 m - 53))) x /\
    binary_round_aux Float64.prec Float64.emax s m e l
    = S754_finite s (Z.to_pos (fst (finish q l' (e + (Zdigits2 m - 53)))))
                  (snd (finish q l' (e + (Zdigits2 m - 53)))).
Proof.
  intros Hd Hm He Hmax Hr.
  destruct (shr_fexp_spec m e l x Hd Hm He Hr) as [mrs [Hs [Hq [Hd' Hr']]]].
  set (E := e + (Zdigits2 m - 53)) in *.
  pose proof (Zdigits2_bounds _ Hq) as Hb. rewrite Hd' in Hb.
  change (2 ^ (53 - 1)) with (2 ^ 52) in Hb.
  exists (shr_m mrs), (loc_of_shr_record mrs).
  split; [exact Hb|]. split; [exact Hr'|].
  unfold binary_round_aux. rewrite Hs. unfold finish.
  pose proof (round_nearest_even_range (shr_m mrs) (loc_of_shr_record mrs))
    as Hrange.
  set (q' := round_nearest_even (shr_m mrs) (loc_of_shr_record mrs)) in *.
  assert (HE : (E <=? Float64.emax - Float64.prec) = true)
    by (apply Z.leb_le; unfold Float64.emax, Float64.prec; lia).
  assert (HE1 : (E + 1 <=? Float64.emax - Float64.prec) = true)
    by (apply Z.leb_le; unfold Float64.emax, Float64.prec; lia).
  change IntDef.Z.leb with Z.leb; change IntDef.Z.sub with Z.sub.
  destruct (Z.ltb_spec q' (2 ^ 53)) as [Hlt|Hge].
  - rewrite shr_fexp_53; [|apply Zdigits2_unique; lia|lia].
    rewrite shr_m_record_of_loc. simpl fst; simpl snd.
    destruct q' as [|p|p]; try lia. now rewrite HE.
  - assert (Hq' : q' = 2 ^ 53) by lia. rewrite Hq'.
    rewrite shr_fexp_54 by lia. cbn [shr_m fst snd].
    change (2 ^ 52) with (Zpos 4503599627370496). now rewrite HE1.
Qed.

(** The normalised description of a positive real is monotone in the
    real. *)
Lemma truthful_mono (E1 q1 : Z) (l1 : location) (E2 q2 : Z) (l2 : location)
  (x y : Q) :
  2 ^ 52 <= q1 < 2 ^ 53 -> 2 ^ 52 <= q2 < 2 ^ 53 ->
  in_loc l1 (F2Q q1 E1) (pow2 E1) x ->
  in_loc l2 (F2Q q2 E2) (pow2 E2) y ->
  (x <= y)%Q ->
  E1 < E2 \/
  (E1 = E2 /\ (q1 < q2 \/ (q1 = q2 /\ loc_rank l1 <= loc_rank l2))).
Proof.
  intros Hq1 Hq2 H1 H2 Hxy.
  pose proof (pow2_pos E1) as Hu1. pose proof (pow2_pos E2) as Hu2.
  pose proof (in_loc_bounds _ _ _ _ Hu1 H1) as [Hx _].
  pose proof (in_loc_bounds _ _ _ _ Hu2 H2) as [_ Hy].
  destruct (Z.lt_trichotomy E1 E2) as [HE|[HE|HE]]; [now left| |].
  - subst E2. right. split; [reflexivity|].
    destruct (Z.lt_trichotomy q1 q2) as [Hq|[Hq|Hq]]; [now left| |].
    + subst q2. right. split; [reflexivity|].
      destruct l1 as [|[]], l2 as [|[]]; simpl in *; try lia; lra.
    + exfalso.
      pose proof (F2Q_mono (q2 + 1) q1 E1 ltac:(lia)) as Hm.
      rewrite F2Q_plus, F2Q_one in Hm. lra.
  - exfalso.
    pose proof (F2Q_shift q1 E2 (E1 - E2) ltac:(lia)) as Hs.
    replace (E2 + (E1 - E2)) with E1 in Hs by lia.
    assert (Hp : 2 ^ 1 <= 2 ^ (E1 - E2))
      by (apply Z.pow_le_mono_r; lia).
    change (2 ^ 1) with 2 in Hp.
    pose proof (F2Q_mono (q2 + 1) (q1 * 2 ^ (E1 - E2)) E2 ltac:(nia)) as Hm.
    rewrite F2Q_plus, F2Q_one in Hm. lra.
Qed.

(** Rounding a real that is a 53 digit number returns that number. *)
Lemma binary_round_aux_exact (s : bool) (m e : Z) (l : location)
  (M : positive) (F : Z) :
  53 <= Zdigits2 m -> 0 < m -> -1074 <= e ->
  e + (Zdigits2 m - 53) + 1 <= 971 ->
  digits2_pos M = 53%positive ->
  represents (shr_record_of_loc m l) e (F2Q (Zpos M) F) ->
  binary_round_aux Float64.prec Float64.emax s m e l = S754_finite s M F.
Proof.
  intros Hd Hm He Hmax HM Hr.
  destruct (binary_round_aux_spec s m e l _ Hd Hm He Hmax Hr)
    as [q [l' [Hq [Hl ->]]]].
  set (E := e + (Zdigits2 m - 53)) in *.
  assert (HMb : 2 ^ 52 <= Zpos M < 2 ^ 53).
  { pose proof (digits2_pos_bounds M) as Hb. rewrite HM in Hb. exact Hb. }
  assert (Hex : in_loc loc_Exact (F2Q (Zpos M) F) (pow2 F) (F2Q (Zpos M) F))
    by (simpl; reflexivity).
  pose proof (truthful_mono _ _ _ _ _ _ _ _ Hq HMb Hl Hex (Qle_refl _)) as H1.
  pose proof (truthful_mono _ _ _ _ _ _ _ _ HMb Hq Hex Hl (Qle_refl _)) as H2.
  assert (HE : E = F) by lia. assert (Hqm : q = Zpos M) by lia.
  assert (Hl' : l' = loc_Exact) by (apply loc_rank_0; simpl in H1; lia).
  rewrite HE, Hqm, Hl', finish_exact by exact HMb. reflexivity.
Qed.

(** Rounding is monotone in the real that is rounded. *)
Lemma binary_round_aux_mono (m1 e1 : Z) (l1 : location) (m2 e2 : Z)
  (l2 : location) (x y : Q) :
  53 <= Zdigits2 m1 -> 0 < m1 -> -1074 <= e1 ->
  e1 + (Zdigits2 m1 - 53) + 1 <= 971 ->
  53 <= Zdigits2 m2 -> 0 < m2 -> -1074 <= e2 ->
  e2 + (Zdigits2 m2 - 53) + 1 <= 971 ->
  represents (shr_record_of_loc m1 l1) e1 x ->
  represents (shr_record_of_loc m2 l2) e2 y ->
  (x <= y)%Q ->
  (value (binary_round_aux Float64.prec Float64.emax false m1 e1 l1)
   <= value (binary_round_aux Float64.prec Float64.emax false m2 e2 l2))%Q.
Proof.
  intros Hd1 Hm1 He1 Hx1 Hd2 Hm2 He2 Hx2 Hr1 Hr2 Hxy.
  destruct (binary_round_aux_spec false m1 e1 l1 _ Hd1 Hm1 He1 Hx1 Hr1)
    as [q1 [k1 [Hq1 [Hl1 ->]]]].
  destruct (binary_round_aux_spec false m2 e2 l2 _ Hd2 Hm2 He2 Hx2 Hr2)
    as [q2 [k2 [Hq2 [Hl2 ->]]]].
  pose proof (truthful_mono _ _ _ _ _ _ _ _ Hq1 Hq2 Hl1 Hl2 Hxy) as Hlex.
  pose proof (finish_mono _ _ _ _ _ _ Hq1 Hq2 Hlex) as Hfin.
  pose proof (finish_canonical q1 k1 (e1 + (Zdigits2 m1 - 53)) Hq1) as [Hc1 _].
  pose proof (finish_canonical q2 k2 (e2 + (Zdigits2 m2 - 53)) Hq2) as [Hc2 _].
  simpl. rewrite !Z2Pos.id by lia.
  now apply canonical_value_le.
Qed.

(** The result of rounding is a normal number. *)
Lemma binary_round_aux_normal (s : bool) (m e : Z) (l : location) (x : Q) :
  53 <= Zdigits2 m -> 0 < m -> -1074 <= e ->
  e + (Zdigits2 m - 53) + 1 <= 971 ->
  represents (shr_record_of_loc m l) e x ->
  normal s (e + (Zdigits2 m - 53)) (e + (Zdigits2 m - 53) + 1)
         (binary_round_aux Float64.prec Float64.emax s m e l).
Proof.
  intros Hd Hm He Hmax Hr.
  destruct (binary_round_aux_spec s m e l _ Hd Hm He Hmax Hr)
    as [q [l' [Hq [Hl ->]]]].
  pose proof (finish_canonical q l' (e + (Zdigits2 m - 53)) Hq) as [Hc He'].
  simpl. split; [reflexivity|]. split; [|lia].
  assert (H : Zdigits2 (fst (finish q l' (e + (Zdigits2 m - 53)))) = 53)
    by (apply Zdigits2_unique; lia).
  destruct (fst (finish q l' (e + (Zdigits2 m - 53)))) as [|p|p];
    try lia. simpl in H. simpl. lia.
Qed.

(** A mantissa of 53 digits with an exponent in range is returned as it
    is by the rounding step. *)
Lemma binary_round_aux_canonical (s : bool) (m : positive) (e : Z) :
  digits2_pos m = 53%positive -> -1074 <= e <= 971 ->
  binary_round_aux Float64.prec Float64.emax s (Zpos m) e loc_Exact
  = S754_finite s m e.
Proof.
  intros Hd He. unfold binary_round_aux, shr_fexp, Zdigits2.
  rewrite Hd.
  assert (Hf : fexp Float64.prec Float64.emax (53 + e) - e = 0)
    by (unfold fexp, emin, Float64.prec, Float64.emax; lia).
  to_stdlib. rewrite Hf.
  cbn [shr shr_record_of_loc shr_m loc_of_shr_record round_nearest_even
       Zdigits2].
  rewrite Hd, Hf.
  cbn [shr shr_record_of_loc shr_m].
  assert (Hle : (e <=? Float64.emax - Float64.prec) = true)
    by (apply Z.leb_le; unfold Float64.emax, Float64.prec; lia).
  now rewrite Hle.
Qed.

(** The conversion of a positive integer of at most 53 bits: the
    integer shifted left to 53 digits, with the matching exponent. *)
Lemma binary_round_int (s : bool) (p : positive) :
  Zpos (digits2_pos p) <= 53 ->
  exists m k,
    binary_round Float64.prec Float64.emax s p 0 = S754_finite s m (- k) /\
    digits2_pos m = 53%positive /\
    0 <= k <= 52 /\
    Zpos m = Zpos p * 2 ^ k.
Proof.
  intros Hd. unfold binary_round, shl_align. to_stdlib.
  assert (Hf : fexp Float64.prec Float64.emax (Zpos (digits2_pos p) + 0)
               = Zpos (digits2_pos p) - 53)
    by (unfold fexp, emin, Float64.prec, Float64.emax; lia).
  rewrite Hf. rewrite Z.sub_0_r.
  destruct (Zpos (digits2_pos p) - 53) as [|q|q] eqn:E.
  - exists p, 0. assert (Hp : digits2_pos p = 53%positive) by lia.
    rewrite binary_round_aux_canonical by (try exact Hp; lia).
    repeat split; lia.
  - lia.
  - exists (Pos.iter xO p q), (Zpos q).
    assert (Hq : digits2_pos (Pos.iter xO p q) = 53%positive)
      by (rewrite digits2_iter_xO; lia).
    rewrite binary_round_aux_canonical by (try exact Hq; lia).
    repeat split; try lia; try exact Hq. apply Zpos_iter_xO.
Qed.

(** ** Multiplication *)

(** The product of two normal numbers, as the rounding step sees it. *)
Lemma mul_product (ma mb : positive) (ea eb : Z) :
  digits2_pos ma = 53%positive -> digits2_pos mb = 53%positive ->
  105 <= Zdigits2 (Zpos (ma * mb)) <= 106 /\
  represents (shr_record_of_loc (Zpos (ma * mb)) loc_Exact) (ea + eb)
             (F2Q (Zpos ma) ea * F2Q (Zpos mb) eb).
Proof.
  intros Ha Hb.
  pose proof (mantissa_bounds ma Ha). pose proof (mantissa_bounds mb Hb).
  split.
  - assert (104 < Zdigits2 (Zpos (ma * mb)) <= 106); [|lia].
    apply Zdigits2_between; try lia.
    rewrite Pos2Z.inj_mul.
    change (2 ^ 104) with (2 ^ 52 * 2 ^ 52).
    change (2 ^ 106) with (2 ^ 53 * 2 ^ 53). nia.
  - unfold represents. simpl. rewrite F2Q_mul. reflexivity.
Qed.

(** [SFmul] on two finite numbers is one rounding step on the product of
    the mantissas. *)
Lemma mul_finite (sa sb : bool) (ma mb : positive) (ea eb : Z) :
  Float64.mul (S754_finite sa ma ea) (S754_finite sb mb eb)
  = binary_round_aux Float64.prec Float64.emax (xorb sa sb)
      (Zpos (ma * mb)) (ea + eb) loc_Exact.
Proof. reflexivity. Qed.

(** A product that is a 53 digit number is returned exactly. *)
Lemma mul_exact (sa sb : bool) (ma mb : positive) (ea eb : Z)
  (M : positive) (F : Z) :
  digits2_pos ma = 53%positive -> digits2_pos mb = 53%positive ->
  -500 <= ea <= 400 -> -500 <= eb <= 400 ->
  digits2_pos M = 53%positive ->
  (F2Q (Zpos ma) ea * F2Q (Zpos mb) eb == F2Q (Zpos M) F)%Q ->
  Float64.mul (S754_finite sa ma ea) (S754_finite sb mb eb)
  = S754_finite (xorb sa sb) M F.
Proof.
  intros Ha Hb Hea Heb HM Hv. rewrite mul_finite.
  destruct (mul_product ma mb ea eb Ha Hb) as [Hd Hr].
  apply binary_round_aux_exact; try lia; try assumption.
  unfold represents in *. simpl in *. now rewrite <- Hv.
Qed.

(** The multiplication of positive normal numbers is monotone in both
    factors. *)
Lemma mul_mono (ma mb ma' mb' : positive) (ea eb ea' eb' : Z) :
  digits2_pos ma = 53%positive -> digits2_pos mb = 53%positive ->
  digits2_pos ma' = 53%positive -> digits2_pos mb' = 53%positive ->
  -500 <= ea <= 400 -> -500 <= eb <= 400 ->
  -500 <= ea' <= 400 -> -500 <= eb' <= 400 ->
  (F2Q (Zpos ma) ea <= F2Q (Zpos ma') ea')%Q ->
  (F2Q (Zpos mb) eb <= F2Q (Zpos mb') eb')%Q ->
  (value (Float64.mul (S754_finite false ma ea) (S754_finite false mb eb))
   <= value (Float64.mul (S754_finite false ma' ea')
                         (S754_finite false mb' eb')))%Q.
Proof.
  intros Ha Hb Ha' Hb' Hea Heb Hea' Heb' Hva Hvb. rewrite !mul_finite.
  destruct (mul_product ma mb ea eb Ha Hb) as [Hd Hr].
  destruct (mul_product ma' mb' ea' eb' Ha' Hb') as [Hd' Hr'].
  simpl xorb.
  apply (binary_round_aux_mono (Zpos (ma * mb)) (ea + eb) loc_Exact
           (Zpos (ma' * mb')) (ea' + eb') loc_Exact
           (F2Q (Zpos ma) ea * F2Q (Zpos mb) eb)
           (F2Q (Zpos ma') ea' * F2Q (Zpos mb') eb'));
    try lia; try assumption.
  pose proof (F2Q_pos (Zpos ma) ea ltac:(lia)).
  pose proof (F2Q_pos (Zpos mb) eb ltac:(lia)).
  pose proof (F2Q_pos (Zpos ma') ea' ltac:(lia)).
  pose proof (F2Q_pos (Zpos mb') eb' ltac:(lia)).
  apply Qle_trans with (F2Q (Zpos ma) ea * F2Q (Zpos mb') eb')%Q.
  - rewrite !(Qmult_comm (F2Q (Zpos ma) ea)).
    apply Qmult_le_compat_r; lra.
  - apply Qmult_le_compat_r; lra.
Qed.

(** The product of two normal numbers is normal. *)
Lemma mul_normal (sa sb : bool) (ma mb : positive) (ea eb : Z) :
  digits2_pos ma = 53%positive -> digits2_pos mb = 53%positive ->
  -500 <= ea <= 400 -> -500 <= eb <= 400 ->
  normal (xorb sa sb) (ea + eb + 52) (ea + eb + 54)
         (Float64.mul (S754_finite sa ma ea) (S754_finite sb mb eb)).
Proof.
  intros Ha Hb Hea Heb. rewrite mul_finite.
  destruct (mul_product ma mb ea eb Ha Hb) as [Hd Hr].
  assert (Hn : normal (xorb sa sb)
                 (ea + eb + (Zdigits2 (Zpos (ma * mb)) - 53))
                 (ea + eb + (Zdigits2 (Zpos (ma * mb)) - 53) + 1)
                 (binary_round_aux Float64.prec Float64.emax (xorb sa sb)
                    (Zpos (ma * mb)) (ea + eb) loc_Exact))
    by (apply (binary_round_aux_normal _ _ _ _
                 (F2Q (Zpos ma) ea * F2Q (Zpos mb) eb));
        try lia; assumption).
  destruct (binary_round_aux _ _ _ _ _ _); try contradiction.
  unfold normal in *. destruct Hn as [H1 [H2 H3]].
  repeat split; try assumption; lia.
Qed.

(** ** Division *)

(** The location computed from a remainder [r] of a division by [d]
    compares [2 * r] with [d]. *)
Lemma new_location_spec (d r : Z) :
  0 < d -> 0 <= r < d ->
  match new_location d r with
  | loc_Exact => r = 0
  | loc_Inexact Lt => 0 < r /\ 2 * r < d
  | loc_Inexact Eq => 0 < r /\ 2 * r = d
  | loc_Inexact Gt => d < 2 * r
  end.
Proof.
  intros Hd Hr. unfold new_location, new_location_even, new_location_odd.
  change IntDef.Z.even with Z.even; change IntDef.Z.eqb with Z.eqb;
    change IntDef.Z.compare with Z.compare;
    change IntDef.Z.mul with Z.mul; change IntDef.Z.add with Z.add.
  destruct (Z.even d) eqn:Heven.
  - destruct (Z.eqb_spec r 0); [assumption|].
    destruct (Z.compare_spec (2 * r) d); lia.
  - destruct (Z.eqb_spec r 0); [assumption|].
    assert (Hodd : Z.odd d = true)
      by (rewrite <- Z.negb_even, Heven; reflexivity).
    apply Z.odd_spec in Hodd. destruct Hodd as [k Hk].
    destruct (Z.compare_spec (2 * r + 1) d); lia.
Qed.

Lemma div_eucl_div_mod (a b : Z) : Z.div_eucl a b = (a / b, a mod b).
Proof.
  unfold Z.div, Z.modulo. now destruct (Z.div_eucl a b).
Qed.

(** The quotient and remainder the division hands to the rounding step. *)
Lemma div_core (ma mb : positive) (ea eb : Z) :
  digits2_pos ma = 53%positive -> digits2_pos mb = 53%positive ->
  -500 <= ea <= 400 -> -500 <= eb <= 400 ->
  SFdiv_core_binary Float64.prec Float64.emax (Zpos ma) ea (Zpos mb) eb
  = ((Zpos ma * 2 ^ 53) / Zpos mb, ea - eb - 53,
     new_location (Zpos mb) ((Zpos ma * 2 ^ 53) mod Zpos mb)).
Proof.
  intros Ha Hb Hea Heb. unfold SFdiv_core_binary, Zdigits2.
  rewrite Ha, Hb.
  change IntDef.Z.sub with Z.sub; change IntDef.Z.add with Z.add;
    change IntDef.Z.min with Z.min; change IntDef.Z.shiftl with Z.shiftl;
    change IntDef.Z.div_eucl with Z.div_eucl.
  assert (He' : Z.min (fexp Float64.prec Float64.emax (53 + ea - (53 + eb)))
                      (ea - eb)
                = ea - eb - 53).
  { unfold fexp, emin, Float64.prec, Float64.emax.
    change IntDef.Z.sub with Z.sub; change IntDef.Z.max with Z.max. lia. }
  rewrite He'.
  replace (ea - eb - (ea - eb - 53)) with 53 by lia.
  rewrite Z.shiftl_mul_pow2 by lia.
  now rewrite div_eucl_div_mod.
Qed.

(** The quotient has 53 or 54 digits and, with the location of the
    remainder, describes the real quotient. *)
Lemma div_quotient (ma mb : positive) (ea eb : Z) (x : Q) :
  digits2_pos ma = 53%positive -> digits2_pos mb = 53%positive ->
  (x * F2Q (Zpos mb) eb == F2Q (Zpos ma) ea)%Q ->
  let q := (Zpos ma * 2 ^ 53) / Zpos mb in
  let r := (Zpos ma * 2 ^ 53) mod Zpos mb in
  53 <= Zdigits2 q <= 54 /\ 0 < q /\
  represents (shr_record_of_loc q (new_location (Zpos mb) r))
             (ea - eb - 53) x.
Proof.
  intros Ha Hb Hx q r.
  pose proof (mantissa_bounds ma Ha) as Ba.
  pose proof (mantissa_bounds mb Hb) as Bb.
  pose proof (Z.div_mod (Zpos ma * 2 ^ 53) (Zpos mb) ltac:(lia)) as Hdm.
  pose proof (Z.mod_pos_bound (Zpos ma * 2 ^ 53) (Zpos mb) ltac:(lia)) as Hrb.
  fold q in Hdm. fold r in Hdm, Hrb.
  assert (Hq : 2 ^ 52 <= q < 2 ^ 54).
  { change (2 ^ 53) with (2 * 2 ^ 52) in *.
    change (2 ^ 54) with (4 * 2 ^ 52) in *. nia. }
  split; [|split; [lia|]].
  - assert (52 < Zdigits2 q <= 54); [|lia].
    apply Zdigits2_between; lia.
  - unfold represents.
    rewrite loc_of_shr_record_of_loc, shr_m_record_of_loc.
    set (u := pow2 (ea - eb - 53)).
    assert (Hu : (0 < u)%Q) by apply pow2_pos.
    set (t := inject_Z (Zpos mb)).
    assert (Ht : (0 < t)%Q).
    { assert (H : 0 < Zpos mb) by lia. rewrite Zlt_Qlt in H. exact H. }
    (* x * t == (q * t + r) * u *)
    assert (Hxt : (x * t == F2Q q (ea - eb - 53) * t + inject_Z r * u)%Q).
    { assert (Hpe : (0 < pow2 eb)%Q) by apply pow2_pos.
      apply (Qmult_inj_r _ _ (pow2 eb)); [lra|].
      unfold F2Q in Hx. fold t in Hx.
      transitivity (inject_Z (Zpos ma) * pow2 ea)%Q;
        [rewrite <- Hx; ring|].
      replace ea with ((ea - eb - 53) + eb + 53) at 1 by lia.
      rewrite !pow2_add. fold u. rewrite (pow2_nonneg_Z 53) by lia.
      unfold F2Q. fold u.
      transitivity (inject_Z (Zpos ma * 2 ^ 53) * u * pow2 eb)%Q;
        [rewrite inject_Z_mult; ring|].
      rewrite Hdm, inject_Z_plus, inject_Z_mult. fold t. ring. }
    pose proof (new_location_spec (Zpos mb) r ltac:(lia) Hrb) as Hloc.
    set (y := (x - F2Q q (ea - eb - 53))%Q).
    assert (Hy : (y * t == inject_Z r * u)%Q) by (unfold y; lra).
    assert (Hx' : (x == F2Q q (ea - eb - 53) + y)%Q) by (unfold y; ring).
    destruct (new_location (Zpos mb) r) as [|[]]; simpl.
    + subst r. rewrite Hloc in Hy.
      assert (y == 0)%Q; [|lra].
      apply (Qmult_inj_r _ _ t); [lra|]. rewrite Hy. ring.
    + destruct Hloc as [_ Hloc].
      assert (y == (1#2) * u)%Q; [|lra].
      apply (Qmult_inj_r _ _ t); [lra|]. rewrite Hy.
      unfold t. rewrite <- Hloc, inject_Z_mult. ring.
    + destruct Hloc as [H0 Hloc].
      rewrite Zlt_Qlt in H0, Hloc. rewrite inject_Z_mult in Hloc.
      fold t in Hloc.
      assert (0 < y)%Q.
      { apply (Qmult_lt_r _ _ t Ht). rewrite Hy.
        rewrite Qmult_0_l. now apply Qmult_lt_0_compat. }
      assert (y < (1#2) * u)%Q; [|lra].
      apply (Qmult_lt_r _ _ t Ht). rewrite Hy.
      assert ((inject_Z 2 * inject_Z r) * u < t * u)%Q
        by (apply Qmult_lt_compat_r; assumption).
      change (inject_Z 2) with 2%Q in *. lra.
    + rewrite Zlt_Qlt in Hloc. rewrite inject_Z_mult in Hloc.
      fold t in Hloc.
      destruct Hrb as [_ Hrb]. rewrite Zlt_Qlt in Hrb. fold t in Hrb.
      assert ((1#2) * u < y)%Q.
      { apply (Qmult_lt_r _ _ t Ht). rewrite Hy.
        assert (t * u < (inject_Z 2 * inject_Z r) * u)%Q
          by (apply Qmult_lt_compat_r; assumption).
        change (inject_Z 2) with 2%Q in *. lra. }
      assert (y < u)%Q; [|lra].
      apply (Qmult_lt_r _ _ t Ht). rewrite Hy.
      assert (inject_Z r * u < t * u)%Q
        by (apply Qmult_lt_compat_r; assumption).
      lra.
Qed.

(** [SFdiv] on two normal numbers is one rounding step on the integer
    quotient. *)
Lemma div_finite (sa sb : bool) (ma mb : positive) (ea eb : Z) :
  digits2_pos ma = 53%positive -> digits2_pos mb = 53%positive ->
  -500 <= ea <= 400 -> -500 <= eb <= 400 ->
  Float64.div (S754_finite sa ma ea) (S754_finite sb mb eb)
  = binary_round_aux Float64.prec Float64.emax (xorb sa sb)
      ((Zpos ma * 2 ^ 53) / Zpos mb) (ea - eb - 53)
      (new_location (Zpos mb) ((Zpos ma * 2 ^ 53) mod Zpos mb)).
Proof.
  intros Ha Hb Hea Heb. unfold Float64.div, SFdiv.
  now rewrite div_core.
Qed.

(** A quotient that is a 53 digit number is returned exactly. *)
Lemma div_exact (sa sb : bool) (ma mb : positive) (ea eb : Z)
  (M : positive) (F : Z) :
  digits2_pos ma = 53%positive -> digits2_pos mb = 53%positive ->
  -500 <= ea <= 400 -> -500 <= eb <= 400 ->
  digits2_pos M = 53%positive ->
  (F2Q (Zpos M) F * F2Q (Zpos mb) eb == F2Q (Zpos ma) ea)%Q ->
  Float64.div (S754_finite sa ma ea) (S754_finite sb mb eb)
  = S754_finite (xorb sa sb) M F.
Proof.
  intros Ha Hb Hea Heb HM Hv. rewrite div_finite by assumption.
  destruct (div_quotient ma mb ea eb _ Ha Hb Hv) as [Hd [Hq Hr]].
  apply binary_round_aux_exact; try lia; assumption.
Qed.

(** The division of positive normal numbers is monotone in the numerator. *)
Lemma div_mono (ma ma' mb : positive) (ea ea' eb : Z) :
  digits2_pos ma = 53%positive -> digits2_pos ma' = 53%positive ->
  digits2_pos mb = 53%positive ->
  -500 <= ea <= 400 -> -500 <= ea' <= 400 -> -500 <= eb <= 400 ->
  (F2Q (Zpos ma) ea <= F2Q (Zpos ma') ea')%Q ->
  (value (Float64.div (S754_finite false ma ea) (S754_finite false mb eb))
   <= value (Float64.div (S754_finite false ma' ea')
                         (S754_finite false mb eb)))%Q.
Proof.
  intros Ha Ha' Hb Hea Hea' Heb Hv. rewrite !div_finite by assumption.
  pose proof (F2Q_pos (Zpos mb) eb ltac:(lia)) as Hpb.
  set (x := (F2Q (Zpos ma) ea / F2Q (Zpos mb) eb)%Q).
  set (y := (F2Q (Zpos ma') ea' / F2Q (Zpos mb) eb)%Q).
  assert (Hx : (x * F2Q (Zpos mb) eb == F2Q (Zpos ma) ea)%Q)
    by (unfold x; field; lra).
  assert (Hy : (y * F2Q (Zpos mb) eb == F2Q (Zpos ma') ea')%Q)
    by (unfold y; field; lra).
  destruct (div_quotient ma mb ea eb x Ha Hb Hx) as [Hd [Hq Hr]].
  destruct (div_quotient ma' mb ea' eb y Ha' Hb Hy) as [Hd' [Hq' Hr']].
  simpl xorb.
  apply (binary_round_aux_mono
           ((Zpos ma * 2 ^ 53) / Zpos mb) (ea - eb - 53)
           (new_location (Zpos mb) ((Zpos ma * 2 ^ 53) mod Zpos mb))
           ((Zpos ma' * 2 ^ 53) / Zpos mb) (ea' - eb - 53)
           (new_location (Zpos mb) ((Zpos ma' * 2 ^ 53) mod Zpos mb))
           x y); try lia; try assumption.
  apply (Qmult_le_r _ _ (F2Q (Zpos mb) eb) Hpb). now rewrite Hx, Hy.
Qed.

(** The quotient of two normal numbers is normal. *)
Lemma div_normal (sa sb : bool) (ma mb : positive) (ea eb : Z) :
  digits2_pos ma = 53%positive -> digits2_pos mb = 53%positive ->
  -500 <= ea <= 400 -> -500 <= eb <= 400 ->
  normal (xorb sa sb) (ea - eb - 53) (ea - eb - 51)
         (Float64.div (S754_finite sa ma ea) (S754_finite sb mb eb)).
Proof.
  intros Ha Hb Hea Heb. rewrite div_finite by assumption.
  pose proof (F2Q_pos (Zpos mb) eb ltac:(lia)) as Hpb.
  set (x := (F2Q (Zpos ma) ea / F2Q (Zpos mb) eb)%Q).
  assert (Hx : (x * F2Q (Zpos mb) eb == F2Q (Zpos ma) ea)%Q)
    by (unfold x; field; lra).
  destruct (div_quotient ma mb ea eb x Ha Hb Hx) as [Hd [Hq Hr]].
  set (q := (Zpos ma * 2 ^ 53) / Zpos mb) in *.
  set (l := new_location (Zpos mb) ((Zpos ma * 2 ^ 53) mod Zpos mb)) in *.
  assert (Hn : normal (xorb sa sb)
                 (ea - eb - 53 + (Zdigits2 q - 53))
                 (ea - eb - 53 + (Zdigits2 q - 53) + 1)
                 (binary_round_aux Float64.prec Float64.emax (xorb sa sb) q
                    (ea - eb - 53) l))
    by (apply (binary_round_aux_normal _ _ _ _ x); try lia; assumption).
  destruct (binary_round_aux _ _ _ _ _ _); try contradiction.
  unfold normal in *. destruct Hn as [H1 [H2 H3]].
  repeat split; try assumption; lia.
Qed.

(** ** Conversions between [int] and [float64] *)

(** A non-zero integer below [2 ^ 53] converts to the normal number of
    the same value. *)
Lemma of_int_nonzero (v : Z) :
  v <> 0 -> Z.abs v < 2 ^ 53 ->
  exists m j,
    Float64.of_int v = S754_finite (v <? 0) m (- j) /\
    digits2_pos m = 53%positive /\
    0 <= j <= 52 /\
    Zpos m = Z.abs v * 2 ^ j.
Proof.
  intros Hv Hb. unfold Float64.of_int, binary_normalize.
  destruct v as [|p|p]; [congruence| |].
  - apply binary_round_int.
    assert (52 < 53 + 0) by lia.
    pose proof (digits2_pos_bounds p) as [Hlo _].
    destruct (Z.leb_spec (Zpos (digits2_pos p)) 53); [assumption|].
    assert (2 ^ 53 <= 2 ^ (Zpos (digits2_pos p) - 1))
      by (apply Z.pow_le_mono_r; lia).
    simpl Z.abs in Hb. lia.
  - apply binary_round_int.
    pose proof (digits2_pos_bounds p) as [Hlo _].
    destruct (Z.leb_spec (Zpos (digits2_pos p)) 53); [assumption|].
    assert (2 ^ 53 <= 2 ^ (Zpos (digits2_pos p) - 1))
      by (apply Z.pow_le_mono_r; lia).
    simpl Z.abs in Hb. lia.
Qed.

(** The rounded magnitude of an integer is the integer. *)
Lemma round_magnitude_int (m : positive) (a j : Z) :
  0 <= j -> Zpos m = a * 2 ^ j -> Float64.round_magnitude m (- j) = a.
Proof.
  intros Hj Hm. unfold Float64.round_magnitude.
  destruct (Z.leb_spec 0 (- j)) as [H|H].
  - assert (j = 0) by lia. subst j. simpl in *. lia.
  - rewrite Hm. replace (- - j - 1) with (j - 1) by lia.
    rewrite Z.opp_involutive.
    assert (Hp : 0 < 2 ^ j) by (apply Z.pow_pos_nonneg; lia).
    assert (Hh : 0 <= 2 ^ (j - 1) < 2 ^ j).
    { split; [apply Z.pow_nonneg; lia|].
      apply Z.pow_lt_mono_r; lia. }
    rewrite Z.div_add_l by lia. rewrite Z.div_small by lia. lia.
Qed.

(** Below exponent 0 the rounded magnitude of a normal number is at most
    [2 ^ 52]. *)
Lemma round_magnitude_bounds (m : positive) (e : Z) :
  digits2_pos m = 53%positive -> e < 0 ->
  0 <= Float64.round_magnitude m e <= 2 ^ 52.
Proof.
  intros Hm He. unfold Float64.round_magnitude.
  destruct (Z.leb_spec 0 e); [lia|].
  pose proof (mantissa_bounds m Hm) as Hb.
  set (j := - e). assert (Hj : 1 <= j) by (unfold j; lia).
  replace (- e - 1) with (j - 1) by (unfold j; lia).
  assert (Hp : 2 ^ j = 2 * 2 ^ (j - 1)).
  { replace j with (Z.succ (j - 1)) at 1 by lia.
    apply Z.pow_succ_r. lia. }
  assert (Hh : 1 <= 2 ^ (j - 1)).
  { pose proof (Z.pow_pos_nonneg 2 (j - 1)). lia. }
  split.
  - apply Z.div_pos; lia.
  - apply Z.div_le_upper_bound; [lia|].
    change (2 ^ 53) with (2 * 2 ^ 52) in Hb. nia.
Qed.

(** [int(std::round(x))] of a normal number is its magnitude rounded
    half away from zero, with its sign. *)
Lemma to_int_round (s : bool) (m : positive) (e : Z) :
  digits2_pos m = 53%positive ->
  Float64.to_int (Float64.round (S754_finite s m e))
  = cond_Zopp s (Float64.round_magnitude m e).
Proof.
  intros Hm. unfold Float64.round.
  destruct (Z.leb_spec 0 e) as [He|He].
  - unfold Float64.to_int, Float64.round_magnitude.
    destruct (Z.leb_spec 0 e); [reflexivity|lia].
  - pose proof (round_magnitude_bounds m e Hm He) as Hk.
    set (k := Float64.round_magnitude m e) in *.
    destruct (Z.eqb_spec k 0) as [->|Hk0].
    + simpl. now destruct s.
    + assert (Hkp : 0 < k) by lia.
      destruct k as [|p|p]; try lia.
      assert (Hd : Zpos (digits2_pos p) <= 53).
      { pose proof (digits2_pos_bounds p) as [Hlo _].
        destruct (Z.leb_spec (Zpos (digits2_pos p)) 53); [assumption|].
        assert (2 ^ 53 <= 2 ^ (Zpos (digits2_pos p) - 1))
          by (apply Z.pow_le_mono_r; lia).
        change (2 ^ 53) with (2 * 2 ^ 52) in *. lia. }
      destruct (binary_round_int s p Hd) as [m' [j [Hr [_ [Hj Hm']]]]].
      assert (Hn : binary_normalize Float64.prec Float64.emax
                     (cond_Zopp s (Zpos p)) 0 s
                   = S754_finite s m' (- j)).
      { destruct s; simpl; exact Hr. }
      rewrite Hn. unfold Float64.to_int. f_equal.
      destruct (Z.leb_spec 0 (- j)).
      * assert (j = 0) by lia. subst j. simpl in *. lia.
      * rewrite Z.opp_involutive, Hm'.
        apply Z.div_mul. pose proof (Z.pow_pos_nonneg 2 j). lia.
Qed.

(** The rounded magnitude is the integer nearest to the value. *)
Lemma round_magnitude_spec (m : positive) (e : Z) :
  (inject_Z (Float64.round_magnitude m e) - (1#2) <= F2Q (Zpos m) e
   /\ F2Q (Zpos m) e < inject_Z (Float64.round_magnitude m e) + (1#2))%Q.
Proof.
  unfold Float64.round_magnitude.
  destruct (Z.leb_spec 0 e) as [He|He].
  - assert (Hval : (F2Q (Zpos m) e == inject_Z (Zpos m * 2 ^ e))%Q).
    { rewrite <- F2Q_zero_exp, <- (F2Q_shift (Zpos m) 0 e He).
      now rewrite Z.add_0_l. }
    rewrite Hval. lra.
  - set (j := - e). assert (Hj : 1 <= j) by (unfold j; lia).
    replace (- e - 1) with (j - 1) by (unfold j; lia).
    replace e with (- j) by (unfold j; lia).
    assert (Hp : 2 ^ j = 2 * 2 ^ (j - 1)).
    { replace j with (Z.succ (j - 1)) at 1 by lia.
      apply Z.pow_succ_r. lia. }
    assert (Hh : 1 <= 2 ^ (j - 1)).
    { pose proof (Z.pow_pos_nonneg 2 (j - 1)). lia. }
    set (h := 2 ^ (j - 1)) in *.
    pose proof (Z.div_mod (Zpos m + h) (2 ^ j) ltac:(lia)) as Hdm.
    pose proof (Z.mod_pos_bound (Zpos m + h) (2 ^ j) ltac:(lia)) as Hmb.
    set (k := (Zpos m + h) / 2 ^ j) in *.
    set (r := (Zpos m + h) mod 2 ^ j) in *.
    (* value * 2^j == m *)
    set (v := F2Q (Zpos m) (- j)).
    assert (Hv : (v * inject_Z (2 * h) == inject_Z (Zpos m))%Q).
    { unfold v. rewrite <- Hp, <- (pow2_nonneg_Z j) by lia.
      unfold F2Q. rewrite <- Qmult_assoc, <- pow2_add.
      replace (- j + j) with 0 by lia. unfold pow2. simpl. ring. }
    assert (HJ : (0 < inject_Z (2 * h))%Q).
    { assert (H : 0 < 2 * h) by lia. rewrite Zlt_Qlt in H. exact H. }
    assert (Hlo : 2 * h * k <= Zpos m + h) by lia.
    assert (Hhi : Zpos m < 2 * h * k + h) by lia.
    rewrite Zle_Qle in Hlo. rewrite Zlt_Qlt in Hhi.
    rewrite inject_Z_plus, inject_Z_mult in Hlo.
    rewrite inject_Z_plus, inject_Z_mult in Hhi.
    rewrite <- Hv in Hlo, Hhi.
    assert (Hh2 : (inject_Z (2 * h) == 2 * inject_Z h)%Q)
      by (rewrite inject_Z_mult; reflexivity).
    split.
    + apply (Qmult_le_r _ _ _ HJ). lra.
    + apply (Qmult_lt_r _ _ _ HJ). lra.
Qed.

(** The rounded magnitude is monotone in the value. *)
Lemma round_magnitude_mono (m1 m2 : positive) (e1 e2 : Z) :
  (F2Q (Zpos m1) e1 <= F2Q (Zpos m2) e2)%Q ->
  Float64.round_magnitude m1 e1 <= Float64.round_magnitude m2 e2.
Proof.
  intros H.
  pose proof (round_magnitude_spec m1 e1) as [H1 _].
  pose proof (round_magnitude_spec m2 e2) as [_ H2].
  assert (Hlt : (inject_Z (Float64.round_magnitude m1 e1)
                 < inject_Z (Float64.round_magnitude m2 e2 + 1))%Q)
    by (rewrite inject_Z_plus; change (inject_Z 1) with 1%Q; lra).
  rewrite <- Zlt_Qlt in Hlt. lia.
Qed.

Lemma round_magnitude_nonneg (m : positive) (e : Z) :
  0 <= Float64.round_magnitude m e.
Proof.
  pose proof (round_magnitude_spec m e) as [_ H].
  pose proof (F2Q_pos (Zpos m) e ltac:(lia)) as Hp.
  assert (Hlt : (inject_Z (-1) < inject_Z (Float64.round_magnitude m e))%Q)
    by (change (inject_Z (-1)) with (-1)%Q; lra).
  rewrite <- Zlt_Qlt in Hlt. lia.
Qed.

(** ** The factor and the lambda [scale] *)

(** The value of [one]. *)
Lemma one_value : (F2Q (Zpos 4503599627370496) (-52) == 1)%Q.
Proof. apply (F2Q_int 4503599627370496 1 52); [lia|reflexivity]. Qed.

(** Zero stays zero, whatever the factor. *)
Lemma scale_zero (factor : Float64.float64) : scale factor 0 = 0.
Proof. destruct factor as [s|s| |s m e]; try destruct s; reflexivity. Qed.

(** With the factor 1 the lambda is the identity on the integers a
    [float64] holds exactly. *)
Lemma scale_one (v : Z) : Z.abs v < 2 ^ 53 -> scale one v = v.
Proof.
  intros Hb. destruct (Z.eq_dec v 0) as [->|Hv]; [apply scale_zero|].
  destruct (of_int_nonzero v Hv Hb) as [m [j [Hof [Hm [Hj Hval]]]]].
  unfold scale, one. rewrite Hof.
  rewrite (mul_exact (v <? 0) false m 4503599627370496 (- j) (-52) m (- j));
    try assumption; try reflexivity; try lia.
  2:{ rewrite one_value. ring. }
  rewrite xorb_false_r, to_int_round by assumption.
  rewrite (round_magnitude_int m (Z.abs v) j) by lia.
  destruct (Z.ltb_spec v 0); simpl; lia.
Qed.

(** The factor of a width against itself is 1. *)
Lemma rescale_factor_self (maxWidth : Z) :
  0 < maxWidth < 2 ^ 53 -> rescale_factor maxWidth maxWidth = one.
Proof.
  intros Hb. unfold rescale_factor.
  destruct (of_int_nonzero maxWidth ltac:(lia) ltac:(lia))
    as [m [j [Hof [Hm [Hj Hval]]]]].
  rewrite Hof.
  rewrite (div_exact _ _ m m (- j) (- j) 4503599627370496 (-52));
    try assumption; try reflexivity; try lia.
  - now destruct (maxWidth <? 0).
  - rewrite one_value. ring.
Qed.

(** The factor of two positive widths is a positive normal number. *)
Lemma rescale_factor_normal (newWidth maxWidth : Z) :
  0 < newWidth < 2 ^ 53 -> 0 < maxWidth < 2 ^ 53 ->
  exists m e,
    rescale_factor newWidth maxWidth = S754_finite false m e /\
    digits2_pos m = 53%positive /\ -105 <= e <= 1.
Proof.
  intros Hn Hm. unfold rescale_factor.
  destruct (of_int_nonzero newWidth ltac:(lia) ltac:(lia))
    as [mn [jn [Hofn [Hmn [Hjn _]]]]].
  destruct (of_int_nonzero maxWidth ltac:(lia) ltac:(lia))
    as [mm [jm [Hofm [Hmm [Hjm _]]]]].
  rewrite Hofn, Hofm.
  pose proof (div_normal (newWidth <? 0) (maxWidth <? 0) mn mm (- jn) (- jm)
                Hmn Hmm ltac:(lia) ltac:(lia)) as Hnorm.
  destruct (Z.ltb_spec newWidth 0); [lia|].
  destruct (Z.ltb_spec maxWidth 0); [lia|].
  destruct (Float64.div _ _) as [| | |s m e]; try contradiction.
  destruct Hnorm as [Hs [Hd He]]. simpl in Hs. subst s.
  exists m, e. repeat split; try assumption; lia.
Qed.

(** A smaller target width gives a smaller (or the same) factor. *)
Lemma rescale_factor_mono (w1 w2 maxWidth : Z) :
  0 < w1 -> w1 <= w2 -> w2 < 2 ^ 53 -> 0 < maxWidth < 2 ^ 53 ->
  (value (rescale_factor w1 maxWidth)
   <= value (rescale_factor w2 maxWidth))%Q.
Proof.
  intros H1 H12 H2 Hm. unfold rescale_factor.
  destruct (of_int_nonzero w1 ltac:(lia) ltac:(lia))
    as [m1 [j1 [Hof1 [Hm1 [Hj1 Hv1]]]]].
  destruct (of_int_nonzero w2 ltac:(lia) ltac:(lia))
    as [m2 [j2 [Hof2 [Hm2 [Hj2 Hv2]]]]].
  destruct (of_int_nonzero maxWidth ltac:(lia) ltac:(lia))
    as [mm [jm [Hofm [Hmm [Hjm _]]]]].
  rewrite Hof1, Hof2, Hofm.
  destruct (Z.ltb_spec w1 0); [lia|].
  destruct (Z.ltb_spec w2 0); [lia|].
  destruct (Z.ltb_spec maxWidth 0); [lia|].
  apply div_mono; try assumption; try lia.
  rewrite (F2Q_int m1 (Z.abs w1) j1), (F2Q_int m2 (Z.abs w2) j2) by lia.
  rewrite <- Zle_Qle. lia.
Qed.

(** For a positive value and a positive normal factor the lambda
    returns the rounded magnitude of the (normal) product. *)
Lemma scale_positive (mf : positive) (ef : Z) (v : Z) :
  digits2_pos mf = 53%positive -> -400 <= ef <= 300 ->
  0 < v < 2 ^ 53 ->
  exists mv jv M E,
    Float64.of_int v = S754_finite false mv (- jv) /\
    digits2_pos mv = 53%positive /\ 0 <= jv <= 52 /\
    (F2Q (Zpos mv) (- jv) == inject_Z v)%Q /\
    Float64.mul (S754_finite false mv (- jv)) (S754_finite false mf ef)
    = S754_finite false M E /\
    digits2_pos M = 53%positive /\
    scale (S754_finite false mf ef) v = Float64.round_magnitude M E.
Proof.
  intros Hmf Hef Hv.
  destruct (of_int_nonzero v ltac:(lia) ltac:(lia))
    as [mv [jv [Hof [Hmv [Hjv Hval]]]]].
  destruct (Z.ltb_spec v 0); [lia|].
  pose proof (mul_normal false false mv mf (- jv) ef Hmv Hmf
                ltac:(lia) ltac:(lia)) as Hn.
  destruct (Float64.mul (S754_finite false mv (- jv))
                        (S754_finite false mf ef))
    as [| | |s M E] eqn:Emul; try contradiction.
  destruct Hn as [Hs [HM HE]]. simpl in Hs. subst s.
  exists mv, jv, M, E. split; [exact Hof|]. split; [exact Hmv|].
  split; [exact Hjv|]. split.
  - apply F2Q_int; lia.
  - split; [exact Emul|]. split; [exact HM|].
    unfold scale. rewrite Hof, Emul. now rewrite to_int_round.
Qed.

(** The lambda is monotone in the factor and in the value, for
    non-negative values. *)
Lemma scale_mono (m1 m2 : positive) (e1 e2 v1 v2 : Z) :
  digits2_pos m1 = 53%positive -> digits2_pos m2 = 53%positive ->
  -400 <= e1 <= 300 -> -400 <= e2 <= 300 ->
  (F2Q (Zpos m1) e1 <= F2Q (Zpos m2) e2)%Q ->
  0 <= v1 -> v1 <= v2 -> v2 < 2 ^ 53 ->
  scale (S754_finite false m1 e1) v1 <= scale (S754_finite false m2 e2) v2.
Proof.
  intros Hm1 Hm2 He1 He2 Hf Hv1 Hv12 Hv2.
  destruct (Z.eq_dec v2 0) as [->|Hv2'].
  { assert (v1 = 0) by lia. subst v1. rewrite !scale_zero. lia. }
  destruct (scale_positive m2 e2 v2 Hm2 He2 ltac:(lia))
    as [mv2 [jv2 [M2 [E2 [Hof2 [Hmv2 [Hjv2 [Hval2 [Hmul2 [HM2 Hs2]]]]]]]]]].
  rewrite Hs2.
  destruct (Z.eq_dec v1 0) as [->|Hv1'].
  { rewrite scale_zero. apply round_magnitude_nonneg. }
  destruct (scale_positive m1 e1 v1 Hm1 He1 ltac:(lia))
    as [mv1 [jv1 [M1 [E1 [Hof1 [Hmv1 [Hjv1 [Hval1 [Hmul1 [HM1 Hs1]]]]]]]]]].
  rewrite Hs1. apply round_magnitude_mono.
  assert (Hmono := mul_mono mv1 m1 mv2 m2 (- jv1) e1 (- jv2) e2
            Hmv1 Hm1 Hmv2 Hm2 ltac:(lia) ltac:(lia) ltac:(lia) ltac:(lia)).
  rewrite Hmul1, Hmul2 in Hmono. simpl in Hmono. apply Hmono.
  - rewrite Hval1, Hval2. rewrite <- Zle_Qle. lia.
  - exact Hf.
Qed.

(** ** Current size, Grid mode *)

(** The model on numbers whose binary64 results are well known: one
    third, and halves that round away from zero. *)
Example float64_examples :
  rescale_factor 1 3 = S754_finite false 6004799503160661 (-54) /\
  scale (rescale_factor 1 2) 1 = 1 /\
  scale (rescale_factor 1 2) (-1) = -1 /\
  scale (rescale_factor 1 2) 3 = 2 /\
  scale (rescale_factor 376 430) 217 = 190 /\
  scale (rescale_factor 376 430) 4 = 3.
Proof. repeat split; vm_compute; reflexivity. Qed.

Section CurrentSizeGrid.

Variable st : Style.

(** Below the grid minimum the call returns at once: height 0, the
    group untouched. *)
Lemma countCurrentSize_degenerate (g : GroupedMedia) (newWidth : Z) :
  _mode g = Grid ->
  Z.min newWidth (maxWidth g) < historyGroupWidthMin st ->
  countCurrentSize st g newWidth
  = (mkSize (Z.min newWidth (maxWidth g)) 0, g).
Proof.
  intros Hmode Hlt. unfold countCurrentSize. rewrite Hmode.
  destruct (Z.ltb_spec (Z.min newWidth (maxWidth g))
                       (historyGroupWidthMin st)); [reflexivity|lia].
Qed.

Lemma grid_loop_parts (factor : Float64.float64) (parts : list Part) :
  forall newHeight,
    fst (grid_loop st factor newHeight parts)
    = map (rescaled st factor) parts.
Proof.
  induction parts as [|part rest IH]; intros newHeight; simpl;
    [reflexivity|].
  specialize (IH (Z.max newHeight
                    (ry (rescale_geometry st factor part)
                     + rheight (rescale_geometry st factor part)))).
  destruct (grid_loop st factor _ rest) as [rest' h'].
  simpl in *. now rewrite IH.
Qed.

Lemma grid_loop_height (factor : Float64.float64) (parts : list Part) :
  forall newHeight,
    snd (grid_loop st factor newHeight parts)
    = max_of (map (fun part => bottom_edge (rescale_geometry st factor part))
                  parts) newHeight.
Proof.
  induction parts as [|part rest IH]; intros newHeight; simpl;
    [reflexivity|].
  specialize (IH (Z.max newHeight
                    (ry (rescale_geometry st factor part)
                     + rheight (rescale_geometry st factor part)))).
  destruct (grid_loop st factor _ rest) as [rest' h'].
  simpl in *. rewrite IH. reflexivity.
Qed.

(** The grid branch of [countCurrentSize], in closed form. *)
Lemma countCurrentSize_grid (g : GroupedMedia) (newWidth : Z) :
  _mode g = Grid ->
  historyGroupWidthMin st <= Z.min newWidth (maxWidth g) ->
  let w := Z.min newWidth (maxWidth g) in
  let factor := rescale_factor w (maxWidth g) in
  countCurrentSize st g newWidth
  = (mkSize w
       (max_of (map (fun part => bottom_edge (rescale_geometry st factor part))
                    (_parts g)) 0
        + caption_extra st (_caption g) (isBubbleBottom g) w),
     set_parts g (map (rescaled st factor) (_parts g))).
Proof.
  intros Hmode Hmin w factor. unfold countCurrentSize. rewrite Hmode.
  fold w.
  destruct (Z.ltb_spec w (historyGroupWidthMin st)); [unfold w in *; lia|].
  fold factor.
  pose proof (grid_loop_parts factor (_parts g) 0) as Hp.
  pose proof (grid_loop_height factor (_parts g) 0) as Hh.
  destruct (grid_loop st factor 0 (_parts g)) as [parts h].
  simpl in *. now rewrite Hp, Hh.
Qed.

Lemma is_int_exact (v : Z) : is_int v -> Z.abs v < 2 ^ 53.
Proof.
  unfold is_int. change (2 ^ 31) with 2147483648.
  change (2 ^ 53) with 9007199254740992. lia.
Qed.

(** With the factor 1 a part gets its initial rectangle back. *)
Lemma rescale_geometry_one (part : Part) :
  is_int (historyGroupSkip st) -> edges_are_int st part ->
  rescale_geometry st one part = initialGeometry part.
Proof.
  intros Hskip [Hx [Hy [Hr Hb]]]. unfold rescale_geometry.
  fold (right_gap st part) (bottom_gap st part).
  fold (initialRight st part) (initialBottom st part).
  rewrite !scale_one by (apply is_int_exact; assumption).
  unfold initialRight, initialBottom, right_gap, bottom_gap.
  destruct (initialGeometry part) as [x y w h]. simpl.
  f_equal.
  - destruct (negb (has_part (sides part) RectPart.Right)); lia.
  - destruct (negb (has_part (sides part) RectPart.Bottom)); lia.
Qed.

(** C1 (as amended): for a Grid group whose natural maxWidth is
    positive and at least the grid minimum width, [countCurrentSize] at
    the natural maxWidth gives every member its [initialGeometry] as
    current geometry (the factor is exactly 1, and scaling by 1 is the
    identity on [int]s); the members' other fields are kept. *)
Theorem countCurrentSize_natural_width (g : GroupedMedia) :
  _mode g = Grid ->
  0 < maxWidth g -> is_int (maxWidth g) ->
  historyGroupWidthMin st <= maxWidth g ->
  is_int (historyGroupSkip st) ->
  (forall part, In part (_parts g) -> edges_are_int st part) ->
  let result := countCurrentSize st g (maxWidth g) in
  sz_width (fst result) = maxWidth g /\
  map geometry (_parts (snd result)) = map initialGeometry (_parts g) /\
  map initialGeometry (_parts (snd result))
  = map initialGeometry (_parts g) /\
  map item (_parts (snd result)) = map item (_parts g) /\
  map sides (_parts (snd result)) = map sides (_parts g).
Proof.
  intros Hmode Hpos Hint Hmin Hskip Hparts result. unfold result.
  rewrite countCurrentSize_grid by (try assumption; lia).
  rewrite Z.min_id.
  rewrite rescale_factor_self
    by (pose proof (is_int_exact _ Hint); lia).
  cbn [fst snd sz_width set_parts _parts]. split; [reflexivity|].
  rewrite !map_map. cbn [rescaled geometry initialGeometry item sides].
  repeat split; try reflexivity.
  apply map_ext_in. intros part Hin.
  apply rescale_geometry_one; [assumption|now apply Hparts].
Qed.

End CurrentSizeGrid.

Lemma countCurrentSize_natural_width_witness :
  let result := countCurrentSize sample_style album_group 430 in
  sz_width (fst result) = 430 /\
  map geometry (_parts (snd result))
  = [mkRect 0 0 213 160; mkRect 217 0 213 160].
Proof.
  destruct (countCurrentSize_natural_width sample_style album_group)
    as [Hw [Hg _]].
  - reflexivity.
  - simpl. lia.
  - unfold is_int. simpl. lia.
  - simpl. lia.
  - unfold is_int. simpl. lia.
  - intros part [<-|[<-|[]]];
      unfold edges_are_int, is_int, initialRight, initialBottom,
        right_gap, bottom_gap; simpl; lia.
  - split; [exact Hw|exact Hg].
Defined.

(** C1 (as stated) fails for a Grid group whose natural maxWidth is
    below the grid minimum: the call returns at once with height 0 and
    leaves the current geometry as it was. *)
Lemma countCurrentSize_below_minimum :
  let result :=
    countCurrentSize sample_style narrow_grid_group
                     (maxWidth narrow_grid_group) in
  _mode narrow_grid_group = Grid /\
  fst result = mkSize 60 0 /\
  map geometry (_parts (snd result)) = [mkRect 0 0 0 0] /\
  map geometry (_parts (snd result))
  <> map initialGeometry (_parts narrow_grid_group).
Proof.
  cbv zeta. split; [reflexivity|]. split; [reflexivity|].
  split; [reflexivity|]. discriminate.
Qed.

Lemma max_of_eq (l : list Z) (floor x : Z) :
  In x l -> floor <= x -> (forall y, In y l -> y <= x) ->
  max_of l floor = x.
Proof.
  intros Hin Hfloor Hall.
  pose proof (max_of_upper l floor x Hin).
  destruct (max_of_attained l floor) as [E|E]; [lia|].
  specialize (Hall _ E). lia.
Qed.

Section RescaleMonotone.

Variable st : Style.

Lemma scale_rescale_mono (w1 w2 maxWidth v1 v2 : Z) :
  0 < w1 -> w1 <= w2 -> w2 < 2 ^ 53 -> 0 < maxWidth < 2 ^ 53 ->
  0 <= v1 -> v1 <= v2 -> v2 < 2 ^ 53 ->
  scale (rescale_factor w1 maxWidth) v1
  <= scale (rescale_factor w2 maxWidth) v2.
Proof.
  intros H1 H12 H2 Hm Hv1 Hv12 Hv2.
  pose proof (rescale_factor_mono w1 w2 maxWidth H1 H12 H2 Hm) as Hmono.
  destruct (rescale_factor_normal w1 maxWidth ltac:(lia) Hm)
    as [m1 [e1 [E1 [Hd1 He1]]]].
  destruct (rescale_factor_normal w2 maxWidth ltac:(lia) Hm)
    as [m2 [e2 [E2 [Hd2 He2]]]].
  rewrite E1, E2 in *. simpl in Hmono.
  apply scale_mono; try assumption; lia.
Qed.

(** The far edge with its gap is what the loop scales. *)
Lemma rescale_geometry_edges (factor : Float64.float64) (part : Part) :
  let r := rescale_geometry st factor part in
  let spacing := scale factor (historyGroupSkip st) in
  rx r = scale factor (rx (initialGeometry part)) /\
  ry r = scale factor (ry (initialGeometry part)) /\
  right_edge r
  + (if has_part (sides part) RectPart.Right then 0 else spacing)
  = scale factor (initialRight st part) /\
  bottom_edge r
  + (if has_part (sides part) RectPart.Bottom then 0 else spacing)
  = scale factor (initialBottom st part).
Proof.
  unfold rescale_geometry, right_edge, bottom_edge, initialRight,
    initialBottom, right_gap, bottom_gap. simpl.
  destruct (has_part (sides part) RectPart.Right),
    (has_part (sides part) RectPart.Bottom); simpl; repeat split; lia.
Qed.

(** C2 (as amended): for a Grid group and target widths
    [w1 <= w2] between the (positive) grid minimum and the natural
    maxWidth, a smaller target width never increases the returned width,
    nor any member's left or top edge, nor its right or bottom edge taken
    with the rescaled gap behind it (for a member touching the right or
    bottom side: the edge itself); and it never increases the height before
    the caption when the lowest initial edge belongs to a member touching
    the bottom side.  (A member's width or height, a difference of
    separately rounded edges, can grow by rounding, and the caption can
    grow when it gets narrower.) *)
Theorem rescale_edges_monotone (g : GroupedMedia) (w1 w2 : Z) :
  _mode g = Grid ->
  0 < historyGroupWidthMin st ->
  historyGroupWidthMin st <= w1 -> w1 <= w2 -> w2 <= maxWidth g ->
  is_int (maxWidth g) ->
  0 <= historyGroupSkip st -> is_int (historyGroupSkip st) ->
  (forall part, In part (_parts g) -> edges_in_range st part) ->
  let r1 := countCurrentSize st g w1 in
  let r2 := countCurrentSize st g w2 in
  let spacing1 :=
    scale (rescale_factor w1 (maxWidth g)) (historyGroupSkip st) in
  let spacing2 :=
    scale (rescale_factor w2 (maxWidth g)) (historyGroupSkip st) in
  sz_width (fst r1) <= sz_width (fst r2) /\
  (forall i p1 p2,
     nth_error (_parts (snd r1)) i = Some p1 ->
     nth_error (_parts (snd r2)) i = Some p2 ->
     sides p1 = sides p2 /\
     rx (geometry p1) <= rx (geometry p2) /\
     ry (geometry p1) <= ry (geometry p2) /\
     right_edge (geometry p1)
     + (if has_part (sides p1) RectPart.Right then 0 else spacing1)
     <= right_edge (geometry p2)
        + (if has_part (sides p2) RectPart.Right then 0 else spacing2) /\
     bottom_edge (geometry p1)
     + (if has_part (sides p1) RectPart.Bottom then 0 else spacing1)
     <= bottom_edge (geometry p2)
        + (if has_part (sides p2) RectPart.Bottom then 0 else spacing2)) /\
  ((exists low, In low (_parts g) /\
                has_part (sides low) RectPart.Bottom = true /\
                forall part, In part (_parts g) ->
                  initialBottom st part <= initialBottom st low) ->
   sz_height (fst r1)
   - caption_extra st (_caption g) (isBubbleBottom g) w1
   <= sz_height (fst r2)
      - caption_extra st (_caption g) (isBubbleBottom g) w2).
Proof.
  intros Hmode Hmin0 Hmin H12 Hmax Hint Hskip0 Hskip Hparts r1 r2 sp1 sp2.
  pose proof (is_int_exact _ Hint) as HM.
  pose proof (is_int_exact _ Hskip) as HS.
  assert (Hw1 : Z.min w1 (maxWidth g) = w1) by lia.
  assert (Hw2 : Z.min w2 (maxWidth g) = w2) by lia.
  unfold r1, r2.
  rewrite !countCurrentSize_grid by (try assumption; lia).
  rewrite Hw1, Hw2. cbn [fst snd sz_width sz_height set_parts _parts].
  set (f1 := rescale_factor w1 (maxWidth g)) in *.
  set (f2 := rescale_factor w2 (maxWidth g)) in *.
  assert (Hscale : forall v1 v2, 0 <= v1 -> v1 <= v2 -> is_int v2 ->
            scale f1 v1 <= scale f2 v2).
  { intros v1 v2 H0 H1 H2. pose proof (is_int_exact _ H2).
    apply scale_rescale_mono; lia. }
  assert (Hsame : forall f v1 v2, f = f1 \/ f = f2 ->
            0 <= v1 -> v1 <= v2 -> is_int v2 -> scale f v1 <= scale f v2).
  { intros f v1 v2 Hf H0 H1 H2. pose proof (is_int_exact _ H2).
    destruct Hf as [-> | ->]; apply scale_rescale_mono; lia. }
  split; [lia|]. split.
  - intros i p1 p2 Hp1 Hp2.
    rewrite nth_error_map in Hp1, Hp2.
    destruct (nth_error (_parts g) i) as [part|] eqn:Ei; [|discriminate].
    injection Hp1 as <-. injection Hp2 as <-.
    pose proof (Hparts part (nth_error_In _ _ Ei))
      as [Hx [Hy [Hr [Hb [Ix [Iy [Ir Ib]]]]]]].
    destruct (rescale_geometry_edges f1 part) as [A1 [B1 [C1 D1]]].
    destruct (rescale_geometry_edges f2 part) as [A2 [B2 [C2 D2]]].
    cbn [rescaled geometry sides].
    split; [reflexivity|].
    fold sp1 in C1, D1. fold sp2 in C2, D2.
    rewrite A1, A2, B1, B2, C1, C2, D1, D2.
    repeat split; apply Hscale; try assumption; lia.
  - intros [low [Hin [Hbot Hall]]].
    assert (Hheight : forall f, f = f1 \/ f = f2 ->
              max_of (map (fun part => bottom_edge
                             (rescale_geometry st f part)) (_parts g)) 0
              = scale f (initialBottom st low)).
    { intros f Hf.
      pose proof (Hparts low Hin) as [_ [_ [_ [Hb [_ [_ [_ Ib]]]]]]].
      destruct (rescale_geometry_edges f low) as [_ [_ [_ Dl]]].
      rewrite Hbot, Z.add_0_r in Dl.
      apply max_of_eq.
      - rewrite <- Dl. apply in_map_iff. now exists low.
      - rewrite <- (scale_zero f). apply Hsame; try assumption; lia.
      - intros y Hy. apply in_map_iff in Hy.
        destruct Hy as [part [<- Hpin]].
        pose proof (Hparts part Hpin) as [_ [_ [_ [Hpb _]]]].
        destruct (rescale_geometry_edges f part) as [_ [_ [_ Dp]]].
        assert (0 <= scale f (historyGroupSkip st)).
        { rewrite <- (scale_zero f) at 1.
          apply Hsame; try assumption; lia. }
        assert (scale f (initialBottom st part)
                <= scale f (initialBottom st low))
          by (apply Hsame; try assumption; try lia; now apply Hall).
        destruct (has_part (sides part) RectPart.Bottom); lia. }
    rewrite (Hheight f1) by now left. rewrite (Hheight f2) by now right.
    pose proof (Hparts low Hin) as [_ [_ [_ [Hb [_ [_ [_ Ib]]]]]]].
    assert (scale f1 (initialBottom st low) <= scale f2 (initialBottom st low))
      by (apply Hscale; try assumption; lia).
    lia.
Qed.

End RescaleMonotone.

Lemma rescale_edges_monotone_witness :
  let r1 := countCurrentSize sample_style album_group 376 in
  let r2 := countCurrentSize sample_style album_group 377 in
  sz_width (fst r1) <= sz_width (fst r2) /\
  sz_height (fst r1)
  - caption_extra sample_style (_caption album_group)
      (isBubbleBottom album_group) 376
  <= sz_height (fst r2)
     - caption_extra sample_style (_caption album_group)
         (isBubbleBottom album_group) 377.
Proof.
  destruct (rescale_edges_monotone sample_style album_group 376 377)
    as [Hw [_ Hh]].
  - reflexivity.
  - simpl. lia.
  - simpl. lia.
  - lia.
  - simpl. lia.
  - unfold is_int. simpl. lia.
  - simpl. lia.
  - unfold is_int. simpl. lia.
  - intros part [<-|[<-|[]]];
      unfold edges_in_range, edges_are_int, is_int, initialRight,
        initialBottom, right_gap, bottom_gap; simpl; lia.
  - split; [exact Hw|]. apply Hh.
    exists (mkPart 1 (createView (sample_photo 1 800 600))
              (Z.lor RectPart.Left (Z.lor RectPart.Top RectPart.Bottom))
              (mkRect 0 0 213 160) (mkRect 0 0 213 160)).
    split; [now left|]. split; [reflexivity|].
    intros part [<-|[<-|[]]];
      unfold initialBottom, bottom_gap; simpl; lia.
Defined.

(** C2 (as stated) fails on an album of two photos, between the grid
    minimum 100 and the natural width 430: going from 377 down to 376 the
    left photo gets wider (186 to 187), and going from 226 down to 225 the
    group gets higher (117 to 137) because the caption wraps. *)
Lemma rescale_not_monotone :
  let at_width w := countCurrentSize sample_style album_group w in
  historyGroupWidthMin sample_style <= 225 /\
  377 <= maxWidth album_group /\
  map (fun part => rwidth (geometry part)) (_parts (snd (at_width 376)))
  = [187; 186] /\
  map (fun part => rwidth (geometry part)) (_parts (snd (at_width 377)))
  = [186; 187] /\
  sz_height (fst (at_width 225)) = 137 /\
  sz_height (fst (at_width 226)) = 117.
Proof.
  cbv zeta. split; [simpl; lia|]. split; [simpl; lia|].
  repeat split; vm_compute; reflexivity.
Qed.

(** * Further properties *)

(** ** Construction *)

(** The rebuild loop once the mode is chosen, as one equation: it fails
    when an accepted candidate cannot be grouped and appends the parts of
    all accepted candidates otherwise. *)
Lemma applyGroup_loop_chosen_eq (medias : list Media) :
  forall mode parts created,
    applyGroup_loop medias true mode parts created
    = if forallb canBeGrouped (of_mode mode medias)
      then Some (mode, parts ++ map built_Part (of_mode mode medias),
                 created ++ map createView (of_mode mode medias))
      else None.
Proof.
  induction medias as [|media rest IH]; intros mode parts created.
  - cbn. now rewrite !app_nil_r.
  - cbn [applyGroup_loop of_mode filter negb orb].
    destruct (Mode_eqb (DetectMode media) mode) eqn:E.
    + apply Mode_eqb_eq in E. rewrite E.
      cbn [forallb map]. unfold new_Part.
      destruct (canBeGrouped media); cbn [andb]; [|reflexivity].
      rewrite IH. fold (of_mode mode rest). fold (built_Part media).
      destruct (forallb canBeGrouped (of_mode mode rest)); [|reflexivity].
      cbn [content]. now rewrite <- !app_assoc.
    + apply IH.
Qed.

(** The whole rebuild loop as one equation. *)
Lemma applyGroup_loop_eq (medias : list Media) (mode : Mode)
  (parts : list Part) (created : list Content) :
  applyGroup_loop medias false mode parts created
  = if forallb canBeGrouped (accepted_medias medias)
    then Some (match medias with
               | [] => mode
               | first :: _ => DetectMode first
               end,
               parts ++ map built_Part (accepted_medias medias),
               created ++ map createView (accepted_medias medias))
    else None.
Proof.
  destruct medias as [|first rest].
  - cbn. now rewrite !app_nil_r.
  - cbn [applyGroup_loop accepted_medias of_mode filter negb orb].
    rewrite Mode_eqb_refl. cbn [forallb map]. unfold new_Part.
    destruct (canBeGrouped first); cbn [andb]; [|reflexivity].
    rewrite applyGroup_loop_chosen_eq.
    fold (of_mode (DetectMode first) rest). fold (built_Part first).
    destruct (forallb canBeGrouped (of_mode (DetectMode first) rest));
      [|reflexivity].
    cbn [content]. now rewrite <- !app_assoc.
Qed.

(** A failed validation leaves something to do: a member to keep or a
    candidate to look at. *)
Lemma validate_false_nonempty (g : GroupedMedia) (medias : list Media) :
  validateGroupParts g medias = false -> _parts g <> [] \/ medias <> [].
Proof.
  intros Hv. destruct medias as [|m rest]; [|right; discriminate].
  left. intros Hp. unfold validateGroupParts in Hv. rewrite Hp in Hv.
  discriminate.
Qed.

(** The first candidate is always accepted. *)
Lemma accepted_medias_cons (first : Media) (rest : list Media) :
  accepted_medias (first :: rest)
  = first :: of_mode (DetectMode first) rest.
Proof.
  cbn [accepted_medias of_mode filter]. now rewrite Mode_eqb_refl.
Qed.

Lemma accepted_medias_incl (medias : list Media) (media : Media) :
  In media (accepted_medias medias) -> In media medias.
Proof.
  destruct medias as [|first rest]; [intros []|].
  unfold accepted_medias, of_mode. intros H.
  apply filter_In in H. apply H.
Qed.

Lemma accepted_medias_length (medias : list Media) :
  (length (accepted_medias medias) <= length medias)%nat.
Proof.
  destruct medias as [|first rest]; [apply Nat.le_refl|].
  unfold accepted_medias, of_mode. apply filter_length_le.
Qed.

(** [applyGroup] after a failed validation, as one equation. *)
Lemma applyGroup_rebuild_eq (g : GroupedMedia) (medias : list Media) :
  validateGroupParts g medias = false ->
  applyGroup g medias
  = if forallb canBeGrouped (accepted_medias medias)
       && (length (_parts g) + length (accepted_medias medias)
           <=? kMaxSize)%nat
    then Some (true,
               set_mode_parts g
                 (match medias with
                  | [] => _mode g
                  | first :: _ => DetectMode first
                  end)
                 (_parts g ++ map built_Part (accepted_medias medias)),
               map createView (accepted_medias medias))
    else None.
Proof.
  intros Hv. unfold applyGroup. rewrite Hv, applyGroup_loop_eq.
  destruct (forallb canBeGrouped (accepted_medias medias));
    cbn [andb]; [|reflexivity].
  rewrite app_nil_l.
  assert (Hlen : length (_parts g ++ map built_Part (accepted_medias medias))
                 = (length (_parts g) + length (accepted_medias medias))%nat)
    by now rewrite length_app, length_map.
  destruct (_parts g ++ map built_Part (accepted_medias medias))
    as [|p l] eqn:Hparts.
  - exfalso. apply app_eq_nil in Hparts. destruct Hparts as [Hp Ha].
    destruct (validate_false_nonempty g medias Hv) as [H|H];
      [now apply H|].
    destruct medias as [|first rest]; [now apply H|].
    rewrite accepted_medias_cons in Ha. discriminate.
  - rewrite Hlen. reflexivity.
Qed.

(** X1.  [validateGroupParts] accepts a candidate sequence exactly when
    it has as many candidates as the group has members and every
    candidate's parent is the item of the member at its position. *)
Theorem validateGroupParts_iff (g : GroupedMedia) (medias : list Media) :
  validateGroupParts g medias = true <->
  length medias = length (_parts g) /\
  forall i media part,
    nth_error medias i = Some media -> nth_error (_parts g) i = Some part ->
    parent media = item part.
Proof.
  rewrite validateGroupParts_spec. generalize (_parts g) as parts.
  induction medias as [|m rest IH]; intros [|p parts]; cbn [map length].
  - split; [intros _; split; [reflexivity|]|reflexivity].
    intros [|i] ? ? H; discriminate.
  - split; [discriminate|intros [H _]; discriminate].
  - split; [discriminate|intros [H _]; discriminate].
  - split.
    + intros [= Hh Ht]. apply IH in Ht. destruct Ht as [Hl Hall].
      split; [now rewrite Hl|].
      intros [|i] media part Hm Hp; cbn in Hm, Hp.
      * injection Hm as <-. injection Hp as <-. exact Hh.
      * eapply Hall; eassumption.
    + intros [Hl Hall]. f_equal.
      * apply (Hall 0%nat); reflexivity.
      * apply IH. split; [now injection Hl|].
        intros i media part Hm Hp. apply (Hall (S i)); assumption.
Qed.

(** X2.  [applyGroup] only appends: whatever it returns, the members it
    found are a prefix of the members it leaves, the appended members are
    the parts of groupable candidates of the given sequence, the content
    delegates it constructed are exactly those of the appended members,
    and the caption and the measured sizes are untouched. *)
Theorem applyGroup_appends (g g' : GroupedMedia) (medias : list Media)
  (r : bool) (created : list Content) :
  applyGroup g medias = Some (r, g', created) ->
  exists added,
    _parts g' = _parts g ++ map built_Part added /\
    created = map createView added /\
    (forall media, In media added ->
       In media medias /\ canBeGrouped media = true) /\
    _caption g' = _caption g /\ maxWidth g' = maxWidth g /\
    width g' = width g /\ height g' = height g.
Proof.
  intros H. destruct (validateGroupParts g medias) eqn:Hv.
  - unfold applyGroup in H. rewrite Hv in H. injection H as <- <- <-.
    exists []. cbn [map]. rewrite app_nil_r.
    split; [reflexivity|]. split; [reflexivity|].
    split; [intros ? []|]. repeat split.
  - rewrite (applyGroup_rebuild_eq g medias Hv) in H.
    destruct (forallb canBeGrouped (accepted_medias medias)) eqn:Hall;
      [|discriminate].
    cbn [andb] in H.
    destruct (length (_parts g) + length (accepted_medias medias)
              <=? kMaxSize)%nat; [|discriminate].
    injection H as <- <- <-. exists (accepted_medias medias).
    repeat split; try reflexivity.
    + now apply accepted_medias_incl.
    + rewrite forallb_forall in Hall. now apply Hall.
Qed.

Lemma applyGroup_appends_witness :
  exists added,
    _parts (set_mode_parts file_group Grid
              (_parts file_group ++ [built_Part (sample_photo 7 800 600)]))
    = _parts file_group ++ map built_Part added /\
    [createView (sample_photo 7 800 600)] = map createView added.
Proof.
  destruct (applyGroup_appends file_group
              (set_mode_parts file_group Grid
                 (_parts file_group ++ [built_Part (sample_photo 7 800 600)]))
              [sample_photo 7 800 600] true
              [createView (sample_photo 7 800 600)])
    as [added [Hp [Hc _]]].
  - reflexivity.
  - exists added. split; assumption.
Defined.

(** X3.  [applyGroup] never returns [false]: when it returns at all it
    returns [true], so its [return false] cannot be reached.  It leaves
    the group without members only when there was no member before and
    no candidate was given, and after a rebuild the group has at most
    [kMaxSize] members. *)
Theorem applyGroup_returns_true (g g' : GroupedMedia) (medias : list Media)
  (r : bool) (created : list Content) :
  applyGroup g medias = Some (r, g', created) ->
  r = true /\
  (_parts g' = [] <-> _parts g = [] /\ medias = []) /\
  (validateGroupParts g medias = false ->
   (length (_parts g') <= kMaxSize)%nat).
Proof.
  intros H. destruct (validateGroupParts g medias) eqn:Hv.
  - unfold applyGroup in H. rewrite Hv in H. injection H as <- <- <-.
    split; [reflexivity|]. split; [|discriminate].
    apply validateGroupParts_spec in Hv. split.
    + intros Hp. split; [exact Hp|]. rewrite Hp in Hv.
      now destruct medias.
    + now intros [Hp _].
  - rewrite (applyGroup_rebuild_eq g medias Hv) in H.
    destruct (forallb canBeGrouped (accepted_medias medias));
      [|discriminate].
    cbn [andb] in H.
    destruct (length (_parts g) + length (accepted_medias medias)
              <=? kMaxSize)%nat eqn:Hle; [|discriminate].
    injection H as <- <- <-. cbn [set_mode_parts _parts].
    split; [reflexivity|]. split; [split|].
    + intros Hnil. apply app_eq_nil in Hnil. destruct Hnil as [Hp Ha].
      split; [exact Hp|]. destruct medias as [|first rest]; [reflexivity|].
      rewrite accepted_medias_cons in Ha. discriminate.
    + intros [Hp Hm]. exfalso.
      destruct (validate_false_nonempty g medias Hv); contradiction.
    + intros _. apply Nat.leb_le in Hle.
      now rewrite length_app, length_map.
Qed.

Lemma applyGroup_returns_true_witness :
  applyGroup fresh_group [sample_file 1 300 40; sample_photo 2 800 600]
  = Some (true,
          set_mode_parts fresh_group Column
            [built_Part (sample_file 1 300 40)],
          [createView (sample_file 1 300 40)]) /\
  true = true.
Proof.
  split; [reflexivity|].
  exact (proj1 (applyGroup_returns_true fresh_group _
                  [sample_file 1 300 40; sample_photo 2 800 600] true
                  [createView (sample_file 1 300 40)] eq_refl)).
Defined.

(** X4.  [applyGroup] aborts on an assertion exactly when the validation
    fails and either a candidate of the first candidate's mode cannot be
    grouped ([Assert] in [Part]'s constructor) or the members together
    with the accepted candidates are more than [kMaxSize] ([Ensures]).
    A candidate of another mode that cannot be grouped does no harm. *)
Theorem applyGroup_aborts_iff (g : GroupedMedia) (medias : list Media) :
  applyGroup g medias = None <->
  validateGroupParts g medias = false /\
  ((exists media, In media (accepted_medias medias) /\
                  canBeGrouped media = false) \/
   (kMaxSize < length (_parts g) + length (accepted_medias medias))%nat).
Proof.
  destruct (validateGroupParts g medias) eqn:Hv.
  - unfold applyGroup. rewrite Hv. split; [discriminate|].
    intros [H _]. discriminate.
  - rewrite (applyGroup_rebuild_eq g medias Hv).
    destruct (forallb canBeGrouped (accepted_medias medias)) eqn:Hall;
      cbn [andb].
    + rewrite forallb_forall in Hall.
      destruct (length (_parts g) + length (accepted_medias medias)
                <=? kMaxSize)%nat eqn:Hle.
      * apply Nat.leb_le in Hle. split; [discriminate|].
        intros [_ [[media [Hin Hno]]|Hgt]].
        -- rewrite (Hall media Hin) in Hno. discriminate.
        -- exfalso. apply (Nat.lt_irrefl kMaxSize).
           eapply Nat.lt_le_trans; eassumption.
      * apply Nat.leb_gt in Hle. split; [|reflexivity].
        intros _. split; [reflexivity|]. now right.
    + split; [|reflexivity]. intros _. split; [reflexivity|]. left.
      destruct (forallb_forall canBeGrouped (accepted_medias medias))
        as [_ Hback].
      destruct (existsb (fun m => negb (canBeGrouped m))
                        (accepted_medias medias)) eqn:Hex.
      * apply existsb_exists in Hex. destruct Hex as [media [Hin Hno]].
        exists media. split; [exact Hin|].
        now destruct (canBeGrouped media).
      * exfalso. rewrite Hback in Hall; [discriminate|].
        intros media Hin. destruct (canBeGrouped media) eqn:Hc;
          [reflexivity|].
        assert (Hex' : existsb (fun m => negb (canBeGrouped m))
                         (accepted_medias medias) = true).
        { apply existsb_exists. exists media. split; [exact Hin|].
          now rewrite Hc. }
        rewrite Hex' in Hex. discriminate.
Qed.

(** [back] of a mapped vector. *)
Lemma back_map {A B} (f : A -> B) (v : list A) :
  back (map f v) = option_map f (back v).
Proof.
  induction v as [|x [|y rest] IH]; [reflexivity|reflexivity|].
  exact IH.
Qed.

(** A non-empty vector has a last element, and it is one of its
    elements. *)
Lemma back_In {A} (v : list A) :
  v <> [] -> exists x, back v = Some x /\ In x v.
Proof.
  induction v as [|x [|y rest] IH]; intros Hne.
  - now contradiction Hne.
  - exists x. split; [reflexivity|now left].
  - destruct IH as [z [Hz Hin]]; [discriminate|].
    exists z. split; [exact Hz|now right].
Qed.

(** The constructor on an object without members, as one equation. *)
Lemma construct_eq (initial : GroupedMedia) (first : Media)
  (rest : list Media) :
  _parts initial = [] ->
  let accepted := accepted_medias (firstn kMaxSize (first :: rest)) in
  construct initial (first :: rest)
  = if forallb canBeGrouped accepted
    then Some (set_mode_parts initial (DetectMode first)
                 (map built_Part accepted))
    else None.
Proof.
  intros Hp accepted. unfold construct.
  assert (Hv : validateGroupParts initial (firstn kMaxSize (first :: rest))
               = false).
  { unfold validateGroupParts. rewrite Hp. reflexivity. }
  rewrite (applyGroup_rebuild_eq _ _ Hv). fold accepted. rewrite Hp.
  assert (Hle : (length accepted <= kMaxSize)%nat).
  { eapply Nat.le_trans; [apply accepted_medias_length|].
    apply firstn_le_length. }
  apply Nat.leb_le in Hle. cbn [length Nat.add app]. rewrite Hle.
  rewrite andb_true_r.
  destruct (forallb canBeGrouped accepted); reflexivity.
Qed.

(** X5.  The constructors, on an object that has no member yet and at
    least one candidate: only the first [kMaxSize] candidates are looked
    at; construction aborts exactly when one of them that has the first
    candidate's mode cannot be grouped (its [Ensures] never fires); and
    the constructed group has the first candidate's mode and, in order,
    one member per accepted candidate: at least the first candidate and
    at most [kMaxSize] members. *)
Theorem construct_members (initial : GroupedMedia) (first : Media)
  (rest : list Media) :
  _parts initial = [] ->
  let accepted := accepted_medias (firstn kMaxSize (first :: rest)) in
  (construct initial (first :: rest) = None <->
   exists media, In media accepted /\ canBeGrouped media = false) /\
  (forall g, construct initial (first :: rest) = Some g ->
     _mode g = DetectMode first /\
     _parts g = map built_Part accepted /\
     (exists others, _parts g = built_Part first :: others) /\
     (length (_parts g) <= kMaxSize)%nat).
Proof.
  intros Hp accepted. rewrite (construct_eq initial first rest Hp).
  fold accepted.
  assert (Hle : (length accepted <= kMaxSize)%nat).
  { eapply Nat.le_trans; [apply accepted_medias_length|].
    apply firstn_le_length. }
  assert (Hfirst : accepted
                   = first :: of_mode (DetectMode first)
                                      (firstn (pred kMaxSize) rest)).
  { unfold accepted. change (firstn kMaxSize (first :: rest))
      with (first :: firstn (pred kMaxSize) rest).
    apply accepted_medias_cons. }
  destruct (forallb canBeGrouped accepted) eqn:Hall.
  - rewrite forallb_forall in Hall. split.
    + split; [discriminate|]. intros [media [Hin Hno]].
      rewrite (Hall media Hin) in Hno. discriminate.
    + intros g [= <-]. cbn [set_mode_parts _mode _parts].
      split; [reflexivity|]. split; [reflexivity|]. split.
      * rewrite Hfirst. cbn [map]. eexists. reflexivity.
      * now rewrite length_map.
  - split; [|intros g H; discriminate].
    split; [|reflexivity]. intros _.
    destruct (existsb (fun m => negb (canBeGrouped m)) accepted) eqn:Hex.
    + apply existsb_exists in Hex. destruct Hex as [media [Hin Hno]].
      exists media. split; [exact Hin|]. now destruct (canBeGrouped media).
    + exfalso. assert (Hyes : forallb canBeGrouped accepted = true).
      { apply forallb_forall. intros media Hin.
        destruct (canBeGrouped media) eqn:Hc; [reflexivity|].
        assert (Hex' : existsb (fun m => negb (canBeGrouped m)) accepted
                       = true).
        { apply existsb_exists. exists media. split; [exact Hin|].
          now rewrite Hc. }
        rewrite Hex' in Hex. discriminate. }
      rewrite Hyes in Hall. discriminate.
Qed.

Lemma construct_members_witness :
  _parts fresh_group = [] /\
  (forall g,
     construct fresh_group
       [sample_file 1 300 40; sample_photo 2 800 600; sample_file 3 280 56]
     = Some g ->
     _mode g = Column /\
     _parts g = [built_Part (sample_file 1 300 40);
                 built_Part (sample_file 3 280 56)]).
Proof.
  split; [reflexivity|]. intros g H.
  destruct (construct_members fresh_group (sample_file 1 300 40)
              [sample_photo 2 800 600; sample_file 3 280 56] eq_refl)
    as [_ Hsome].
  destruct (Hsome g H) as [Hm [Hparts _]]. split; assumption.
Defined.

Section MainFacts.

Variable TextWithEntities : Type.
Variable SharedMediaTypesMask : Type.
Variable PhotoData : Type.
Variable content_getCaption : Content -> TextWithEntities.
Variable content_sharedMediaTypes : Content -> SharedMediaTypesMask.
Variable content_getPhoto : Content -> option PhotoData.
Variable content_getDocument : Content -> option DocumentData.

(** X6.  [main()] of a constructed group is the content delegate of the
    last accepted candidate: the last one among the first [kMaxSize]
    candidates that has the first candidate's mode.  [getCaption],
    [sharedMediaTypes], [getPhoto] and [getDocument] all return, without
    an abort, what that one delegate answers. *)
Theorem main_after_construct (initial g : GroupedMedia) (first : Media)
  (rest : list Media) :
  _parts initial = [] ->
  construct initial (first :: rest) = Some g ->
  exists media,
    back (accepted_medias (firstn kMaxSize (first :: rest))) = Some media /\
    In media (first :: rest) /\
    DetectMode media = DetectMode first /\
    main g = Some (createView media) /\
    getCaption TextWithEntities content_getCaption g
    = Some (content_getCaption (createView media)) /\
    sharedMediaTypes SharedMediaTypesMask content_sharedMediaTypes g
    = Some (content_sharedMediaTypes (createView media)) /\
    getPhoto PhotoData content_getPhoto g
    = Some (content_getPhoto (createView media)) /\
    getDocument content_getDocument g
    = Some (content_getDocument (createView media)).
Proof.
  intros Hp H. rewrite (construct_eq initial first rest Hp) in H.
  set (accepted := accepted_medias (firstn kMaxSize (first :: rest))) in *.
  destruct (forallb canBeGrouped accepted); [|discriminate].
  injection H as <-.
  assert (Hfirst : accepted
                   = first :: of_mode (DetectMode first)
                                      (firstn (pred kMaxSize) rest)).
  { unfold accepted. change (firstn kMaxSize (first :: rest))
      with (first :: firstn (pred kMaxSize) rest).
    apply accepted_medias_cons. }
  destruct (back_In accepted) as [media [Hback Hin]].
  { rewrite Hfirst. discriminate. }
  assert (Hmain : main (set_mode_parts initial (DetectMode first)
                          (map built_Part accepted))
                  = Some (createView media)).
  { unfold main. cbn [set_mode_parts _parts].
    rewrite back_map, Hback. rewrite Hfirst. reflexivity. }
  exists media. split; [exact Hback|]. split; [|split].
  - apply accepted_medias_incl in Hin.
    rewrite <- (firstn_skipn kMaxSize (first :: rest)).
    apply in_or_app. now left.
  - unfold accepted in Hin.
    change (firstn kMaxSize (first :: rest))
      with (first :: firstn (pred kMaxSize) rest) in Hin.
    unfold accepted_medias in Hin. now apply of_mode_In in Hin.
  - unfold getCaption, sharedMediaTypes, getPhoto, getDocument.
    rewrite Hmain. repeat split.
Qed.

End MainFacts.

Lemma main_after_construct_witness :
  exists g,
    construct fresh_group
      [sample_file 1 300 40; sample_file 3 280 56; sample_photo 2 800 600]
    = Some g /\
    main g = Some (createView (sample_file 3 280 56)) /\
    getCaption Z (fun c => parent (content_media c)) g = Some 3 /\
    getDocument (fun c => document (content_media c)) g
    = Some (Some (mkDocument false)).
Proof.
  eexists. split; [reflexivity|].
  destruct (main_after_construct Z unit unit
              (fun c => parent (content_media c)) (fun _ => tt)
              (fun _ => None) (fun c => document (content_media c))
              fresh_group _ (sample_file 1 300 40)
              [sample_file 3 280 56; sample_photo 2 800 600]
              eq_refl eq_refl)
    as [media [Hback [_ [_ [Hmain [Hcap [_ [_ Hdoc]]]]]]]].
  assert (Hm : media = sample_file 3 280 56)
    by (vm_compute in Hback; now injection Hback).
  rewrite Hm in Hmain, Hcap, Hdoc.
  split; [exact Hmain|]. split; [exact Hcap|exact Hdoc].
Defined.

(** ** Caption owner *)

Section CaptionOwner.

Variable emptyText : Item -> bool.
Variable createCaption : Item -> Caption.

(** Once the lambda has found an item with text, a second one makes it
    give up. *)
Lemma captionItem_loop_found (parts : list Part) (found : Item) :
  captionItem_loop emptyText parts (Some found)
  = match with_text emptyText parts with
    | [] => Some found
    | _ => None
    end.
Proof.
  induction parts as [|part rest IH]; [reflexivity|].
  cbn [captionItem_loop with_text filter].
  destruct (negb (emptyText (item part))); [reflexivity|exact IH].
Qed.

Lemma captionItem_loop_start (parts : list Part) :
  captionItem_loop emptyText parts None
  = match with_text emptyText parts with
    | [part] => Some (item part)
    | _ => None
    end.
Proof.
  induction parts as [|part rest IH]; [reflexivity|].
  cbn [captionItem_loop with_text filter].
  destruct (negb (emptyText (item part))); [|exact IH].
  rewrite captionItem_loop_found. fold (with_text emptyText rest).
  now destruct (with_text emptyText rest).
Qed.

(** X7.  In Grid mode the caption is taken from a member exactly when
    that member is the only one whose item has text; when no member or
    more than one member has text there is no caption item. *)
Theorem captionItem_grid (g : GroupedMedia) :
  _mode g = Grid ->
  captionItem emptyText g
  = Some (match with_text emptyText (_parts g) with
          | [part] => Some (item part)
          | _ => None
          end).
Proof.
  intros Hm. unfold captionItem. rewrite Hm.
  now rewrite captionItem_loop_start.
Qed.

(** X8.  [updateNeedBubbleState] keeps the members and the mode; the
    caption is either left as it was or replaced by the caption created
    for the item of a member that has text (in Column mode: of the last
    member); and the group needs a bubble whenever it is in Column mode
    or ends up with a non-empty caption. *)
Theorem updateNeedBubbleState_effect (g g' : GroupedMedia)
  (p : ParentFlags) (needBubble : bool) :
  updateNeedBubbleState emptyText createCaption g p = Some (g', needBubble) ->
  _parts g' = _parts g /\ _mode g' = _mode g /\
  (g' = g \/
   exists part, In part (_parts g) /\ emptyText (item part) = false /\
     g' = set_caption g (createCaption (item part)) /\
     (_mode g = Column -> back (_parts g) = Some part)) /\
  (_mode g = Column -> needBubble = true) /\
  (isEmpty (_caption g') = false -> needBubble = true).
Proof.
  unfold updateNeedBubbleState.
  destruct (captionItem emptyText g) as [found|] eqn:Hc; [|discriminate].
  intros [= <- <-].
  assert (Hkeep : _parts (match found with
                          | Some captionItem =>
                              set_caption g (createCaption captionItem)
                          | None => g
                          end) = _parts g /\
                  _mode (match found with
                         | Some captionItem =>
                             set_caption g (createCaption captionItem)
                         | None => g
                         end) = _mode g)
    by (destruct found; split; reflexivity).
  destruct Hkeep as [Hparts Hmode].
  split; [exact Hparts|]. split; [exact Hmode|]. split; [|split].
  - destruct found as [found|]; [right|now left].
    unfold captionItem in Hc. destruct (_mode g) eqn:Hm.
    + injection Hc as Hc. rewrite captionItem_loop_start in Hc.
      destruct (with_text emptyText (_parts g)) as [|part [|? ?]] eqn:Hw;
        try discriminate.
      injection Hc as <-. exists part.
      assert (Hin : In part (with_text emptyText (_parts g)))
        by (rewrite Hw; now left).
      apply filter_In in Hin. destruct Hin as [Hin Ht].
      split; [exact Hin|]. split; [now destruct (emptyText (item part))|].
      split; [reflexivity|discriminate].
    + destruct (back (_parts g)) as [last|] eqn:Hb; [|discriminate].
      injection Hc as Hc.
      destruct (emptyText (item last)) eqn:Ht; [discriminate|].
      injection Hc as <-. exists last.
      destruct (back_Some _ _ Hb) as [front Hf].
      split; [rewrite Hf; apply in_or_app; right; now left|].
      split; [exact Ht|]. split; reflexivity.
  - intros Hcol. unfold computeNeedBubble. rewrite Hmode, Hcol.
    cbn [Mode_eqb]. now rewrite orb_true_r.
  - intros He. unfold computeNeedBubble. rewrite He. reflexivity.
Qed.

End CaptionOwner.

Lemma captionItem_grid_witness :
  _mode album_group = Grid /\
  captionItem text_on_2 album_group = Some (Some 2).
Proof.
  split; [reflexivity|].
  exact (captionItem_grid text_on_2 album_group eq_refl).
Defined.

Lemma updateNeedBubbleState_effect_witness :
  updateNeedBubbleState text_on_2 sample_createCaption
    (set_caption album_group no_caption) plain_parent
  = Some (set_caption album_group (sample_createCaption 2), true) /\
  _parts (set_caption album_group (sample_createCaption 2))
  = _parts album_group.
Proof.
  split; [reflexivity|].
  destruct (updateNeedBubbleState_effect text_on_2 sample_createCaption
              (set_caption album_group no_caption)
              (set_caption album_group (sample_createCaption 2))
              plain_parent true eq_refl) as [Hparts _].
  exact Hparts.
Defined.

(** ** Corner rounding *)

(** A flag is one bit. *)
Lemma has_part_bit (sides : RectParts) (k : Z) :
  0 <= k -> has_part sides (2 ^ k) = Z.testbit sides k.
Proof.
  intros Hk. unfold has_part.
  assert (H : Z.land sides (2 ^ k)
              = if Z.testbit sides k then 2 ^ k else 0).
  { apply Z.bits_inj'. intros n Hn.
    rewrite Z.land_spec, Z.pow2_bits_eqb by exact Hk.
    destruct (Z.eqb_spec k n) as [->|Hne].
    - rewrite andb_true_r. destruct (Z.testbit sides n) eqn:E.
      + now rewrite Z.pow2_bits_eqb, Z.eqb_refl.
      + now rewrite Z.bits_0.
    - rewrite andb_false_r. destruct (Z.testbit sides k).
      + rewrite Z.pow2_bits_eqb by exact Hk.
        symmetry. now apply Z.eqb_neq.
      + now rewrite Z.bits_0. }
  rewrite H. destruct (Z.testbit sides k); [|reflexivity].
  assert (0 < 2 ^ k) by (apply Z.pow_pos_nonneg; lia).
  destruct (Z.eqb_spec (2 ^ k) 0); [lia|reflexivity].
Qed.

(** [result &= ~(a | b)] for two flags: both bits go, the others stay. *)
Lemma clear_two_bits (result a b n : Z) :
  0 <= a -> 0 <= b -> 0 <= n ->
  Z.testbit (Z.land result (Z.lnot (Z.lor (2 ^ a) (2 ^ b)))) n
  = Z.testbit result n && negb ((a =? n) || (b =? n)).
Proof.
  intros Ha Hb Hn.
  rewrite Z.land_spec, Z.lnot_spec, Z.lor_spec by exact Hn.
  now rewrite !Z.pow2_bits_eqb by assumption.
Qed.

Section CornersFacts.

Variable GetCornersFromSides : RectParts -> RectParts.

(** The bits of the result of [cornersFromSides]. *)
Lemma cornersFromSides_bits (g : GroupedMedia) (b : BubbleState)
  (sides : RectParts) (n : Z) :
  0 <= n ->
  Z.testbit (cornersFromSides GetCornersFromSides g b sides) n
  = Z.testbit (GetCornersFromSides sides) n
    && (isBubbleTop b || negb ((0 =? n) || (2 =? n)))
    && (isRoundedInBubbleBottom b && isEmpty (_caption g)
        || negb ((6 =? n) || (8 =? n))).
Proof.
  intros Hn. unfold cornersFromSides.
  change RectPart.TopLeft with (2 ^ 0).
  change RectPart.TopRight with (2 ^ 2).
  change RectPart.BottomLeft with (2 ^ 6).
  change RectPart.BottomRight with (2 ^ 8).
  destruct (isBubbleTop b), (isRoundedInBubbleBottom b),
    (isEmpty (_caption g));
    cbn [negb orb andb];
    rewrite ?clear_two_bits by lia;
    rewrite ?clear_two_bits by lia;
    rewrite ?andb_true_r; reflexivity.
Qed.

(** X9.  [cornersFromSides] only removes corners from what
    [Ui::GetCornersFromSides] reports: the two top corners survive only
    when the group is the top of its bubble, the two bottom corners only
    when the group is rounded at the bubble bottom and has no caption,
    and no other flag is changed. *)
Theorem cornersFromSides_corners (g : GroupedMedia) (b : BubbleState)
  (sides : RectParts) :
  let corners := GetCornersFromSides sides in
  let result := cornersFromSides GetCornersFromSides g b sides in
  let bottom := isRoundedInBubbleBottom b && isEmpty (_caption g) in
  has_part result RectPart.TopLeft
  = has_part corners RectPart.TopLeft && isBubbleTop b /\
  has_part result RectPart.TopRight
  = has_part corners RectPart.TopRight && isBubbleTop b /\
  has_part result RectPart.BottomLeft
  = has_part corners RectPart.BottomLeft && bottom /\
  has_part result RectPart.BottomRight
  = has_part corners RectPart.BottomRight && bottom /\
  (forall part,
     In part [RectPart.Top; RectPart.Left; RectPart.Center; RectPart.Right;
              RectPart.Bottom] ->
     has_part result part = has_part corners part) /\
  subset_parts result corners.
Proof.
  cbv zeta.
  change RectPart.TopLeft with (2 ^ 0).
  change RectPart.TopRight with (2 ^ 2).
  change RectPart.BottomLeft with (2 ^ 6).
  change RectPart.BottomRight with (2 ^ 8).
  change RectPart.Top with (2 ^ 1).
  change RectPart.Left with (2 ^ 3).
  change RectPart.Center with (2 ^ 4).
  change RectPart.Right with (2 ^ 5).
  change RectPart.Bottom with (2 ^ 7).
  repeat split.
  1-4: rewrite !has_part_bit, cornersFromSides_bits by lia;
       cbn [Z.eqb Pos.eqb orb negb];
       rewrite ?orb_false_r, ?orb_true_r, ?andb_true_r; reflexivity.
  - intros part Hin. cbn [In] in Hin.
    destruct Hin as [<-|[<-|[<-|[<-|[<-|[]]]]]];
      rewrite !has_part_bit, cornersFromSides_bits by lia;
      cbn [Z.eqb Pos.eqb orb negb];
      now rewrite ?orb_true_r, ?andb_true_r.
  - unfold subset_parts. apply Z.bits_inj'. intros n Hn.
    rewrite Z.land_spec, cornersFromSides_bits by exact Hn.
    destruct (Z.testbit (GetCornersFromSides sides) n);
      cbn [andb]; [now rewrite andb_true_r|reflexivity].
Qed.

End CornersFacts.

Lemma cornersFromSides_corners_witness :
  let all := Z.lor (Z.lor RectPart.Left RectPart.Right)
                   (Z.lor RectPart.Top RectPart.Bottom) in
  sample_corners all = Z.lor RectPart.TopLeft RectPart.BottomRight /\
  has_part (cornersFromSides sample_corners hit_group (mkBubble true true) all)
           RectPart.TopLeft = true /\
  has_part (cornersFromSides sample_corners hit_group (mkBubble true true) all)
           RectPart.BottomRight = false.
Proof.
  cbv zeta. split; [reflexivity|].
  destruct (cornersFromSides_corners sample_corners hit_group
              (mkBubble true true)
              (Z.lor (Z.lor RectPart.Left RectPart.Right)
                     (Z.lor RectPart.Top RectPart.Bottom)))
    as [Htl [_ [_ [Hbr _]]]].
  split; [rewrite Htl|rewrite Hbr]; reflexivity.
Defined.

(** ** Hit test of the members *)

Section PartStateFacts.

Variable StateRequest : Type.
Variable getStateGrouped :
  Content -> QRect -> RectParts -> QPoint -> StateRequest -> bool -> TextState.

(** The loop stops at the first member that contains the point. *)
Lemma getPartState_loop_spec (partsCount : nat) (point : QPoint)
  (request : StateRequest) (parts : list Part) :
  forall index,
    match getPartState_loop StateRequest getStateGrouped partsCount index
                            parts point request with
    | None =>
        forall part, In part parts ->
                     rect_contains (geometry part) point = false
    | Some result =>
        exists i part,
          nth_error parts i = Some part /\
          rect_contains (geometry part) point = true /\
          (forall j before, (j < i)%nat -> nth_error parts j = Some before ->
             rect_contains (geometry before) point = false) /\
          result
          = set_itemId
              (getStateGrouped (content part) (geometry part) (sides part)
                 point request (Nat.eqb (S (index + i)) partsCount))
              (item part)
    end.
Proof.
  induction parts as [|part rest IH]; intros index.
  - intros part [].
  - cbn [getPartState_loop].
    destruct (rect_contains (geometry part) point) eqn:Hc.
    + exists 0%nat, part. rewrite Nat.add_0_r.
      split; [reflexivity|]. split; [exact Hc|]. split; [|reflexivity].
      intros j before Hj. inversion Hj.
    + specialize (IH (S index)).
      destruct (getPartState_loop StateRequest getStateGrouped partsCount
                  (S index) rest point request) as [result|].
      * destruct IH as [i [hit [Hn [Hhit [Hfirst Hres]]]]].
        exists (S i), hit. split; [exact Hn|]. split; [exact Hhit|].
        split.
        -- intros [|j] before Hj Hb; cbn in Hb.
           ++ now injection Hb as <-.
           ++ apply (Hfirst j); [now apply Nat.succ_lt_mono|exact Hb].
        -- rewrite Hres. now rewrite Nat.add_succ_r.
      * intros other [<-|Hin]; [exact Hc|now apply IH].
Qed.

(** X10.  [getPartState] answers with the first member, in member order,
    whose current rectangle contains the point: it is that member's
    delegate state, asked with [last] set only for the final member, and
    stamped with that member's item.  When no member contains the point
    the answer is the bare state of the parent's item. *)
Theorem getPartState_first_hit (g : GroupedMedia) (parentItem : Item)
  (point : QPoint) (request : StateRequest) :
  let result :=
    getPartState StateRequest getStateGrouped g parentItem point request in
  ((forall part, In part (_parts g) ->
                 rect_contains (geometry part) point = false) /\
   result = TextState_of parentItem) \/
  (exists i part,
     nth_error (_parts g) i = Some part /\
     rect_contains (geometry part) point = true /\
     (forall j before, (j < i)%nat -> nth_error (_parts g) j = Some before ->
        rect_contains (geometry before) point = false) /\
     result
     = set_itemId
         (getStateGrouped (content part) (geometry part) (sides part)
            point request (Nat.eqb (S i) (length (_parts g))))
         (item part)).
Proof.
  cbv zeta. unfold getPartState.
  pose proof (getPartState_loop_spec (length (_parts g)) point request
                (_parts g) 0) as H.
  destruct (getPartState_loop StateRequest getStateGrouped
              (length (_parts g)) 0 (_parts g) point request) as [result|].
  - right. exact H.
  - left. split; [exact H|reflexivity].
Qed.

(** X11.  [pointState] and [getPartState] agree: where [pointState]
    reports a group part, [getPartState] names the item of a member that
    contains the point; where it reports the inside of the group without
    a part, [getPartState] falls back to the parent's item. *)
Theorem pointState_getPartState (g : GroupedMedia) (parentItem : Item)
  (point : QPoint) (request : StateRequest) :
  let result :=
    getPartState StateRequest getStateGrouped g parentItem point request in
  (pointState g point = GroupPart ->
   exists part, In part (_parts g) /\
     rect_contains (geometry part) point = true /\
     itemId result = item part) /\
  (pointState g point = Inside -> result = TextState_of parentItem).
Proof.
  cbv zeta. unfold pointState, getPartState.
  pose proof (getPartState_loop_spec (length (_parts g)) point request
                (_parts g) 0) as H.
  destruct (negb (rect_contains (mkRect 0 0 (width g) (height g)) point));
    [split; discriminate|].
  destruct (existsb (fun part => rect_contains (geometry part) point)
                    (_parts g)) eqn:Hex.
  - split; [intros _|discriminate].
    destruct (getPartState_loop StateRequest getStateGrouped
                (length (_parts g)) 0 (_parts g) point request) as [result|].
    + destruct H as [i [part [Hn [Hc [_ Hres]]]]]. exists part.
      split; [eapply nth_error_In; exact Hn|]. split; [exact Hc|].
      rewrite Hres. reflexivity.
    + apply existsb_exists in Hex. destruct Hex as [part [Hin Hc]].
      rewrite (H part Hin) in Hc. discriminate.
  - split; [discriminate|intros _].
    destruct (getPartState_loop StateRequest getStateGrouped
                (length (_parts g)) 0 (_parts g) point request) as [result|];
      [|reflexivity].
    destruct H as [i [part [Hn [Hc _]]]]. exfalso.
    assert (Hex' : existsb (fun part => rect_contains (geometry part) point)
                           (_parts g) = true).
    { apply existsb_exists. exists part.
      split; [eapply nth_error_In; exact Hn|exact Hc]. }
    rewrite Hex' in Hex. discriminate.
Qed.

End PartStateFacts.

Lemma pointState_getPartState_witness :
  pointState hit_group (mkPoint 10 10) = GroupPart /\
  pointState hit_group (mkPoint 10 60) = Inside /\
  (exists part, In part (_parts hit_group) /\
     itemId (getPartState unit sample_state hit_group 9 (mkPoint 10 10) tt)
     = item part) /\
  getPartState unit sample_state hit_group 9 (mkPoint 10 60) tt
  = TextState_of 9.
Proof.
  split; [reflexivity|]. split; [reflexivity|]. split.
  - destruct (pointState_getPartState unit sample_state hit_group 9
                (mkPoint 10 10) tt) as [Hpart _].
    destruct (Hpart eq_refl) as [part [Hin [_ Hid]]].
    exists part. split; assumption.
  - destruct (pointState_getPartState unit sample_state hit_group 9
                (mkPoint 10 60) tt) as [_ Hinside].
    exact (Hinside eq_refl).
Defined.

(** ** Resizing *)

Section ResizeFacts.

Variable st : Style.

(** The rescaled rectangle is computed from the sides and the initial
    geometry alone. *)
Lemma rescale_geometry_input (factor : Float64.float64) (a b : Part) :
  sides a = sides b -> initialGeometry a = initialGeometry b ->
  rescale_geometry st factor a = rescale_geometry st factor b.
Proof.
  intros Hs Hg. unfold rescale_geometry. now rewrite Hs, Hg.
Qed.

Lemma grid_loop_input (factor : Float64.float64) (parts : list Part) :
  forall parts' newHeight,
    map resize_input parts = map resize_input parts' ->
    grid_loop st factor newHeight parts
    = grid_loop st factor newHeight parts'.
Proof.
  induction parts as [|a rest IH]; intros [|b rest'] newHeight H;
    try discriminate; [reflexivity|].
  cbn [map] in H. unfold resize_input at 1 3 in H.
  injection H as Hi Hc Hs Hg Hrest.
  cbn [grid_loop].
  rewrite (rescale_geometry_input factor a b Hs Hg), Hi, Hc, Hs, Hg.
  now rewrite (IH rest' _ Hrest).
Qed.

Lemma column_loop_input (newWidth : Z) (partsCount : nat)
  (parts : list Part) :
  forall parts' index top,
    map resize_input parts = map resize_input parts' ->
    column_loop newWidth partsCount index top parts
    = column_loop newWidth partsCount index top parts'.
Proof.
  induction parts as [|a rest IH]; intros [|b rest'] index top H;
    try discriminate; [reflexivity|].
  cbn [map] in H. unfold resize_input at 1 3 in H.
  injection H as Hi Hc Hs Hg Hrest.
  cbn [column_loop]. rewrite Hi, Hc, Hs, Hg.
  now rewrite (IH rest' _ _ Hrest).
Qed.

Lemma grid_loop_keeps_input (factor : Float64.float64) (parts : list Part) :
  forall newHeight,
    map resize_input (fst (grid_loop st factor newHeight parts))
    = map resize_input parts.
Proof.
  induction parts as [|a rest IH]; intros newHeight; [reflexivity|].
  cbn [grid_loop]. specialize (IH (Z.max newHeight
    (ry (rescale_geometry st factor a) + rheight (rescale_geometry st factor a)))).
  destruct (grid_loop st factor _ rest) as [rest' h'].
  cbn [fst map] in *. now rewrite IH.
Qed.

Lemma column_loop_keeps_input (newWidth : Z) (partsCount : nat)
  (parts : list Part) :
  forall index top,
    map resize_input (fst (column_loop newWidth partsCount index top parts))
    = map resize_input parts.
Proof.
  induction parts as [|a rest IH]; intros index top; [reflexivity|].
  cbn [column_loop].
  specialize (IH (S index)
    (top + sz_height (sizeForGrouping (content a) newWidth
                        (Nat.eqb (S index) partsCount)))).
  destruct (column_loop newWidth partsCount (S index) _ rest) as [rest' t'].
  cbn [fst map] in *. now rewrite IH.
Qed.

(** A resize replaces the members by members with the same item,
    delegate, sides and initial geometry, and nothing else. *)
Lemma countCurrentSize_shape (g : GroupedMedia) (newWidth : Z) :
  exists parts,
    snd (countCurrentSize st g newWidth) = set_parts g parts /\
    map resize_input parts = map resize_input (_parts g).
Proof.
  unfold countCurrentSize. destruct (_mode g).
  - destruct (Z.min newWidth (maxWidth g) <? historyGroupWidthMin st).
    + exists (_parts g). split; [now destruct g|reflexivity].
    + pose proof (grid_loop_keeps_input
                    (rescale_factor (Z.min newWidth (maxWidth g)) (maxWidth g))
                    (_parts g) 0) as H.
      destruct (grid_loop st _ 0 (_parts g)) as [parts h].
      exists parts. split; [reflexivity|exact H].
  - pose proof (column_loop_keeps_input (Z.min newWidth (maxWidth g))
                  (length (_parts g)) (_parts g) 0 0) as H.
    destruct (column_loop _ _ 0 0 (_parts g)) as [parts t].
    exists parts. split; [reflexivity|exact H].
Qed.

(** A resize reads nothing of the members' current geometry. *)
Lemma countCurrentSize_input (g : GroupedMedia) (parts : list Part)
  (newWidth : Z) :
  map resize_input parts = map resize_input (_parts g) ->
  fst (countCurrentSize st (set_parts g parts) newWidth)
  = fst (countCurrentSize st g newWidth) /\
  (_mode g = Column \/
   historyGroupWidthMin st <= Z.min newWidth (maxWidth g) ->
   snd (countCurrentSize st (set_parts g parts) newWidth)
   = snd (countCurrentSize st g newWidth)).
Proof.
  intros H. unfold countCurrentSize.
  cbn [set_parts _mode _parts _caption maxWidth isBubbleBottom].
  destruct (_mode g) eqn:Hm.
  - destruct (Z.min newWidth (maxWidth g) <? historyGroupWidthMin st) eqn:E.
    + split; [reflexivity|]. intros [Hc|Hge]; [discriminate|].
      apply Z.ltb_lt in E. lia.
    + rewrite (grid_loop_input _ parts (_parts g) 0 H).
      destruct (grid_loop st _ 0 (_parts g)) as [parts' h].
      split; [reflexivity|]. intros _. reflexivity.
  - assert (Hlen : length parts = length (_parts g)).
    { apply (f_equal (@length _)) in H. now rewrite !length_map in H. }
    rewrite Hlen, (column_loop_input _ _ parts (_parts g) 0 0 H).
    destruct (column_loop _ _ 0 0 (_parts g)) as [parts' t].
    split; [reflexivity|]. intros _. reflexivity.
Qed.

(** X12.  A resize does not depend on the resizes before it: measuring
    at [w2] after a resize to [w1] returns the size that measuring at [w2]
    straight away returns, and, in Column mode or when [w2] (cut to the
    natural width) reaches the grid minimum, leaves the same group.
    Resizing twice to the same width changes nothing the second time. *)
Theorem countCurrentSize_forgets (g : GroupedMedia) (w1 w2 : Z) :
  let resized := snd (countCurrentSize st g w1) in
  fst (countCurrentSize st resized w2) = fst (countCurrentSize st g w2) /\
  (_mode g = Column \/ historyGroupWidthMin st <= Z.min w2 (maxWidth g) ->
   snd (countCurrentSize st resized w2) = snd (countCurrentSize st g w2)) /\
  (_mode g = Column \/ historyGroupWidthMin st <= Z.min w1 (maxWidth g) ->
   countCurrentSize st resized w1 = countCurrentSize st g w1).
Proof.
  cbv zeta. destruct (countCurrentSize_shape g w1) as [parts [Hshape Hin]].
  rewrite Hshape.
  destruct (countCurrentSize_input g parts w2 Hin) as [Hsize Hgroup].
  destruct (countCurrentSize_input g parts w1 Hin) as [Hsize1 Hgroup1].
  split; [exact Hsize|]. split; [exact Hgroup|].
  intros Hok. specialize (Hgroup1 Hok).
  destruct (countCurrentSize st (set_parts g parts) w1) as [s1 g1].
  destruct (countCurrentSize st g w1) as [s0 g0].
  cbn [fst snd] in *. now subst.
Qed.

(** X13.  A resize keeps the mode, the caption, the natural width and
    the members in their order, each with its item, content delegate,
    sides and initial geometry: only the members' current geometry is
    written.  The returned width is the requested width cut to the
    natural width. *)
Theorem countCurrentSize_keeps (g : GroupedMedia) (newWidth : Z) :
  let size := fst (countCurrentSize st g newWidth) in
  let g' := snd (countCurrentSize st g newWidth) in
  sz_width size = Z.min newWidth (maxWidth g) /\
  _mode g' = _mode g /\ _caption g' = _caption g /\
  maxWidth g' = maxWidth g /\
  length (_parts g') = length (_parts g) /\
  forall i part,
    nth_error (_parts g) i = Some part ->
    exists part',
      nth_error (_parts g') i = Some part' /\
      item part' = item part /\ content part' = content part /\
      sides part' = sides part /\
      initialGeometry part' = initialGeometry part.
Proof.
  cbv zeta.
  destruct (countCurrentSize_shape g newWidth) as [parts [Hshape Hin]].
  rewrite Hshape. cbn [set_parts _mode _caption maxWidth _parts].
  split; [|split; [reflexivity|split; [reflexivity|split; [reflexivity|]]]].
  - unfold countCurrentSize. destruct (_mode g).
    + destruct (Z.min newWidth (maxWidth g) <? historyGroupWidthMin st);
        [reflexivity|].
      now destruct (grid_loop st _ 0 (_parts g)).
    + now destruct (column_loop _ _ 0 0 (_parts g)).
  - split.
    + apply (f_equal (@length _)) in Hin. now rewrite !length_map in Hin.
    + intros i part Hn.
      assert (Hmap : nth_error (map resize_input parts) i
                     = Some (resize_input part)).
      { rewrite Hin. now apply map_nth_error. }
      rewrite nth_error_map in Hmap.
      destruct (nth_error parts i) as [part'|]; [|discriminate].
      cbn [option_map] in Hmap. unfold resize_input in Hmap.
      injection Hmap as Hi Hc Hs Hg.
      exists part'. repeat split; assumption.
Qed.

End ResizeFacts.

Lemma countCurrentSize_forgets_witness :
  historyGroupWidthMin sample_style <= Z.min 300 (maxWidth album_group) /\
  snd (countCurrentSize sample_style
         (snd (countCurrentSize sample_style album_group 200)) 300)
  = snd (countCurrentSize sample_style album_group 300).
Proof.
  assert (H : historyGroupWidthMin sample_style
              <= Z.min 300 (maxWidth album_group)) by (simpl; lia).
  split; [exact H|].
  destruct (countCurrentSize_forgets sample_style album_group 200 300)
    as [_ [Hgroup _]].
  apply Hgroup. right. exact H.
Defined.

(** ** Optimal size *)

(** Changing one end of a vector in a way a projection does not see. *)
Lemma map_modify_front {A B} (p : A -> B) (f : A -> A) (v : list A) :
  (forall x, p (f x) = p x) -> map p (modify_front f v) = map p v.
Proof.
  intros H. destruct v as [|x rest]; [reflexivity|].
  cbn [modify_front map]. now rewrite H.
Qed.

Lemma map_modify_back {A B} (p : A -> B) (f : A -> A) (v : list A) :
  (forall x, p (f x) = p x) -> map p (modify_back f v) = map p v.
Proof.
  intros H. induction v as [|x [|y rest] IH]; [reflexivity| |].
  - cbn [modify_back map]. now rewrite H.
  - change (modify_back f (x :: y :: rest))
      with (x :: modify_back f (y :: rest)).
    cbn [map] in *. now rewrite IH.
Qed.

(** Right edges of a column: all at the column width. *)
Lemma playlist_loop_right_edges (width : Z) (sizes : list QSize) :
  forall top floor,
    max_of (map right_edge (map Ui.geometry (playlist_loop width top sizes)))
           floor
    = match sizes with
      | [] => floor
      | _ => Z.max floor width
      end.
Proof.
  induction sizes as [|size rest IH]; intros top floor; [reflexivity|].
  cbn [playlist_loop map Ui.geometry]. unfold max_of in *.
  cbn [fold_left]. rewrite IH. unfold right_edge. cbn [rx rwidth].
  destruct rest; [reflexivity|]. lia.
Qed.

(** Bottom edges of a column of non-negative heights: the lowest one is
    the sum of the heights. *)
Lemma playlist_loop_bottom_edges (width : Z) (sizes : list QSize) :
  (forall size, In size sizes -> 0 <= sz_height size) ->
  forall top,
    max_of (map bottom_edge (map Ui.geometry (playlist_loop width top sizes)))
           top
    = top + total (map sz_height sizes).
Proof.
  induction sizes as [|size rest IH]; intros Hpos top.
  - cbn. lia.
  - cbn [playlist_loop map Ui.geometry]. unfold max_of in *.
    cbn [fold_left].
    change (bottom_edge (mkRect 0 top width (sz_height size)))
      with (top + sz_height size).
    assert (H0 : 0 <= sz_height size) by (apply Hpos; now left).
    replace (Z.max top (top + sz_height size)) with (top + sz_height size)
      by lia.
    rewrite IH by (intros s Hs; apply Hpos; now right).
    unfold total. cbn [fold_right]. lia.
Qed.

(** The rectangles [LayoutPlaylist] returns are those of its loop. *)
Lemma LayoutPlaylist_geometry (sizes : list QSize)
  (layout : list Ui.GroupMediaLayout) :
  LayoutPlaylist sizes = Some layout ->
  map Ui.geometry layout
  = map Ui.geometry (playlist_loop (widths_max sizes) 0 sizes).
Proof.
  destruct sizes as [|first rest]; [discriminate|].
  unfold LayoutPlaylist, widths_max. cbv zeta. intros H.
  assert (Hl : layout
               = modify_back (add_side RectPart.Bottom)
                   (modify_front (add_side RectPart.Top)
                      (playlist_loop (max_element_width first rest) 0
                                     (first :: rest))))
    by congruence.
  rewrite Hl, map_modify_back, map_modify_front; reflexivity.
Qed.

Section OptimalFacts.

Variable st : Style.
Variable LayoutMediaGroup :
  list QSize -> Z -> Z -> Z -> list Ui.GroupMediaLayout.

(** X14.  [countOptimalSize] aborts in exactly two cases: a Column group
    without members ([Expects] of [LayoutPlaylist]) and a Grid group for
    which the packing returns a layout whose length is not the number of
    members ([Assert]). *)
Theorem countOptimalSize_aborts_iff (g : GroupedMedia) :
  countOptimalSize st LayoutMediaGroup g = None <->
  (_mode g = Column /\ _parts g = []) \/
  (_mode g = Grid /\
   length (LayoutMediaGroup
             (optimal_sizes 0 (length (_parts g)) 0 (_parts g))
             (historyGroupWidthMax st) (historyGroupWidthMin st)
             (historyGroupSkip st))
   <> length (_parts g)).
Proof.
  unfold countOptimalSize. cbv zeta. destruct (_mode g).
  - destruct (Nat.eqb _ (length (_parts g))) eqn:E.
    + destruct (store_layout _ (_parts g) 0 0) as [[stored mw] mh].
      split; [discriminate|]. intros [[H _]|[_ H]]; [discriminate|].
      apply Nat.eqb_eq in E. contradiction.
    + split; [|reflexivity]. intros _. right. split; [reflexivity|].
      now apply Nat.eqb_neq.
  - destruct (_parts g) as [|part rest] eqn:Hp.
    + split; [|reflexivity]. intros _. left. split; reflexivity.
    + set (natural := accumulate_maxWidth (part :: rest) 0).
      set (sizes := optimal_sizes natural (length (part :: rest)) 0
                                  (part :: rest)).
      destruct (LayoutPlaylist_defined sizes) as [layout [Hl Hlen]].
      { unfold sizes. cbn [optimal_sizes]. discriminate. }
      rewrite Hl. unfold sizes in Hlen.
      rewrite optimal_sizes_length in Hlen. rewrite Hlen, Nat.eqb_refl.
      destruct (store_layout layout (part :: rest) natural 0)
        as [[stored mw] mh].
      split; [discriminate|]. intros [[_ H]|[H _]]; discriminate.
Qed.

(** X15.  The optimal size of a Column group with at least one member
    whose members ask for non-negative heights: the width is the largest
    of the members' natural widths and the widths they ask for, the
    height is the sum of the heights they ask for plus the caption
    block, and member number [i] gets as initial geometry the full-width
    row that starts where the rows before it end. *)
Theorem countOptimalSize_column (g : GroupedMedia) :
  let natural :=
    max_of (map (fun part => content_maxWidth (content part)) (_parts g)) 0 in
  let sizes := optimal_sizes natural (length (_parts g)) 0 (_parts g) in
  _mode g = Column -> _parts g <> [] ->
  (forall size, In size sizes -> 0 <= sz_height size) ->
  exists size g',
    countOptimalSize st LayoutMediaGroup g = Some (size, g') /\
    sz_width size = Z.max natural (widths_max sizes) /\
    sz_height size
    = total (map sz_height sizes)
      + caption_extra st (_caption g') (isBubbleBottom g) (sz_width size) /\
    map item (_parts g') = map item (_parts g) /\
    forall i requested,
      nth_error sizes i = Some requested ->
      exists part,
        nth_error (_parts g') i = Some part /\
        initialGeometry part
        = mkRect 0 (heights_before i sizes) (widths_max sizes)
                 (sz_height requested).
Proof.
  intros natural sizes Hm Hne Hpos.
  assert (Hsizes : length sizes = length (_parts g))
    by apply optimal_sizes_length.
  assert (Hsne : sizes <> []).
  { intros H. rewrite H in Hsizes. destruct (_parts g); [now apply Hne|].
    discriminate. }
  destruct (LayoutPlaylist_defined sizes Hsne) as [layout [Hl Hlen]].
  pose proof (LayoutPlaylist_geometry sizes layout Hl) as Hgeo.
  unfold countOptimalSize. cbv zeta. rewrite Hm.
  rewrite accumulate_maxWidth_max_of. fold natural. fold sizes. rewrite Hl.
  rewrite Hlen, Hsizes, Nat.eqb_refl.
  pose proof (store_layout_spec layout (_parts g) natural 0
                (eq_trans Hlen Hsizes)) as Hstore.
  destruct (store_layout layout (_parts g) natural 0) as [[stored mw] mh].
  destruct Hstore as [Hinit [_ [Hitem [_ [_ [Hmw Hmh]]]]]].
  rewrite Hgeo in Hmw, Hmh.
  rewrite playlist_loop_right_edges in Hmw.
  rewrite (playlist_loop_bottom_edges _ _ Hpos 0) in Hmh.
  eexists. eexists. split; [reflexivity|].
  cbn [sz_width sz_height set_caption set_parts _caption _parts].
  split; [|split; [|split]].
  - rewrite Hmw. destruct sizes; [now contradiction Hsne|reflexivity].
  - rewrite Hmh. lia.
  - exact Hitem.
  - intros i requested Hn.
    destruct (LayoutPlaylist_nth sizes i requested Hn)
      as [layout' [Hl' Hnth]].
    rewrite Hl in Hl'. injection Hl' as <-.
    assert (Hi : nth_error (map initialGeometry stored) i
                 = Some (mkRect 0 (heights_before i sizes) (widths_max sizes)
                                (sz_height requested))).
    { rewrite Hinit, nth_error_map, Hnth. reflexivity. }
    rewrite nth_error_map in Hi.
    destruct (nth_error stored i) as [part|]; [|discriminate].
    exists part. split; [reflexivity|]. cbn in Hi. now injection Hi.
Qed.

End OptimalFacts.

Lemma countOptimalSize_column_witness :
  _mode captioned_group = Column /\
  exists size g',
    countOptimalSize sample_style no_packing captioned_group
    = Some (size, g') /\
    sz_width size = 300 /\ sz_height size = 96 + 33.
Proof.
  split; [reflexivity|].
  destruct (countOptimalSize_column sample_style no_packing captioned_group)
    as [size [g' [Hrun [Hw [Hh _]]]]].
  - reflexivity.
  - discriminate.
  - intros size [<-|[<-|[]]]; simpl; lia.
  - exists size, g'. split; [exact Hrun|].
    assert (Hg : _caption g' = sample_caption).
    { vm_compute in Hrun. now injection Hrun as _ <-. }
    split; [exact Hw|]. rewrite Hh, Hw, Hg. reflexivity.
Defined.

(** ** Where the caption sits *)

(** Bottom edges of the rows of a Column resize with non-negative
    heights: the lowest one is where the loop ends. *)
Lemma column_loop_bottom_edges (newWidth : Z) (partsCount : nat)
  (parts : list Part) :
  forall index top,
    (forall h, In h (grouped_heights newWidth partsCount index parts) ->
               0 <= h) ->
    max_of (map bottom_edge
              (map geometry
                 (fst (column_loop newWidth partsCount index top parts))))
           top
    = snd (column_loop newWidth partsCount index top parts).
Proof.
  induction parts as [|part rest IH]; intros index top Hpos;
    [reflexivity|].
  cbn [column_loop].
  assert (H0 : 0 <= grouped_height newWidth partsCount index part)
    by (apply Hpos; now left).
  unfold grouped_height in H0.
  specialize (IH (S index)
    (top + sz_height (sizeForGrouping (content part) newWidth
                        (Nat.eqb (S index) partsCount)))).
  destruct (column_loop newWidth partsCount (S index) _ rest)
    as [rest' top'].
  cbn [fst snd map geometry] in *. unfold max_of in *. cbn [fold_left].
  change (bottom_edge (mkRect 0 top newWidth
            (sz_height (sizeForGrouping (content part) newWidth
                          (Nat.eqb (S index) partsCount)))))
    with (top + sz_height (sizeForGrouping (content part) newWidth
                             (Nat.eqb (S index) partsCount))).
  replace (Z.max top (top + sz_height (sizeForGrouping (content part)
             newWidth (Nat.eqb (S index) partsCount))))
    with (top + sz_height (sizeForGrouping (content part) newWidth
                             (Nat.eqb (S index) partsCount))) by lia.
  apply IH. intros h Hh. apply Hpos. now right.
Qed.

Section CaptionFacts.

Variable st : Style.

(** X16.  Where [draw] and [textState] put the caption, once the size
    returned by [countCurrentSize] is stored as [width()] and
    [height()]: its top is exactly [st::mediaCaptionSkip] below the
    lowest bottom edge of the members (below 0 for a group without
    members), so with a non-negative skip no member reaches into the
    caption, and the caption rectangle ends at the bottom of the group.
    In Grid mode this needs a width at or above the grid minimum, in
    Column mode non-negative member heights. *)
Theorem caption_below_members (g : GroupedMedia) (newWidth : Z) :
  let w := Z.min newWidth (maxWidth g) in
  let measured := countCurrentSize st g newWidth in
  let g' := with_size (snd measured) (fst measured) in
  isEmpty (_caption g) = false ->
  (_mode g = Grid -> historyGroupWidthMin st <= w) ->
  (_mode g = Column ->
   forall h, In h (grouped_heights w (length (_parts g)) 0 (_parts g)) ->
             0 <= h) ->
  captiony st g'
  = max_of (map bottom_edge (map geometry (_parts g'))) 0
    + mediaCaptionSkip st /\
  bottom_edge (caption_rect st g') = height g' /\
  (0 <= mediaCaptionSkip st ->
   forall part, In part (_parts g') ->
                bottom_edge (geometry part) <= captiony st g').
Proof.
  intros w measured g' He Hgrid Hcol.
  assert (Hy : captiony st g'
               = max_of (map bottom_edge (map geometry (_parts g'))) 0
                 + mediaCaptionSkip st).
  { unfold g', measured, captiony, captionw, with_size.
    cbn [height width isBubbleBottom _caption _parts].
    destruct (_mode g) eqn:Hm.
    - rewrite (countCurrentSize_grid st g newWidth Hm (Hgrid eq_refl)).
      cbn [fst snd sz_width sz_height set_parts _caption isBubbleBottom
           _parts].
      unfold caption_extra. rewrite He. cbn [negb].
      rewrite !map_map. unfold rescaled at 1. cbn [geometry]. fold w. lia.
    - unfold countCurrentSize. rewrite Hm. fold w.
      pose proof (column_loop_bottom_edges w (length (_parts g)) (_parts g)
                    0 0 (Hcol eq_refl)) as Hb.
      destruct (column_loop w (length (_parts g)) 0 0 (_parts g))
        as [parts top].
      cbn [fst snd sz_width sz_height set_parts _caption isBubbleBottom
           _parts] in *.
      unfold caption_extra. rewrite He. cbn [negb]. rewrite Hb. lia. }
  split; [exact Hy|]. split.
  - unfold bottom_edge, caption_rect. cbn [ry rheight]. lia.
  - intros Hskip part Hin. rewrite Hy.
    assert (bottom_edge (geometry part)
            <= max_of (map bottom_edge (map geometry (_parts g'))) 0).
    { apply max_of_upper. apply in_map. now apply in_map. }
    lia.
Qed.

End CaptionFacts.

Lemma caption_below_members_witness :
  let measured := countCurrentSize sample_style hit_group 300 in
  let g' := with_size (snd measured) (fst measured) in
  isEmpty (_caption hit_group) = false /\
  captiony sample_style g' = 40 + 5 /\
  height g' = 73.
Proof.
  cbv zeta. split; [reflexivity|].
  destruct (caption_below_members sample_style hit_group 300)
    as [Hy _].
  - reflexivity.
  - discriminate.
  - intros _ h Hh. vm_compute in Hh. destruct Hh as [<-|[]]. lia.
  - split; [rewrite Hy|]; reflexivity.
Defined.

(** ** Selection intervals *)

Lemma back_app_one {A} (v : list A) (x : A) : back (v ++ [x]) = Some x.
Proof.
  induction v as [|a [|b rest] IH]; [reflexivity|reflexivity|exact IH].
Qed.

(** One step of the loop on an empty result and on a result that ends
    in [last]. *)
Lemma add_selected_nil (r : QRect) :
  add_selected [] r = [mkInterval (rtop r) (rheight r)].
Proof. reflexivity. Qed.

Lemma add_selected_snoc (front : list BubbleSelectionInterval)
  (last : BubbleSelectionInterval) (r : QRect) :
  add_selected (front ++ [last]) r
  = if separated last r
    then front ++ [last; mkInterval (rtop r) (rheight r)]
    else front ++ [span last r].
Proof.
  rewrite add_selected_merge. unfold merge_selected.
  rewrite rev_app_distr. cbn [rev app]. rewrite rev_involutive.
  destruct (separated last r); [|reflexivity].
  now rewrite <- app_assoc.
Qed.

(** A vector is empty or ends in a last element. *)
Lemma snoc_cases {A} (v : list A) :
  v = [] \/ exists front last, v = front ++ [last].
Proof.
  destruct (back v) as [last|] eqn:Hb.
  - right. destruct (back_Some v last Hb) as [front Hf]. now exists front, last.
  - left. now apply back_None.
Qed.

Lemma gapped_snoc (front : list BubbleSelectionInterval)
  (a b : BubbleSelectionInterval) :
  gapped (front ++ [a]) -> bottom a < top b -> gapped (front ++ [a; b]).
Proof.
  intros H Hab. induction front as [|x f IH].
  - cbn. auto.
  - cbn [app gapped] in *. destruct H as [Hx Hrest].
    split; [|now apply IH]. now destruct f.
Qed.

Lemma gapped_last_top (front : list BubbleSelectionInterval)
  (a a' : BubbleSelectionInterval) :
  gapped (front ++ [a]) -> top a' = top a -> gapped (front ++ [a']).
Proof.
  intros H Ht. induction front as [|x f IH].
  - cbn. auto.
  - cbn [app gapped] in *. destruct H as [Hx Hrest].
    split; [|now apply IH]. destruct f; cbn [app] in *; [|exact Hx].
    now rewrite Ht.
Qed.

(** One step keeps the intervals in order when the rectangle starts no
    higher than the last interval does. *)
Lemma add_selected_gapped (result : list BubbleSelectionInterval)
  (r : QRect) (floor : Z) :
  gapped result ->
  (forall last, back result = Some last -> top last <= floor) ->
  floor <= rtop r -> 0 <= rheight r ->
  gapped (add_selected result r) /\
  (forall last, back (add_selected result r) = Some last ->
                top last <= rtop r).
Proof.
  intros Hg Hlast Hfloor Hheight.
  destruct (snoc_cases result) as [->|[front [last ->]]].
  - rewrite add_selected_nil. split; [cbn; auto|].
    intros last [= <-]. cbn. lia.
  - specialize (Hlast last (back_app_one front last)).
    rewrite add_selected_snoc. unfold separated.
    assert (Hup : (bottom_edge r <? top last) = false).
    { apply Z.ltb_ge. unfold bottom_edge, rtop in *. lia. }
    rewrite Hup, orb_false_r.
    destruct (bottom last <? rtop r) eqn:Hsep.
    + apply Z.ltb_lt in Hsep. split.
      * now apply gapped_snoc.
      * change (front ++ [last; mkInterval (rtop r) (rheight r)])
          with (front ++ [last] ++ [mkInterval (rtop r) (rheight r)]).
        rewrite app_assoc, back_app_one. intros i [= <-]. cbn. lia.
    + assert (Htop : top (span last r) = top last).
      { unfold span. cbn [top]. lia. }
      split.
      * now apply (gapped_last_top front last).
      * rewrite back_app_one. intros i [= <-]. rewrite Htop. lia.
Qed.

Lemma intervals_loop_gapped (selected : Z -> bool) (parts : list Part) :
  forall i result floor,
    gapped result ->
    (forall last, back result = Some last -> top last <= floor) ->
    tops_ascend floor (selected_rects selected i parts) ->
    gapped (intervals_loop selected i parts result).
Proof.
  induction parts as [|part rest IH]; intros i result floor Hg Hlast Hasc;
    [exact Hg|].
  cbn [intervals_loop selected_rects] in *.
  destruct (selected i).
  - cbn [app tops_ascend] in Hasc. destruct Hasc as [Hfloor [Hh Hrest]].
    destruct (add_selected_gapped result (geometry part) floor
                Hg Hlast Hfloor Hh) as [Hg' Hlast'].
    exact (IH (i + 1) _ (rtop (geometry part)) Hg' Hlast' Hrest).
  - exact (IH (i + 1) result floor Hg Hlast Hasc).
Qed.

Lemma gapped_modify_back (f : BubbleSelectionInterval ->
                              BubbleSelectionInterval)
  (result : list BubbleSelectionInterval) :
  (forall i, top (f i) = top i) ->
  gapped result -> gapped (modify_back f result).
Proof.
  intros Hf Hg. destruct (snoc_cases result) as [->|[front [last ->]]];
    [exact Hg|].
  rewrite modify_back_app. now apply (gapped_last_top front last).
Qed.

(** X17.  When the selected members come in top-to-bottom order (no
    selected member starts above the one selected before it) and have
    non-negative heights, the intervals returned are listed from top to
    bottom and any two neighbours are separated by a gap: no two of them
    overlap or touch. *)
Theorem getBubbleSelectionIntervals_gapped (g : GroupedMedia)
  (selected : Z -> bool) (floor : Z)
  (result : list BubbleSelectionInterval) :
  tops_ascend floor (selected_rects selected 0 (_parts g)) ->
  getBubbleSelectionIntervals g selected = Some result ->
  gapped result.
Proof.
  intros Hasc. unfold getBubbleSelectionIntervals.
  assert (Hg : gapped (intervals_loop selected 0 (_parts g) [])).
  { apply (intervals_loop_gapped selected (_parts g) 0 [] floor);
      [exact I|discriminate|exact Hasc]. }
  destruct (selected (Z.of_nat (length (_parts g)) - 1)).
  - destruct (intervals_loop selected 0 (_parts g) []) as [|i l] eqn:E;
      [discriminate|].
    intros H.
    assert (Hr : modify_back
                   (fun last => mkInterval (top last) (height g - top last))
                   (i :: l) = result) by now injection H.
    rewrite <- Hr. now apply gapped_modify_back.
  - now intros [= <-].
Qed.

Lemma getBubbleSelectionIntervals_gapped_witness :
  tops_ascend 0 (selected_rects sample_selection 0 (_parts stacked_group)) /\
  gapped [mkInterval 0 10; mkInterval 20 40].
Proof.
  assert (H : tops_ascend 0
                (selected_rects sample_selection 0 (_parts stacked_group))).
  { vm_compute. repeat split; discriminate. }
  split; [exact H|].
  exact (getBubbleSelectionIntervals_gapped stacked_group sample_selection 0
           [mkInterval 0 10; mkInterval 20 40] H eq_refl).
Defined.

(** One step covers its rectangle and keeps what was covered, and keeps
    the intervals above a common lower bound of the bottoms. *)
Lemma add_selected_grows (result : list BubbleSelectionInterval)
  (r : QRect) (bound : Z) :
  (exists i, In i (add_selected result r) /\ covers i r) /\
  (forall a, In a result ->
     exists b, In b (add_selected result r) /\ inside a b) /\
  ((forall a, In a result -> bottom a <= bound) ->
   bottom_edge r <= bound ->
   forall b, In b (add_selected result r) -> bottom b <= bound).
Proof.
  assert (Hnew : covers (mkInterval (rtop r) (rheight r)) r).
  { unfold covers, bottom, bottom_edge, rtop. cbn. lia. }
  assert (Hself : forall a, inside a a) by (intros a; unfold inside; lia).
  destruct (snoc_cases result) as [->|[front [last ->]]].
  - rewrite add_selected_nil. split; [|split].
    + eexists. split; [now left|exact Hnew].
    + intros a [].
    + intros _ Hr b [<-|[]]. unfold bottom, bottom_edge, rtop in *.
      cbn. lia.
  - rewrite add_selected_snoc. destruct (separated last r).
    + split; [|split].
      * eexists. split; [|exact Hnew].
        apply in_or_app. right. right. now left.
      * intros a Ha. exists a. split; [|apply Hself].
        apply in_app_or in Ha. apply in_or_app.
        destruct Ha as [Ha|[<-|[]]]; [now left|right; now left].
      * intros Hall Hr b Hb. apply in_app_or in Hb.
        destruct Hb as [Hb|[<-|[<-|[]]]].
        -- apply Hall. apply in_or_app. now left.
        -- apply Hall. apply in_or_app. right. now left.
        -- unfold bottom, bottom_edge, rtop in *. cbn. lia.
    + assert (Hspan : covers (span last r) r /\ inside last (span last r)
                      /\ bottom (span last r)
                         = Z.max (bottom last) (bottom_edge r)).
      { unfold covers, inside, span, bottom, bottom_edge, rtop. cbn. lia. }
      destruct Hspan as [Hc [Hi Hb]]. split; [|split].
      * exists (span last r). split; [|exact Hc].
        apply in_or_app. right. now left.
      * intros a Ha. apply in_app_or in Ha. destruct Ha as [Ha|[<-|[]]].
        -- exists a. split; [apply in_or_app; now left|apply Hself].
        -- exists (span last r). split; [|exact Hi].
           apply in_or_app. right. now left.
      * intros Hall Hr b Hb'. apply in_app_or in Hb'.
        destruct Hb' as [Hb'|[<-|[]]].
        -- apply Hall. apply in_or_app. now left.
        -- rewrite Hb. assert (bottom last <= bound).
           { apply Hall. apply in_or_app. right. now left. }
           lia.
Qed.

Lemma intervals_loop_grows (selected : Z -> bool) (bound : Z)
  (parts : list Part) :
  forall i result,
    (forall r, In r (selected_rects selected i parts) ->
       exists b, In b (intervals_loop selected i parts result) /\
                 covers b r) /\
    (forall a, In a result ->
       exists b, In b (intervals_loop selected i parts result) /\
                 inside a b) /\
    ((forall a, In a result -> bottom a <= bound) ->
     (forall r, In r (selected_rects selected i parts) ->
                bottom_edge r <= bound) ->
     forall b, In b (intervals_loop selected i parts result) ->
               bottom b <= bound).
Proof.
  induction parts as [|part rest IH]; intros i result.
  - cbn. split; [intros r []|]. split; [|auto].
    intros a Ha. exists a. split; [exact Ha|]. unfold inside. lia.
  - cbn [intervals_loop selected_rects]. destruct (selected i).
    + destruct (add_selected_grows result (geometry part) bound)
        as [[c [Hc Hcov]] [Hkeep Hbound]].
      destruct (IH (i + 1) (add_selected result (geometry part)))
        as [Hrects [Hin Hb]].
      split; [|split].
      * intros r [<-|Hr]; [|now apply Hrects].
        destruct (Hin c Hc) as [b [Hb1 Hb2]]. exists b.
        split; [exact Hb1|]. unfold covers, inside in *. lia.
      * intros a Ha. destruct (Hkeep a Ha) as [a' [Ha' Hi']].
        destruct (Hin a' Ha') as [b [Hb1 Hb2]]. exists b.
        split; [exact Hb1|]. unfold inside in *. lia.
      * intros Hall Hr. apply Hb.
        -- apply Hbound; [exact Hall|]. apply Hr. now left.
        -- intros r Hin'. apply Hr. now right.
    + cbn [app]. apply IH.
Qed.

Lemma selected_rects_In (selected : Z -> bool) (parts : list Part) :
  forall start i part,
    nth_error parts i = Some part ->
    selected (start + Z.of_nat i) = true ->
    In (geometry part) (selected_rects selected start parts).
Proof.
  induction parts as [|p rest IH]; intros start [|i] part Hn Hs;
    try discriminate.
  - cbn in Hn. injection Hn as <-. cbn [selected_rects].
    rewrite Z.add_0_r in Hs. rewrite Hs. now left.
  - cbn [selected_rects]. apply in_or_app. right.
    apply (IH (start + 1) i part Hn).
    replace (start + 1 + Z.of_nat i) with (start + Z.of_nat (S i)) by lia.
    exact Hs.
Qed.

Lemma selected_rects_from (selected : Z -> bool) (parts : list Part) :
  forall start r,
    In r (selected_rects selected start parts) ->
    exists part, In part parts /\ geometry part = r.
Proof.
  induction parts as [|p rest IH]; intros start r Hin; [destruct Hin|].
  cbn [selected_rects] in Hin. apply in_app_or in Hin.
  destruct Hin as [Hin|Hin].
  - destruct (selected start); [|destruct Hin].
    destruct Hin as [<-|[]]. exists p. split; [now left|reflexivity].
  - destruct (IH _ _ Hin) as [part [Hp Hg]]. exists part.
    split; [now right|exact Hg].
Qed.

(** Stretching the last interval down to [total] keeps what is
    covered when no interval reaches below [total]. *)
Lemma stretch_keeps_cover (result : list BubbleSelectionInterval)
  (total : Z) (r : QRect) (b : BubbleSelectionInterval) :
  In b result -> covers b r ->
  (forall a, In a result -> bottom a <= total) ->
  exists b',
    In b' (modify_back
             (fun last => mkInterval (top last) (total - top last)) result) /\
    covers b' r.
Proof.
  intros Hb Hc Hlow.
  destruct (snoc_cases result) as [->|[front [last ->]]]; [destruct Hb|].
  rewrite modify_back_app. apply in_app_or in Hb.
  destruct Hb as [Hb|[<-|[]]].
  - exists b. split; [apply in_or_app; now left|exact Hc].
  - eexists. split; [apply in_or_app; right; now left|].
    assert (bottom last <= total).
    { apply Hlow. apply in_or_app. right. now left. }
    unfold covers, bottom in *. cbn. lia.
Qed.

(** X18.  Every selected member is covered: when no member reaches
    below the bottom of the group, each selected member's vertical extent
    lies inside one of the returned intervals. *)
Theorem getBubbleSelectionIntervals_covers (g : GroupedMedia)
  (selected : Z -> bool) (result : list BubbleSelectionInterval) :
  (forall part, In part (_parts g) ->
                bottom_edge (geometry part) <= height g) ->
  getBubbleSelectionIntervals g selected = Some result ->
  forall i part,
    nth_error (_parts g) i = Some part ->
    selected (Z.of_nat i) = true ->
    exists interval, In interval result /\ covers interval (geometry part).
Proof.
  intros Hfit Hrun i part Hn Hs.
  destruct (intervals_loop_grows selected (height g) (_parts g) 0 [])
    as [Hcov [_ Hbound]].
  assert (Hin : In (geometry part) (selected_rects selected 0 (_parts g)))
    by now apply (selected_rects_In selected (_parts g) 0 i).
  destruct (Hcov _ Hin) as [b [Hb Hc]].
  assert (Hlow : forall b, In b (intervals_loop selected 0 (_parts g) []) ->
                           bottom b <= height g).
  { apply Hbound; [intros a []|]. intros r Hr.
    destruct (selected_rects_from _ _ _ _ Hr) as [p [Hp <-]].
    now apply Hfit. }
  unfold getBubbleSelectionIntervals in Hrun.
  destruct (selected (Z.of_nat (length (_parts g)) - 1));
    [|injection Hrun as <-; now exists b].
  pose proof (stretch_keeps_cover _ (height g) _ b Hb Hc Hlow) as Hkeep.
  remember (intervals_loop selected 0 (_parts g) []) as loop eqn:E.
  destruct loop as [|first rest]; [discriminate|].
  assert (Hres : modify_back
                   (fun last => mkInterval (top last) (height g - top last))
                   (first :: rest) = result) by now injection Hrun.
  rewrite <- Hres. exact Hkeep.
Qed.

Lemma getBubbleSelectionIntervals_covers_witness :
  exists interval,
    In interval [mkInterval 0 10; mkInterval 20 40] /\
    covers interval (mkRect 0 20 300 10).
Proof.
  apply (getBubbleSelectionIntervals_covers stacked_group sample_selection
           [mkInterval 0 10; mkInterval 20 40]) with (i := 2%nat)
    (part := mkPart 3 (createView (sample_file 3 300 10))
               (Z.lor RectPart.Left RectPart.Right)
               (mkRect 0 20 300 10) (mkRect 0 20 300 10)).
  - intros part Hin. vm_compute in Hin.
    destruct Hin as [<-|[<-|[<-|[<-|[]]]]]; vm_compute; discriminate.
  - reflexivity.
  - reflexivity.
  - reflexivity.
Defined.

(** One step adds at most one interval and never leaves the result
    empty. *)
Lemma add_selected_length (result : list BubbleSelectionInterval)
  (r : QRect) :
  (length (add_selected result r) <= S (length result))%nat /\
  add_selected result r <> [].
Proof.
  destruct (snoc_cases result) as [->|[front [last ->]]].
  - rewrite add_selected_nil. split; [apply Nat.le_refl|discriminate].
  - rewrite add_selected_snoc. destruct (separated last r).
    + split; [rewrite !length_app; cbn; lia|].
      intros H. apply app_eq_nil in H. destruct H as [_ H]. discriminate.
    + split; [rewrite !length_app; cbn; lia|].
      intros H. apply app_eq_nil in H. destruct H as [_ H]. discriminate.
Qed.

Lemma intervals_loop_length (selected : Z -> bool) (parts : list Part) :
  forall i result,
    (length (intervals_loop selected i parts result)
     <= length result + length (selected_rects selected i parts))%nat /\
    (intervals_loop selected i parts result = [] <->
     result = [] /\ selected_rects selected i parts = []).
Proof.
  induction parts as [|part rest IH]; intros i result.
  - cbn. split; [lia|]. split; [now intros ->|now intros [-> _]].
  - cbn [intervals_loop selected_rects]. destruct (selected i).
    + destruct (IH (i + 1) (add_selected result (geometry part)))
        as [Hlen Hnil].
      destruct (add_selected_length result (geometry part)) as [Hl Hne].
      split; [cbn [app length]; lia|].
      split.
      * intros H. apply Hnil in H. destruct H as [H _]. now apply Hne in H.
      * intros [_ H]. discriminate.
    + cbn [app]. apply IH.
Qed.

(** With no member selected there is no selected rectangle. *)
Lemma selected_rects_none (selected : Z -> bool) (parts : list Part) :
  forall start,
    (forall i part, nth_error parts i = Some part ->
                    selected (start + Z.of_nat i) = false) ->
    selected_rects selected start parts = [].
Proof.
  induction parts as [|p ps IH]; intros start Hall; [reflexivity|].
  cbn [selected_rects].
  pose proof (Hall 0%nat p eq_refl) as H0. rewrite Z.add_0_r in H0.
  rewrite H0. cbn [app]. apply IH. intros i part Hn.
  replace (start + 1 + Z.of_nat i) with (start + Z.of_nat (S i)) by lia.
  apply (Hall (S i) part). exact Hn.
Qed.

(** X19.  For a group within its invariant of 1 to [kMaxSize] members
    [getBubbleSelectionIntervals] always returns (it never reads
    [back()] of an empty vector): it returns at most one interval per
    selected member, and no interval at all exactly when no member is
    selected. *)
Theorem getBubbleSelectionIntervals_count (g : GroupedMedia)
  (selected : Z -> bool) :
  _parts g <> [] -> (length (_parts g) <= kMaxSize)%nat ->
  exists result,
    getBubbleSelectionIntervals g selected = Some result /\
    (length result
     <= length (selected_rects selected 0 (_parts g)))%nat /\
    (result = [] <-> selected_rects selected 0 (_parts g) = []) /\
    (result = [] <->
     forall i part, nth_error (_parts g) i = Some part ->
                    selected (Z.of_nat i) = false).
Proof.
  intros Hne _.
  destruct (intervals_loop_length selected (_parts g) 0 []) as [Hlen Hnil].
  cbn [length Nat.add] in Hlen.
  assert (Hnone : selected_rects selected 0 (_parts g) = [] <->
                  forall i part, nth_error (_parts g) i = Some part ->
                                 selected (Z.of_nat i) = false).
  { split.
    - intros Hr i part Hn. destruct (selected (Z.of_nat i)) eqn:Hs;
        [|reflexivity].
      pose proof (selected_rects_In selected (_parts g) 0 i part Hn Hs)
        as Hin.
      rewrite Hr in Hin. destruct Hin.
    - intros Hall. apply selected_rects_none. exact Hall. }
  unfold getBubbleSelectionIntervals.
  destruct (selected (Z.of_nat (length (_parts g)) - 1)) eqn:Hs.
  - remember (intervals_loop selected 0 (_parts g) []) as loop eqn:E.
    destruct loop as [|first rest].
    + exfalso. destruct (proj1 Hnil eq_refl) as [_ Hrects].
      apply (selected_rects_last selected (_parts g) 0);
        [exact Hne|exact Hs|exact Hrects].
    + eexists. split; [reflexivity|].
      assert (Hl : length (modify_back
                     (fun last => mkInterval (top last)
                                             (height g - top last))
                     (first :: rest)) = length (first :: rest))
        by apply modify_back_length.
      assert (Hempty : modify_back
                         (fun last => mkInterval (top last)
                                                 (height g - top last))
                         (first :: rest) = [] <->
                       selected_rects selected 0 (_parts g) = []).
      { split.
        - intros Hr. rewrite Hr in Hl. discriminate.
        - intros Hr. pose proof (proj2 Hnil (conj eq_refl Hr)) as Hx.
          discriminate Hx. }
      split; [now rewrite Hl|]. split; [exact Hempty|].
      now rewrite Hempty.
  - eexists. split; [reflexivity|]. split; [exact Hlen|].
    assert (Hempty : intervals_loop selected 0 (_parts g) [] = [] <->
                     selected_rects selected 0 (_parts g) = []).
    { split.
      - intros H. now apply Hnil in H.
      - intros H. apply Hnil. now split. }
    split; [exact Hempty|]. now rewrite Hempty.
Qed.

Lemma getBubbleSelectionIntervals_count_witness :
  _parts stacked_group <> [] /\
  (length (_parts stacked_group) <= kMaxSize)%nat /\
  exists result,
    getBubbleSelectionIntervals stacked_group sample_selection
    = Some result /\
    (length result <= 3)%nat.
Proof.
  assert (Hne : _parts stacked_group <> []) by discriminate.
  assert (Hle : (length (_parts stacked_group) <= kMaxSize)%nat)
    by (simpl; unfold kMaxSize; lia).
  split; [exact Hne|]. split; [exact Hle|].
  destruct (getBubbleSelectionIntervals_count stacked_group sample_selection
              Hne Hle) as [result [Hrun [Hlen _]]].
  exists result. split; [exact Hrun|exact Hlen].
Defined.

(** ** The rescaled grid fills the target width *)

(** The rounding step returns the 53 digit mantissa below the real or
    the one above it. *)
Lemma finish_value (q : Z) (l : location) (E : Z) :
  2 ^ 52 <= q < 2 ^ 53 ->
  (F2Q (fst (finish q l E)) (snd (finish q l E)) == F2Q q E \/
   F2Q (fst (finish q l E)) (snd (finish q l E)) == F2Q q E + pow2 E)%Q.
Proof.
  intros Hq. unfold finish.
  pose proof (round_nearest_even_range q l) as Hr.
  destruct (Z.ltb_spec (round_nearest_even q l) (2 ^ 53)) as [Hlt|Hge];
    cbn [fst snd].
  - assert (Hc : round_nearest_even q l = q \/
                 round_nearest_even q l = q + 1) by lia.
    destruct Hc as [->| ->]; [now left|right].
    now rewrite F2Q_plus, F2Q_one.
  - right. assert (Hq1 : q + 1 = 2 * 2 ^ 52) by lia.
    rewrite <- (F2Q_one E), <- F2Q_plus, Hq1, F2Q_double, F2Q_succ.
    reflexivity.
Qed.

(** Rounding moves a real by less than one unit of its last place, and
    that unit is at most the real divided by [2 ^ 52]. *)
Lemma binary_round_aux_error (m e : Z) (l : location) (x : Q) :
  53 <= Zdigits2 m -> 0 < m -> -1074 <= e ->
  e + (Zdigits2 m - 53) + 1 <= 971 ->
  represents (shr_record_of_loc m l) e x ->
  exists u : Q,
    (0 < u /\ inject_Z (2 ^ 52) * u <= x /\
     x - u <= value (binary_round_aux Float64.prec Float64.emax false m e l)
     /\ value (binary_round_aux Float64.prec Float64.emax false m e l)
        <= x + u)%Q.
Proof.
  intros Hd Hm He Hmax Hr.
  destruct (binary_round_aux_spec false m e l x Hd Hm He Hmax Hr)
    as [q [l' [Hq [Hl ->]]]].
  set (E := e + (Zdigits2 m - 53)) in *.
  pose proof (finish_canonical q l' E Hq) as [Hc _].
  pose proof (in_loc_bounds l' _ _ x (pow2_pos E) Hl) as [Hlo Hhi].
  pose proof (F2Q_mono (2 ^ 52) q E ltac:(lia)) as Hbase.
  unfold F2Q at 1 in Hbase.
  exists (pow2 E). split; [apply pow2_pos|].
  cbn [value cond_Zopp]. rewrite Z2Pos.id by lia.
  destruct (finish_value q l' E Hq) as [Hv|Hv]; rewrite Hv;
    pose proof (pow2_pos E); repeat split; lra.
Qed.

(** X20.  The natural width rescales exactly to the target width:
    for widths in the range of [int], [scale(maxWidth())] with the factor
    [newWidth / float64(maxWidth())] is [newWidth], whatever the two
    roundings of the division and the multiplication do. *)
Theorem scale_natural_width (newWidth maxWidth : Z) :
  0 < newWidth -> newWidth <= maxWidth -> maxWidth < 2 ^ 31 ->
  scale (rescale_factor newWidth maxWidth) maxWidth = newWidth.
Proof.
  intros Hw Hle Hmax.
  assert (Hw53 : 0 < newWidth < 2 ^ 53) by lia.
  assert (Hm53 : 0 < maxWidth < 2 ^ 53) by lia.
  (* the factor and its distance from the quotient *)
  destruct (rescale_factor_normal newWidth maxWidth Hw53 Hm53)
    as [mf [ef [Hfac [Hmf Hef]]]].
  destruct (of_int_nonzero newWidth ltac:(lia) ltac:(lia))
    as [mw [jw [Hofw [Hmw [Hjw Hvw]]]]].
  destruct (of_int_nonzero maxWidth ltac:(lia) ltac:(lia))
    as [mm [jm [Hofm [Hmm [Hjm Hvm]]]]].
  destruct (Z.ltb_spec newWidth 0); [lia|].
  destruct (Z.ltb_spec maxWidth 0); [lia|].
  assert (Hqw : (F2Q (Zpos mw) (- jw) == inject_Z newWidth)%Q)
    by (apply F2Q_int; lia).
  assert (Hqm : (F2Q (Zpos mm) (- jm) == inject_Z maxWidth)%Q)
    by (apply F2Q_int; lia).
  assert (Hmpos : (0 < inject_Z maxWidth)%Q)
    by (change 0%Q with (inject_Z 0); rewrite <- Zlt_Qlt; lia).
  set (x := (inject_Z newWidth / inject_Z maxWidth)%Q).
  assert (Hx : (x * inject_Z maxWidth == inject_Z newWidth)%Q).
  { unfold x. field. lra. }
  assert (Hdiv : (x * F2Q (Zpos mm) (- jm) == F2Q (Zpos mw) (- jw))%Q)
    by (rewrite Hqm, Hqw; exact Hx).
  destruct (div_quotient mw mm (- jw) (- jm) x Hmw Hmm Hdiv)
    as [Hdq [Hq0 Hrep]].
  unfold rescale_factor in Hfac. rewrite Hofw, Hofm in Hfac.
  rewrite (div_finite false false mw mm (- jw) (- jm) Hmw Hmm
             ltac:(lia) ltac:(lia)) in Hfac.
  pose proof (fun H1 H3 H4 =>
                binary_round_aux_error _ _ _ x H1 Hq0 H3 H4 Hrep) as Herr.
  destruct Herr as [u [Hu [Hux [Hlo Hhi]]]]; [lia|lia|lia|].
  cbn [xorb] in Hfac. rewrite Hfac in Hlo, Hhi. cbn [value cond_Zopp] in *.
  (* the product and its distance from the exact product *)
  destruct (scale_positive mf ef maxWidth Hmf ltac:(lia) Hm53)
    as [mv [jv [M [E [Hofv [Hmv [Hjv [Hqv [Hmul [HM Hscale]]]]]]]]]].
  destruct (mul_product mv mf (- jv) ef Hmv Hmf) as [Hdp Hprod].
  rewrite mul_finite in Hmul.
  pose proof (fun H1 H2 H3 H4 =>
                binary_round_aux_error _ _ _ _ H1 H2 H3 H4 Hprod) as Herr2.
  destruct Herr2 as [u2 [Hu2 [Hux2 [Hlo2 Hhi2]]]]; [lia|lia|lia|lia|].
  cbn [xorb] in Hmul. rewrite Hmul in Hlo2, Hhi2.
  cbn [value cond_Zopp] in *. rewrite Hqv in Hux2, Hlo2, Hhi2.
  (* the rounded product is within a half of the target width *)
  unfold rescale_factor. rewrite Hofw, Hofm.
  rewrite (div_finite false false mw mm (- jw) (- jm) Hmw Hmm
             ltac:(lia) ltac:(lia)).
  cbn [xorb]. rewrite Hfac, Hscale.
  pose proof (round_magnitude_spec M E) as [Hklo Hkhi].
  set (k := Float64.round_magnitude M E) in *.
  set (f := F2Q (Zpos mf) ef) in *.
  set (p := F2Q (Zpos M) E) in *.
  assert (Hwq : (1 <= inject_Z newWidth)%Q)
    by (change 1%Q with (inject_Z 1); rewrite <- Zle_Qle; lia).
  assert (Hwmax : (inject_Z newWidth <= inject_Z (2 ^ 31))%Q)
    by (rewrite <- Zle_Qle; lia).
  assert (Ha : (inject_Z (2 ^ 52) * (inject_Z maxWidth * u)
                <= inject_Z newWidth)%Q).
  { rewrite <- Hx.
    setoid_replace (inject_Z (2 ^ 52) * (inject_Z maxWidth * u))%Q
      with ((inject_Z (2 ^ 52) * u) * inject_Z maxWidth)%Q by ring.
    apply Qmult_le_r; assumption. }
  assert (Hy1 : (inject_Z newWidth - inject_Z maxWidth * u
                 <= inject_Z maxWidth * f)%Q).
  { rewrite <- Hx.
    setoid_replace (x * inject_Z maxWidth - inject_Z maxWidth * u)%Q
      with ((x - u) * inject_Z maxWidth)%Q by ring.
    setoid_replace (inject_Z maxWidth * f)%Q
      with (f * inject_Z maxWidth)%Q by ring.
    apply Qmult_le_r; assumption. }
  assert (Hy2 : (inject_Z maxWidth * f
                 <= inject_Z newWidth + inject_Z maxWidth * u)%Q).
  { rewrite <- Hx.
    setoid_replace (x * inject_Z maxWidth + inject_Z maxWidth * u)%Q
      with ((x + u) * inject_Z maxWidth)%Q by ring.
    setoid_replace (inject_Z maxWidth * f)%Q
      with (f * inject_Z maxWidth)%Q by ring.
    apply Qmult_le_r; assumption. }
  change (inject_Z (2 ^ 52)) with (4503599627370496 # 1)%Q in *.
  change (inject_Z (2 ^ 31)) with (2147483648 # 1)%Q in *.
  assert (Hnear : (inject_Z k < inject_Z newWidth + 1 /\
                   inject_Z newWidth < inject_Z k + 1)%Q) by (split; lra).
  destruct Hnear as [Hk1 Hk2].
  change 1%Q with (inject_Z 1) in Hk1, Hk2.
  rewrite <- inject_Z_plus, <- Zlt_Qlt in Hk1, Hk2. lia.
Qed.

Lemma scale_natural_width_witness :
  0 < 376 /\ 376 <= 430 /\ scale (rescale_factor 376 430) 430 = 376.
Proof.
  split; [lia|]. split; [lia|].
  apply (scale_natural_width 376 430); lia.
Defined.

Section GridFits.

Variable st : Style.

(** X21.  A rescaled grid stays inside the target width: for a Grid
    group measured at a positive width at or above the grid minimum,
    whose members had non-negative initial edges with no far edge (taken
    with the gap behind it) beyond the natural width, every member's
    current rectangle starts at or right of 0 and ends at or left of the
    returned width; and a member whose far edge was at the natural width
    ends, with its rescaled gap, exactly at the returned width. *)
Theorem countCurrentSize_fits_width (g : GroupedMedia) (newWidth : Z) :
  let w := Z.min newWidth (maxWidth g) in
  let spacing :=
    scale (rescale_factor w (maxWidth g)) (historyGroupSkip st) in
  _mode g = Grid -> 0 < w -> historyGroupWidthMin st <= w ->
  maxWidth g < 2 ^ 31 ->
  0 <= historyGroupSkip st -> is_int (historyGroupSkip st) ->
  (forall part, In part (_parts g) ->
     edges_in_range st part /\ initialRight st part <= maxWidth g) ->
  sz_width (fst (countCurrentSize st g newWidth)) = w /\
  forall part, In part (_parts (snd (countCurrentSize st g newWidth))) ->
    0 <= rx (geometry part) /\
    right_edge (geometry part) <= w /\
    (initialRight st part = maxWidth g ->
     right_edge (geometry part)
     + (if has_part (sides part) RectPart.Right then 0 else spacing)
     = w).
Proof.
  intros w spacing Hm Hw Hmin Hmax Hskip Hskipint Hparts.
  assert (HM : w <= maxWidth g) by (unfold w; lia).
  rewrite (countCurrentSize_grid st g newWidth Hm Hmin). fold w.
  cbn [fst snd sz_width set_parts _parts]. split; [reflexivity|].
  intros part' Hin. apply in_map_iff in Hin.
  destruct Hin as [part [<- Hin]].
  destruct (Hparts part Hin) as [[Hx [_ [Hr [_ Hint]]]] Hfar].
  destruct Hint as [Hxi [_ [Hri _]]]. unfold is_int in *.
  set (f := rescale_factor w (maxWidth g)) in *.
  assert (Hmono : forall v1 v2, 0 <= v1 -> v1 <= v2 -> v2 < 2 ^ 53 ->
                                scale f v1 <= scale f v2).
  { intros v1 v2 H1 H2 H3. unfold f.
    apply scale_rescale_mono; lia. }
  assert (Hfull : scale f (maxWidth g) = w)
    by (unfold f; apply scale_natural_width; lia).
  assert (Hsp : 0 <= spacing).
  { unfold spacing. rewrite <- (scale_zero f) at 1. apply Hmono; lia. }
  destruct (rescale_geometry_edges st f part) as [Hleft [_ [Hright _]]].
  unfold rescaled. cbn [geometry sides initialGeometry].
  change (initialRight st (mkPart (item part) (content part) (sides part)
                             (initialGeometry part)
                             (rescale_geometry st f part)))
    with (initialRight st part).
  fold spacing in Hright.
  assert (Hle : scale f (initialRight st part) <= w)
    by (rewrite <- Hfull; apply Hmono; lia).
  split; [|split].
  - rewrite Hleft, <- (scale_zero f). apply Hmono; lia.
  - destruct (has_part (sides part) RectPart.Right); lia.
  - intros Heq. rewrite Hright, Heq. exact Hfull.
Qed.

End GridFits.

Lemma countCurrentSize_fits_width_witness :
  _mode album_group = Grid /\
  forall part,
    In part (_parts (snd (countCurrentSize sample_style album_group 376))) ->
    0 <= rx (geometry part) /\ right_edge (geometry part) <= 376.
Proof.
  split; [reflexivity|].
  destruct (countCurrentSize_fits_width sample_style album_group 376)
    as [_ Hfit].
  - reflexivity.
  - simpl. lia.
  - simpl. lia.
  - simpl. lia.
  - simpl. lia.
  - unfold is_int. simpl. lia.
  - intros part [<-|[<-|[]]];
      unfold edges_in_range, edges_are_int, is_int, initialRight,
        initialBottom, right_gap, bottom_gap; simpl; lia.
  - intros part Hin. destruct (Hfit part Hin) as [H0 [Hr _]].
    split; [exact H0|]. exact Hr.
Defined.

(** ** Measuring twice, building twice *)




Section OptimalAgain.

Variable st : Style.
Variable LayoutMediaGroup :
  list QSize -> Z -> Z -> Z -> list Ui.GroupMediaLayout.


End OptimalAgain.


(** X23.  Building twice from the same candidates: when a group without
    members was built from candidates that all have the first
    candidate's mode, a second [applyGroup] with the same candidates
    finds the members valid, returns [true], constructs nothing and
    leaves the group as it is. *)
Theorem applyGroup_again (g g' : GroupedMedia) (medias : list Media)
  (r : bool) (created : list Content) :
  _parts g = [] ->
  accepted_medias medias = medias ->
  applyGroup g medias = Some (r, g', created) ->
  applyGroup g' medias = Some (true, g', []).
Proof.
  intros Hp Hacc H.
  assert (Hparts : _parts g' = map built_Part medias).
  { destruct (validateGroupParts g medias) eqn:Hv.
    - unfold applyGroup in H. rewrite Hv in H. injection H as _ <- _.
      apply validateGroupParts_spec in Hv. rewrite Hp in Hv.
      destruct medias; [now rewrite Hp|discriminate].
    - rewrite (applyGroup_rebuild_eq g medias Hv), Hacc, Hp in H.
      destruct (forallb canBeGrouped medias
                && (length (@nil Part) + length medias <=? kMaxSize)%nat);
        [|discriminate].
      now injection H as _ <- _. }
  unfold applyGroup.
  assert (Hv' : validateGroupParts g' medias = true).
  { apply validateGroupParts_spec. rewrite Hparts, map_map. reflexivity. }
  now rewrite Hv'.
Qed.

Lemma applyGroup_again_witness :
  exists g',
    applyGroup fresh_group [sample_file 1 300 40; sample_file 2 280 56]
    = Some (true, g', [createView (sample_file 1 300 40);
                       createView (sample_file 2 280 56)]) /\
    applyGroup g' [sample_file 1 300 40; sample_file 2 280 56]
    = Some (true, g', []).
Proof.
  eexists. split; [reflexivity|].
  apply (applyGroup_again fresh_group _
           [sample_file 1 300 40; sample_file 2 280 56] true
           [createView (sample_file 1 300 40);
            createView (sample_file 2 280 56)]);
    reflexivity.
Defined.

(** ** Hit test of the whole group *)

Section TextStateFacts.

Variable st : Style.
Variable historyFastShareLeft : Z.
Variable historyFastShareBottom : Z.
Variable StateRequest : Type.
Variable getStateGrouped :
  Content -> QRect -> RectParts -> QPoint -> StateRequest -> bool -> TextState.
Variable caption_getState :
  Caption -> QPoint -> Z -> StateRequest -> TextState.

(** The item [getPartState] names is the parent's or that of a member
    under the point. *)
Lemma getPartState_item (g : GroupedMedia) (parentItem : Item)
  (point : QPoint) (request : StateRequest) :
  let hit :=
    getPartState StateRequest getStateGrouped g parentItem point request in
  hit = TextState_of parentItem \/
  exists part, In part (_parts g) /\
    rect_contains (geometry part) point = true /\
    itemId hit = item part.
Proof.
  cbv zeta. unfold getPartState.
  pose proof (getPartState_loop_spec StateRequest getStateGrouped
                (length (_parts g)) point request (_parts g) 0) as H.
  destruct (getPartState_loop StateRequest getStateGrouped
              (length (_parts g)) 0 (_parts g) point request) as [result|];
    [right|now left].
  destruct H as [i [part [Hn [Hc [_ ->]]]]]. exists part.
  split; [eapply nth_error_In; exact Hn|]. split; [exact Hc|reflexivity].
Qed.

(** X24.  [textState] names only the parent's item or the item of a
    member whose rectangle contains the point.  When the point is in no
    member's rectangle the parent's item is named; and whenever the
    answer is taken from the caption (the caption is not empty, no member
    gave a link and the point is in the caption rectangle) it is the
    caption's state under the parent's item, even if a member contains
    the point as well. *)
Theorem textState_item (g : GroupedMedia) (parent : ParentElement)
  (parentItem : Item) (point : QPoint) (request : StateRequest) :
  let hit :=
    getPartState StateRequest getStateGrouped g parentItem point request in
  let result :=
    textState st historyFastShareLeft historyFastShareBottom StateRequest
              getStateGrouped caption_getState g parent parentItem point
              request in
  (itemId result = parentItem \/
   exists part, In part (_parts g) /\
     rect_contains (geometry part) point = true /\
     itemId result = item part) /\
  ((forall part, In part (_parts g) ->
                 rect_contains (geometry part) point = false) ->
   itemId result = parentItem) /\
  (isEmpty (_caption g) = false -> link hit = None ->
   rect_contains (caption_rect st g) point = true ->
   result
   = set_itemId
       (caption_getState (_caption g)
          (mkPoint (px point - msgPadding_left st)
                   (py point - captiony st g))
          (captionw st g) request)
       parentItem).
Proof.
  cbv zeta.
  pose proof (getPartState_item g parentItem point request) as Hhit.
  cbv zeta in Hhit.
  set (hit := getPartState StateRequest getStateGrouped g parentItem point
                request) in *.
  assert (Hid : itemId (textState st historyFastShareLeft
                          historyFastShareBottom StateRequest
                          getStateGrouped caption_getState g parent
                          parentItem point request) = itemId hit \/
                itemId (textState st historyFastShareLeft
                          historyFastShareBottom StateRequest
                          getStateGrouped caption_getState g parent
                          parentItem point request) = parentItem).
  { unfold textState. fold hit. cbv zeta.
    destruct (match link hit with None => true | Some _ => false end
              && negb (isEmpty (_caption g))).
    - destruct (rect_contains (caption_rect st g) point);
        [now right|now left].
    - destruct (media_is_this parent); [|now left].
      destruct (pointInTime parent (width g) (height g) point);
        destruct (if hasBubble parent then None else rightActionSize parent)
          as [size|];
        try destruct (rect_contains _ point); now left. }
  split; [|split].
  - destruct Hid as [Hid|Hid]; [|now left]. rewrite Hid.
    destruct Hhit as [->|Hpart]; [now left|now right].
  - intros Hnone. destruct Hid as [Hid|Hid]; [|exact Hid]. rewrite Hid.
    destruct Hhit as [->|[part [Hin [Hc _]]]]; [reflexivity|].
    rewrite (Hnone part Hin) in Hc. discriminate.
  - intros He Hlink Hc. unfold textState. fold hit.
    now rewrite Hlink, He, Hc.
Qed.

End TextStateFacts.

Lemma textState_item_witness :
  isEmpty (_caption hit_group) = false /\
  rect_contains (caption_rect sample_style hit_group) (mkPoint 20 80) = true /\
  textState sample_style 0 0 unit sample_state sample_caption_state
            hit_group sample_parent 9 (mkPoint 20 80) tt
  = mkTextState 9 CursorText None.
Proof.
  split; [reflexivity|]. split; [reflexivity|].
  destruct (textState_item sample_style 0 0 unit sample_state
              sample_caption_state hit_group sample_parent 9
              (mkPoint 20 80) tt) as [_ [_ Hcaption]].
  rewrite Hcaption; reflexivity.
Defined.

(** ** Selection intervals of a stacked column *)

Lemma tops_ascend_weaken (rects : list QRect) (floor floor' : Z) :
  floor <= floor' -> tops_ascend floor' rects -> tops_ascend floor rects.
Proof.
  destruct rects as [|r rest]; [auto|].
  cbn [tops_ascend]. intros Hle [H1 H2]. split; [lia|exact H2].
Qed.

Lemma stacked_ascend (rects : list QRect) :
  forall top, stacked_from top rects -> tops_ascend top rects.
Proof.
  induction rects as [|r rest IH]; intros top H; [exact I|].
  cbn [stacked_from tops_ascend] in *. destruct H as [Ht [Hh Hrest]].
  split; [lia|]. split; [exact Hh|].
  apply (tops_ascend_weaken rest (rtop r) (top + rheight r)); [lia|].
  now apply IH.
Qed.

(** Leaving members out keeps the tops in order. *)
Lemma selected_rects_ascend (selected : Z -> bool) (parts : list Part) :
  forall i floor,
    tops_ascend floor (map geometry parts) ->
    tops_ascend floor (selected_rects selected i parts).
Proof.
  induction parts as [|part rest IH]; intros i floor H; [exact I|].
  cbn [map tops_ascend selected_rects] in *. destruct H as [Hf [Hh Hrest]].
  destruct (selected i); cbn [app tops_ascend].
  - split; [exact Hf|]. split; [exact Hh|]. now apply IH.
  - apply IH. now apply (tops_ascend_weaken _ floor (rtop (geometry part))).
Qed.

Lemma selected_rects_all (selected : Z -> bool) (parts : list Part) :
  forall i,
    (forall k, i <= k < i + Z.of_nat (length parts) -> selected k = true) ->
    selected_rects selected i parts = map geometry parts.
Proof.
  induction parts as [|part rest IH]; intros i Hall; [reflexivity|].
  cbn [selected_rects map]. cbn [length] in Hall.
  rewrite Hall by lia. cbn [app]. f_equal. apply IH.
  intros k Hk. apply Hall. lia.
Qed.

(** Rectangles stacked on the one interval so far extend it. *)
Lemma merge_stacked (rects : list QRect) :
  forall start cur,
    start <= cur -> stacked_from cur rects ->
    fold_left merge_selected rects [mkInterval start (cur - start)]
    = [mkInterval start
         (cur + total (map rheight rects) - start)].
Proof.
  induction rects as [|r rest IH]; intros start cur Hle H.
  - cbn. now rewrite Z.add_0_r.
  - cbn [stacked_from] in H. destruct H as [Ht [Hh Hrest]].
    cbn [fold_left map]. unfold merge_selected at 2. cbn [rev app].
    unfold separated, bottom, bottom_edge, rtop in *. cbn [top ival_height].
    replace (start + (cur - start) <? ry r) with false
      by (symmetry; apply Z.ltb_ge; lia).
    replace (ry r + rheight r <? start) with false
      by (symmetry; apply Z.ltb_ge; lia).
    cbn [orb]. unfold span, bottom, bottom_edge, rtop. cbn [top ival_height].
    replace (Z.min start (ry r)) with start by lia.
    replace (Z.max (start + (cur - start)) (ry r + rheight r) - start)
      with (cur + rheight r - start) by lia.
    rewrite (IH start (cur + rheight r)) by (try lia; exact Hrest).
    unfold total. cbn [fold_right]. f_equal. f_equal. lia.
Qed.

(** The rows of a Column resize with non-negative heights are stacked. *)
Lemma column_loop_stacked (newWidth : Z) (partsCount : nat)
  (parts : list Part) :
  forall index top,
    (forall h, In h (grouped_heights newWidth partsCount index parts) ->
               0 <= h) ->
    stacked_from top
      (map geometry (fst (column_loop newWidth partsCount index top parts))).
Proof.
  induction parts as [|part rest IH]; intros index top Hpos; [exact I|].
  cbn [column_loop].
  assert (H0 : 0 <= grouped_height newWidth partsCount index part)
    by (apply Hpos; now left).
  unfold grouped_height in H0.
  specialize (IH (S index)
    (top + sz_height (sizeForGrouping (content part) newWidth
                        (Nat.eqb (S index) partsCount)))).
  destruct (column_loop newWidth partsCount (S index) _ rest)
    as [rest' top'].
  cbn [fst map geometry stacked_from rtop ry rheight] in *.
  split; [reflexivity|]. split; [exact H0|].
  apply IH. intros h Hh. apply Hpos. now right.
Qed.

(** X25.  Selecting every member of a group whose members are stacked
    without gaps (each starts where the one before it ends, with
    non-negative heights) gives one single interval, from the top of the
    first member to the bottom of the group. *)
Theorem getBubbleSelectionIntervals_all_selected (g : GroupedMedia)
  (selected : Z -> bool) (start : Z) :
  _parts g <> [] ->
  stacked_from start (map geometry (_parts g)) ->
  (forall i, 0 <= i < Z.of_nat (length (_parts g)) -> selected i = true) ->
  getBubbleSelectionIntervals g selected
  = Some [mkInterval start (height g - start)].
Proof.
  intros Hne Hst Hall. unfold getBubbleSelectionIntervals.
  rewrite intervals_loop_merge, (selected_rects_all selected (_parts g) 0)
    by (intros k Hk; apply Hall; lia).
  assert (Hlast : selected (Z.of_nat (length (_parts g)) - 1) = true).
  { apply Hall. destruct (_parts g); [now contradiction Hne|].
    cbn [length]. lia. }
  rewrite Hlast.
  destruct (map geometry (_parts g)) as [|r rest] eqn:Hm.
  { destruct (_parts g); [now contradiction Hne|discriminate]. }
  cbn [stacked_from] in Hst. destruct Hst as [Ht [Hh Hrest]].
  assert (Hfold : fold_left merge_selected (r :: rest) []
                  = [mkInterval start
                       (start + rheight r + total (map rheight rest)
                        - start)]).
  { cbn [fold_left]. unfold merge_selected at 2. cbn [rev].
    rewrite Ht.
    replace (rheight r) with (start + rheight r - start) at 1 by lia.
    apply merge_stacked; [lia|exact Hrest]. }
  rewrite Hfold. reflexivity.
Qed.

Lemma getBubbleSelectionIntervals_all_selected_witness :
  stacked_from 0 (map geometry (_parts stacked_group)) /\
  getBubbleSelectionIntervals stacked_group (fun _ => true)
  = Some [mkInterval 0 60].
Proof.
  assert (H : stacked_from 0 (map geometry (_parts stacked_group))).
  { vm_compute. repeat split; discriminate. }
  split; [exact H|].
  apply (getBubbleSelectionIntervals_all_selected stacked_group
           (fun _ => true) 0); [discriminate|exact H|reflexivity].
Defined.

Section ColumnSelection.

Variable st : Style.

(** X26.  After a Column resize in which every member reports a
    non-negative height, the members are stacked from 0 without gaps, so
    whatever the selection is, the intervals
    [getBubbleSelectionIntervals] returns for the resized group are
    listed from top to bottom and no two of them overlap or touch. *)
Theorem column_selection_gapped (g : GroupedMedia) (newWidth : Z)
  (selected : Z -> bool) (result : list BubbleSelectionInterval) :
  let w := Z.min newWidth (maxWidth g) in
  let g' := snd (countCurrentSize st g newWidth) in
  _mode g = Column ->
  (forall h, In h (grouped_heights w (length (_parts g)) 0 (_parts g)) ->
             0 <= h) ->
  getBubbleSelectionIntervals g' selected = Some result ->
  stacked_from 0 (map geometry (_parts g')) /\ gapped result.
Proof.
  intros w g' Hm Hpos Hrun.
  assert (Hst : stacked_from 0 (map geometry (_parts g'))).
  { unfold g', countCurrentSize. rewrite Hm. fold w.
    pose proof (column_loop_stacked w (length (_parts g)) (_parts g) 0 0
                  Hpos) as H.
    destruct (column_loop w (length (_parts g)) 0 0 (_parts g))
      as [parts top].
    exact H. }
  split; [exact Hst|].
  assert (Hg : gapped (intervals_loop selected 0 (_parts g') [])).
  { apply (intervals_loop_gapped selected (_parts g') 0 [] 0);
      [exact I|discriminate|].
    apply selected_rects_ascend. now apply stacked_ascend. }
  unfold getBubbleSelectionIntervals in Hrun.
  destruct (selected (Z.of_nat (length (_parts g')) - 1)).
  - remember (intervals_loop selected 0 (_parts g') []) as loop eqn:E.
    destruct loop as [|first rest]; [discriminate|].
    assert (Hr : modify_back
                   (fun last => mkInterval (top last) (height g' - top last))
                   (first :: rest) = result) by now injection Hrun.
    rewrite <- Hr. now apply gapped_modify_back.
  - now injection Hrun as <-.
Qed.

End ColumnSelection.

Lemma column_selection_gapped_witness :
  _mode file_group = Column /\
  gapped [mkInterval 0 96].
Proof.
  split; [reflexivity|].
  destruct (column_selection_gapped sample_style file_group 250
              (fun _ => true) [mkInterval 0 96]) as [_ H].
  - reflexivity.
  - intros h Hh. vm_compute in Hh. destruct Hh as [<-|[<-|[]]]; lia.
  - reflexivity.
  - exact H.
Defined.
